(** * DiskANN parallel substrate: a shallow embedding and its properties

    The development follows three headers of the repository:
    - [include/diskann_parallel.h]  (module [DiskannParallel]): the
      thread pool with futures, [parallel_for], [parallel_for_static],
      [parallel_for_dynamic] and the iterator based [parallel_reduce]
      (the thread-pool branch, taken when neither OpenMP nor a working
      parallel STL is present);
    - [include/parallel_utils.h]  (module [ParallelUtils]): the index
      based [parallel_reduce] built on [std::async];
    - [include/parallel_framework.h]  (module [ParallelFramework]): the
      second [ThreadPool], [barrier], [reduction_variable],
      [single_executor] and the slot based [parallel_reduce].

    The remaining entry points of the three headers come after these:
    the loops that start threads of their own ([Threads],
    [ParallelUtilsLoops], [ParallelUtilsSizeT],
    [ParallelFrameworkExecutor]), [parallel_transform_reduce]
    ([DiskannTransformReduce]), the [DISKANN_BARRIER] macro
    ([ParallelFrameworkMacros]), the worker loop with [wait_all] of
    parallel_framework.h ([ParallelFrameworkPool]), [parallel_sections]
    ([ParallelSections]) and the global thread count
    ([ParallelFrameworkGlobals]).

    [IndexType] and the value type [T] are template parameters; indices
    are taken in [Z], values in an arbitrary type.  The fields the source
    declares as [int] ([std::atomic<int>]) wrap around explicitly. *)

From Stdlib Require Import ZArith Lia.
From stdpp Require Import base numbers list relations strings gmap.

Local Open Scope Z_scope.

(** ** Machine integers *)

(** Two's complement wrap-around of a 32-bit [int]. *)
Definition wrap_int (x : Z) : Z := (x + 2 ^ 31) `mod` 2 ^ 32 - 2 ^ 31.

(** Wrap-around of a 32-bit [unsigned int]. *)
Definition wrap_uint (x : Z) : Z := x `mod` 2 ^ 32.

(** Conversion of an [int] to the 64-bit [size_t]. *)
Definition to_size_t (x : Z) : Z := x `mod` 2 ^ 64.

Definition INT_MAX : Z := 2 ^ 31 - 1.
Definition INT_MIN : Z := - 2 ^ 31.

(** ** Runs of a transition system *)

(** [eventually R P a]: every run of [R] from [a] reaches a state that
    satisfies [P] after finitely many steps, and no run gets stuck
    before it does. *)
Inductive eventually {A : Type} (R : relation A) (P : A → Prop) : A → Prop :=
  | ev_here a : P a → eventually R P a
  | ev_next a : (∃ b, R a b) → (∀ b, R a b → eventually R P b) → eventually R P a.

(** ** The even split of a range among [num_threads] workers

    The loop shared by [parallel_for]/[parallel_reduce] of
    parallel_utils.h and by the static branch of
    [parallel_for_executor::execute] of parallel_framework.h:
<<
    for (int t = 0; t < num_threads; ++t) {
        IndexType current_end = current_start + chunk_size;
        if (t < remainder) current_end += 1;
        ... [current_start, current_end) ...
        current_start = current_end;
    }
>>
    [todo] counts the iterations that are left. *)
Fixpoint split_loop (todo : nat) (t current_start chunk_size remainder : Z)
  : list (Z * Z) :=
  match todo with
  | O => []
  | S todo' =>
      let current_end := current_start + chunk_size in
      let current_end := if t <? remainder then current_end + 1 else current_end in
      (current_start, current_end)
        :: split_loop todo' (t + 1) current_end chunk_size remainder
  end.

(** [for (i = lo; i < hi; ++i) acc = reduce_op(acc, transform_op(i));] *)
Definition fold_range {T : Type} (reduce_op : T → T → T) (transform_op : Z → T)
    (acc : T) (lo hi : Z) : T :=
  foldl (λ r i, reduce_op r (transform_op i)) acc (seqZ lo (hi - lo)).

(** The indices of a list of partitions [lo, hi), partition after
    partition. *)
Definition ranges (parts : list (Z * Z)) : list Z :=
  concat (map (λ p : Z * Z, seqZ p.1 (p.2 - p.1)) parts).

(** The reduction as the specification words it: every partition folds
    its own indices from [identity], and the partial results are combined
    with [reduce_op] in ascending partition order. *)
Definition in_order_fold {T : Type} (identity : T) (reduce_op : T → T → T)
    (transform_op : Z → T) (parts : list (Z * Z)) : T :=
  foldl reduce_op identity
        (map (λ p : Z * Z, fold_range reduce_op transform_op identity p.1 p.2) parts).

(** ** parallel_framework.h *)
Module ParallelFramework.

(** *** ThreadPool::enqueue *)

Record ThreadPool (Task : Type) := mkThreadPool {
  tasks : list Task;
  stop : bool
}.
Arguments mkThreadPool {Task} _ _.
Arguments tasks {Task} _.
Arguments stop {Task} _.

Inductive enqueue_result (Task : Type) :=
  | enqueued (p : ThreadPool Task)
  | runtime_error (what : string).
Arguments enqueued {Task} _.
Arguments runtime_error {Task} _.

Definition enqueue {Task : Type} (f : Task) (p : ThreadPool Task)
  : enqueue_result Task :=
  if stop p then runtime_error "enqueue on stopped ThreadPool"
  else enqueued (mkThreadPool (tasks p ++ [f]) (stop p)).

(** *** get_global_num_threads, get_thread_num *)

(** The function-local statics of [get_thread_num]: the shared counter
    [next_id] and, per thread, the [thread_local] id once it has been
    initialised.  Threads are named by natural numbers. *)
Record thread_ids := mkThreadIds {
  next_id : Z;
  thread_id : gmap nat Z
}.

Definition get_thread_num (th : nat) (s : thread_ids) : Z * thread_ids :=
  match thread_id s !! th with
  | Some id => (id, s)
  | None =>
      (next_id s,
       mkThreadIds (wrap_int (next_id s + 1)) (<[th := next_id s]> (thread_id s)))
  end.

(** The threads [ths] call [get_thread_num] one after the other. *)
Fixpoint first_calls (ths : list nat) (s : thread_ids) : list Z * thread_ids :=
  match ths with
  | [] => ([], s)
  | th :: ths' =>
      let '(id, s1) := get_thread_num th s in
      let '(ids, s2) := first_calls ths' s1 in
      (id :: ids, s2)
  end.

(** *** barrier *)

Record barrier := mkBarrier {
  count : Z;
  generation : Z;
  total : Z
}.

Definition new_barrier (num_threads : Z) : barrier :=
  mkBarrier num_threads 0 num_threads.

(** What [wait()] does with its caller once it holds the mutex: the
    caller either returns at once, or sleeps on the condition variable
    with the generation [gen] it read on entry. *)
Inductive arrival := passes | sleeps (gen : Z).

Definition wait (b : barrier) : barrier * arrival :=
  let gen := generation b in
  let c := wrap_int (count b - 1) in
  if c =? 0
  then (mkBarrier (total b) (wrap_int (generation b + 1)) (total b), passes)
  else (mkBarrier c (generation b) (total b), sleeps gen).

(** The predicate of [cv.wait(lock, [this, gen] { return generation > gen; })]. *)
Definition wakes (b : barrier) (gen : Z) : bool := gen <? generation b.

(** [k] threads call [wait()] one after the other (the mutex serialises
    them). *)
Fixpoint arrivals (k : nat) (b : barrier) : barrier * list arrival :=
  match k with
  | O => (b, [])
  | S k' =>
      let '(b1, a) := wait b in
      let '(b2, l) := arrivals k' b1 in
      (b2, a :: l)
  end.

(** *** reduction_variable *)

Record reduction_variable (T : Type) := mkReductionVariable {
  thread_local_values : list T;
  operation : T → T → T;
  identity : T
}.
Arguments mkReductionVariable {T} _ _ _.
Arguments thread_local_values {T} _.
Arguments operation {T} _.
Arguments identity {T} _.

(** [reduction_variable(T init_value, Op op)]: one slot per global thread
    count; the [int] count is converted to [size_t]. *)
Definition new_reduction_variable {T : Type} (global_num_threads : Z)
    (init_value : T) (op : T → T → T) : reduction_variable T :=
  mkReductionVariable
    (replicate (Z.to_nat (to_size_t global_num_threads)) init_value) op init_value.



Definition reduce {T : Type} (rv : reduction_variable T) : T :=
  foldl (operation rv) (identity rv) (thread_local_values rv).

(** *** single_executor *)

(** The static flag [executed] together with the state [St] the
    supplied functions act on. *)
Definition execute {St : Type} (fn : St → St) (st : bool * St) : bool * St :=
  let '(executed, s) := st in
  if executed then (executed, s)   (* compare_exchange_strong fails *)
  else (true, fn s).

Definition reset {St : Type} (st : bool * St) : bool * St := (false, st.2).

(** A phase: the callers of [execute], in the order in which their
    [compare_exchange_strong] takes effect. *)
Definition phase {St : Type} (fns : list (St → St)) (st : bool * St) : bool * St :=
  foldl (λ st fn, execute fn st) st fns.

(** *** parallel_for_executor::execute and parallel_reduce *)

(** How [execute] runs the body when scheduling is static: in the
    calling thread, or one [std::async] thread per partition. *)
Inductive execution :=
  | nothing
  | sequential (start_ end_ : Z)
  | threads (parts : list (Z * Z)).

(** [None] is the division by a zero thread count. *)
Definition execute_static (start_ end_ num_threads_ : Z) : option execution :=
  if end_ <=? start_ then Some nothing
  else
    let total_work := end_ - start_ in
    if (total_work <? num_threads_ * 2) || (num_threads_ =? 1)
    then Some (sequential start_ end_)
    else if num_threads_ =? 0 then None
    else
      let chunk_size := total_work `quot` num_threads_ in
      let remainder := total_work `rem` num_threads_ in
      Some (threads (split_loop (Z.to_nat num_threads_) 0 start_ chunk_size remainder)).

(** The body of the lambda handed to [parallel_for] by [parallel_reduce],
    run by a thread whose runtime id is [id]:
<<
    int tid = parallel::get_thread_num() % num_threads;
    partial_results[tid] = reduce_op(partial_results[tid], transform_op(i));
>> *)
Definition accumulate_into {T : Type} (identity : T) (reduce_op : T → T → T)
    (transform_op : Z → T) (num_threads id : Z)
    (partial_results : list T) (i : Z) : list T :=
  let tid := Z.to_nat (id `rem` num_threads) in
  <[tid := reduce_op (default identity (partial_results !! tid)) (transform_op i)]>
    partial_results.

(** One thread runs the body over its partition. *)
Definition run_partition {T : Type} (identity : T) (reduce_op : T → T → T)
    (transform_op : Z → T) (num_threads : Z)
    (partial_results : list T) (part : Z * (Z * Z)) : list T :=
  let '(id, (lo, hi)) := part in
  foldl (accumulate_into identity reduce_op transform_op num_threads id)
        partial_results (seqZ lo (hi - lo)).

(** [parallel_reduce].  [global_num_threads] is the value of
    [get_global_num_threads()], [caller_id] the runtime id of the calling
    thread and [ids] the runtime ids of the threads that [std::async]
    starts, in partition order; both come from [get_thread_num] at run
    time.  The partitions write to their slots one after the other; for
    threads with distinct slots every interleaving of the writes gives
    the same vector. *)
Definition parallel_reduce {T : Type} (global_num_threads caller_id : Z) (ids : list Z)
    (start end_ : Z) (identity : T) (transform_op : Z → T) (reduce_op : T → T → T)
    (num_threads : Z) : option T :=
  let num_threads := if num_threads <=? 0 then global_num_threads else num_threads in
  let total_work := end_ - start in
  if total_work <=? 0 then Some identity
  else
    let partial_results := replicate (Z.to_nat num_threads) identity in
    let num_threads_ := if 0 <? num_threads then num_threads else global_num_threads in
    match execute_static start end_ num_threads_ with
    | None => None
    | Some ex =>
        let filled :=
          match ex with
          | nothing => partial_results
          | sequential lo hi =>
              run_partition identity reduce_op transform_op num_threads
                partial_results (caller_id, (lo, hi))
          | threads parts =>
              foldl (run_partition identity reduce_op transform_op num_threads)
                partial_results (zip ids parts)
          end in
        Some (foldl reduce_op identity filled)
    end.

End ParallelFramework.

(** ** parallel_utils.h *)
Module ParallelUtils.

(** [get_num_threads()] without OpenMP; the argument is the value of
    [std::thread::hardware_concurrency()]. *)
Definition get_num_threads (hardware_concurrency : Z) : Z :=
  if 0 <? hardware_concurrency then hardware_concurrency else 1.

(** [parallel_reduce(start, end, identity, reduce_op, transform_op,
    num_threads)].  Each [std::async] task is a pure function of its
    partition, so [future.get()] is the value of that function; the
    futures are read in the order they were pushed. *)
Definition parallel_reduce {T : Type} (hardware_concurrency : Z) (start end_ : Z)
    (identity : T) (reduce_op : T → T → T) (transform_op : Z → T)
    (num_threads : Z) : T :=
  let num_threads :=
    if num_threads <=? 0 then get_num_threads hardware_concurrency else num_threads in
  let total_work := end_ - start in
  if total_work <=? 0 then identity
  else if (total_work <? num_threads) || (num_threads =? 1)
  then fold_range reduce_op transform_op identity start end_
  else
    let chunk_size := total_work `quot` num_threads in
    let remainder := total_work `rem` num_threads in
    let futures :=
      map (λ p : Z * Z, fold_range reduce_op transform_op identity p.1 p.2)
          (split_loop (Z.to_nat num_threads) 0 start chunk_size remainder) in
    foldl reduce_op identity futures.

End ParallelUtils.

(** ** diskann_parallel.h *)
Module DiskannParallel.

(** *** ThreadPool *)

(** One step of a task body: it goes on as [k], returns, or throws. *)
Inductive outcome (Task Exn : Type) :=
  | Continue (k : Task)
  | Return
  | Throw (e : Exn).
Arguments Continue {Task Exn} _.
Arguments Return {Task Exn}.
Arguments Throw {Task Exn} _.

(** A worker thread: blocked in or about to enter [condition.wait], inside
    [task()] for the packaged task with shared state [h], or returned
    from its loop. *)
Inductive worker (Task : Type) :=
  | Waiting
  | Running (h : nat) (k : Task)
  | Exited.
Arguments Waiting {Task}.
Arguments Running {Task} _ _.
Arguments Exited {Task}.

(** The shared state behind a [std::future]. *)
Inductive shared_state (Exn : Type) :=
  | Pending
  | Ready
  | Failed (e : Exn).
Arguments Pending {Exn}.
Arguments Ready {Exn}.
Arguments Failed {Exn} _.

(** The members of [ThreadPool] ([workers], [tasks], [stop]) together with
    what its tasks act on: the shared states of the futures handed out
    by [enqueue], and the memory [mem]. *)
Record ThreadPool (Task Exn Mem : Type) := mkThreadPool {
  workers : list (worker Task);
  tasks : list (nat * Task);
  stop : bool;
  futures : list (shared_state Exn);
  mem : Mem
}.
Arguments mkThreadPool {Task Exn Mem} _ _ _ _ _.
Arguments workers {Task Exn Mem} _.
Arguments tasks {Task Exn Mem} _.
Arguments stop {Task Exn Mem} _.
Arguments futures {Task Exn Mem} _.
Arguments mem {Task Exn Mem} _.

(** [size_t num_threads] as the constructor fixes it. *)
Definition worker_count (hardware_concurrency num_threads : Z) : Z :=
  if num_threads =? 0
  then (if hardware_concurrency =? 0 then 1 else hardware_concurrency)
  else num_threads.

(** [ThreadPool(size_t num_threads = 0)] *)
Definition new_ThreadPool {Task Exn Mem : Type} (hardware_concurrency num_threads : Z)
    (m : Mem) : ThreadPool Task Exn Mem :=
  mkThreadPool
    (replicate (Z.to_nat (worker_count hardware_concurrency num_threads)) Waiting)
    [] false [] m.

(** [num_threads() const { return workers.size(); }] *)
Definition num_threads {Task Exn Mem : Type} (p : ThreadPool Task Exn Mem) : Z :=
  Z.of_nat (length (workers p)).

(** [enqueue(f)]: a packaged task is made for [f], its future is returned
    and the task is pushed; [stop] is not read. *)
Definition enqueue {Task Exn Mem : Type} (f : Task) (p : ThreadPool Task Exn Mem)
  : nat * ThreadPool Task Exn Mem :=
  let res := length (futures p) in
  (res, mkThreadPool (workers p) (tasks p ++ [(res, f)]) (stop p)
                     (futures p ++ [Pending]) (mem p)).

(** The first half of [~ThreadPool()]: [stop = true] under the lock, then
    [notify_all]; [join] returns once every worker is [Exited]. *)
Definition signal_stop {Task Exn Mem : Type} (p : ThreadPool Task Exn Mem)
  : ThreadPool Task Exn Mem :=
  mkThreadPool (workers p) (tasks p) true (futures p) (mem p).

Definition joined_workers {Task Exn Mem : Type} (p : ThreadPool Task Exn Mem) : Prop :=
  Forall (λ w, w = Exited) (workers p).

(** [future.wait()] of every future in turn returns once none is pending. *)
Definition all_ready {Task Exn Mem : Type} (p : ThreadPool Task Exn Mem) : Prop :=
  Forall (λ f, f ≠ Pending) (futures p).

(** The tasks in flight: those inside [task()] of some worker. *)
Definition running {Task : Type} (ws : list (worker Task)) : list (nat * Task) :=
  omap (λ w, match w with Running h k => Some (h, k) | _ => None end) ws.

(** Tasks queued or in flight. *)
Definition live {Task Exn Mem : Type} (p : ThreadPool Task Exn Mem) : list (nat * Task) :=
  tasks p ++ running (workers p).

Section WorkerLoop.
Context {Task Exn Mem : Type}.
Variable exec : Task → Mem → Mem * outcome Task Exn.

Abbreviation pool := (ThreadPool Task Exn Mem).

(** The worker loop of the constructor, one atomic action per step:
    - [step_pop]: woken with a non-empty queue, the worker moves the
      front task out of the queue;
    - [step_exit]: woken with [stop] set and the queue empty, it returns;
    - [step_continue], [step_return], [step_throw]: inside [task()]; the
      packaged task stores the result or the exception in the shared
      state and the worker goes back to the top of its loop.
    A waiting worker with an empty queue and [stop] unset has no step. *)
Inductive worker_step (p : pool) : pool → Prop :=
  | step_pop i h f q :
      workers p !! i = Some Waiting →
      tasks p = (h, f) :: q →
      worker_step p
        (mkThreadPool (<[i := Running h f]> (workers p)) q (stop p) (futures p) (mem p))
  | step_exit i :
      workers p !! i = Some Waiting →
      stop p = true →
      tasks p = [] →
      worker_step p
        (mkThreadPool (<[i := Exited]> (workers p)) (tasks p) (stop p) (futures p) (mem p))
  | step_continue i h k m' k' :
      workers p !! i = Some (Running h k) →
      exec k (mem p) = (m', Continue k') →
      worker_step p
        (mkThreadPool (<[i := Running h k']> (workers p)) (tasks p) (stop p) (futures p) m')
  | step_return i h k m' :
      workers p !! i = Some (Running h k) →
      exec k (mem p) = (m', Return) →
      worker_step p
        (mkThreadPool (<[i := Waiting]> (workers p)) (tasks p) (stop p)
                      (<[h := Ready]> (futures p)) m')
  | step_throw i h k m' e :
      workers p !! i = Some (Running h k) →
      exec k (mem p) = (m', Throw e) →
      worker_step p
        (mkThreadPool (<[i := Waiting]> (workers p)) (tasks p) (stop p)
                      (<[h := Failed e]> (futures p)) m').

(** Every handle of a task queued or in flight names a pending future,
    and the other way round; no worker has left while [stop] is unset. *)
Record consistent (p : pool) : Prop := mkConsistent {
  live_NoDup : NoDup (live p).*1;
  live_pending : ∀ h, h ∈ (live p).*1 ↔ futures p !! h = Some Pending;
  no_early_exit : stop p = false → Forall (λ w, w ≠ Exited) (workers p)
}.

(** The weight of a pool for a task measure [tm]. *)
Definition worker_weight (tm : Task → nat) (w : worker Task) : nat :=
  match w with
  | Waiting => 1
  | Running _ k => tm k + 2
  | Exited => 0
  end%nat.

Definition weight (tm : Task → nat) (p : pool) : nat :=
  (sum_list_with (λ t, tm t.2 + 2) (tasks p)
   + sum_list_with (worker_weight tm) (workers p))%nat.

End WorkerLoop.

(** *** The global pool and the thread count helpers *)

(** [get_thread_pool()]: the function-local static [ThreadPool pool;]. *)
Definition get_thread_pool {Task Exn Mem : Type} (hardware_concurrency : Z) (m : Mem)
  : ThreadPool Task Exn Mem :=
  new_ThreadPool hardware_concurrency 0 m.

(** [get_num_threads()] *)
Definition get_num_threads (hardware_concurrency : Z) : Z :=
  if 0 <? hardware_concurrency then hardware_concurrency else 1.

(** *** The loop bodies and the tasks of the scheduling entry points *)

(** What a call leaves behind: the cursor [next_chunk] of
    [parallel_for_dynamic], the indices [fn] was called with so far, in
    the order of the calls, and the state [fn] itself acts on. *)
Record memory (St : Type) := mkMemory {
  next_chunk : Z;
  calls : list Z;
  user : St
}.
Arguments mkMemory {St} _ _ _.
Arguments next_chunk {St} _.
Arguments calls {St} _.
Arguments user {St} _.

(** The closures handed to [enqueue], as the program points they are at:
    - [chunk_loop i chunk_end]: [for (; i < chunk_end; ++i) fn(i);], the
      lambda of [parallel_for] and [parallel_for_static];
    - [claim_loop end chunk_size]: the lambda of [parallel_for_dynamic]
      at its [fetch_add];
    - [claimed_loop end chunk_size i chunk_end]: the same lambda inside
      the [for] loop over the chunk it claimed. *)
Inductive task :=
  | chunk_loop (i chunk_end : Z)
  | claim_loop (end_ chunk_size : Z)
  | claimed_loop (end_ chunk_size i chunk_end : Z).

(** How an entry point runs the body: not at all, in a loop of the
    calling thread, or as tasks of the pool that it then waits for.
    [division_by_zero] and [endless] are the two ways in which no such
    decision is reached. *)
Inductive dispatch :=
  | no_op
  | inline (start end_ : Z)
  | fork (ts : list task)
  | division_by_zero
  | endless.

Section Policies.
Context {St Exn : Type}.

(** The loop body: the state it leaves and the exception it throws, if
    any.  A call of [fn] is one atomic action of the thread making it. *)
Variable fn : Z → St → St * option Exn.

Definition invoke (i : Z) (m : memory St) : memory St * option Exn :=
  let '(u, r) := fn i (user m) in
  (mkMemory (next_chunk m) (calls m ++ [i]) u, r).

Definition exec (k : task) (m : memory St) : memory St * outcome task Exn :=
  match k with
  | chunk_loop i chunk_end =>
      if i <? chunk_end then
        let '(m', r) := invoke i m in
        (m', match r with
             | Some e => Throw e
             | None => Continue (chunk_loop (i + 1) chunk_end)
             end)
      else (m, Return)
  | claim_loop end_ chunk_size =>
      let chunk_start := next_chunk m in
      let m' := mkMemory (chunk_start + chunk_size) (calls m) (user m) in
      if chunk_start >=? end_ then (m', Return)
      else (m', Continue (claimed_loop end_ chunk_size chunk_start
                            (Z.min (chunk_start + chunk_size) end_)))
  | claimed_loop end_ chunk_size i chunk_end =>
      if i <? chunk_end then
        let '(m', r) := invoke i m in
        (m', match r with
             | Some e => Throw e
             | None => Continue (claimed_loop end_ chunk_size (i + 1) chunk_end)
             end)
      else (m, Continue (claim_loop end_ chunk_size))
  end.

(** [for (i = start; i < end; ++i) fn(i);] in the calling thread; an
    exception leaves the loop and reaches the caller. *)
Fixpoint for_each (l : list Z) (m : memory St) : memory St * option Exn :=
  match l with
  | [] => (m, None)
  | i :: l' =>
      let '(m', r) := invoke i m in
      match r with
      | Some e => (m', Some e)
      | None => for_each l' m'
      end
  end.

Definition sequential_loop (start end_ : Z) (m : memory St) : memory St * option Exn :=
  for_each (seqZ start (end_ - start)) m.

End Policies.

(** The [for (size_t t = 0; t < num_threads; ++t)] loop of [parallel_for];
    [todo] counts the iterations that are left. *)
Fixpoint even_chunks (todo : nat) (t start end_ chunk_size : Z) : list task :=
  match todo with
  | O => []
  | S todo' =>
      let chunk_start := start + t * chunk_size in
      let chunk_end := Z.min (chunk_start + chunk_size) end_ in
      (if chunk_start <? chunk_end then [chunk_loop chunk_start chunk_end] else [])
        ++ even_chunks todo' (t + 1) start end_ chunk_size
  end.

(** [parallel_for(start, end, fn)] for a pool of [num_threads] workers. *)
Definition parallel_for (num_threads start end_ : Z) : dispatch :=
  if start >=? end_ then no_op
  else
    let range := end_ - start in
    if (range >? 1000) && (num_threads >? 1) then
      let chunk_size := (range + num_threads - 1) `quot` num_threads in
      fork (even_chunks (Z.to_nat num_threads) 0 start end_ chunk_size)
    else inline start end_.

(** The [for (i = start; i < end; i += chunk_size)] loop of
    [parallel_for_static]; [None] when [fuel] iterations do not end it. *)
Fixpoint static_chunks (fuel : nat) (i end_ chunk_size : Z) : option (list task) :=
  if i <? end_ then
    match fuel with
    | O => None
    | S fuel' =>
        match static_chunks fuel' (i + chunk_size) end_ chunk_size with
        | Some ts => Some (chunk_loop i (Z.min (i + chunk_size) end_) :: ts)
        | None => None
        end
    end
  else Some [].

(** [parallel_for_static(start, end, fn, chunk_size = 0)].
    [active_threads] is the value of the [unsigned int]
    [get_active_threads()].  The chunk loop gets [end - start]
    iterations: each one moves [i] by [chunk_size], so that many end the
    loop whenever anything does. *)
Definition parallel_for_static (num_threads active_threads start end_ chunk_size : Z)
  : dispatch :=
  if start >=? end_ then no_op
  else
    let divisor := wrap_uint (active_threads * 4) in
    if (chunk_size =? 0) && (divisor =? 0) then division_by_zero
    else
      let chunk_size :=
        if chunk_size =? 0 then Z.max 1 ((end_ - start) `quot` divisor)
        else chunk_size in
      let range := end_ - start in
      if (range >? chunk_size) && (num_threads >? 1) then
        match static_chunks (Z.to_nat (end_ - start)) start end_ chunk_size with
        | Some ts => fork ts
        | None => endless
        end
      else inline start end_.

(** [parallel_for_dynamic(start, end, fn, chunk_size = 1)]; the cursor
    [next_chunk] starts at [start]. *)
Definition parallel_for_dynamic (num_threads start end_ chunk_size : Z) : dispatch :=
  if start >=? end_ then no_op
  else if (end_ - start >? chunk_size) && (num_threads >? 1) then
    fork (replicate (Z.to_nat num_threads) (claim_loop end_ chunk_size))
  else inline start end_.

Section Calls.
Context {St Exn : Type}.
Variable fn : Z → St → St * option Exn.

Definition initial_memory (start : Z) (u : St) : memory St := mkMemory start [] u.

(** The global pool, idle until then, right after the caller has pushed
    the tasks [ts]; [u] is the state the body finds. *)
Definition launch (hardware_concurrency : Z) (start : Z) (u : St) (ts : list task)
  : ThreadPool task Exn (memory St) :=
  foldl (λ p t, (enqueue t p).2)
        (get_thread_pool hardware_concurrency (initial_memory start u)) ts.

(** What the caller of a scheduling entry point gets. *)
Inductive completion :=
  | returns (m : memory St)
  | propagates (e : Exn) (m : memory St).

(** [complete hw start u d c]: the call that decided on [d] can end as
    [c].  A forked call returns from its [future.wait()] loop in any
    state of the pool in which no future is pending; [wait] does not
    look at what the shared state holds. *)
Inductive complete (hardware_concurrency : Z) (start : Z) (u : St)
  : dispatch → completion → Prop :=
  | complete_no_op :
      complete hardware_concurrency start u no_op (returns (initial_memory start u))
  | complete_inline a b m :
      sequential_loop fn a b (initial_memory start u) = (m, None) →
      complete hardware_concurrency start u (inline a b) (returns m)
  | complete_inline_throw a b m e :
      sequential_loop fn a b (initial_memory start u) = (m, Some e) →
      complete hardware_concurrency start u (inline a b) (propagates e m)
  | complete_fork ts p :
      rtc (worker_step (exec fn)) (launch hardware_concurrency start u ts) p →
      all_ready p →
      complete hardware_concurrency start u (fork ts) (returns (mem p)).

(** [terminates hw start u d]: the call that decided on [d] ends on
    every schedule of the workers. *)
Definition terminates (hardware_concurrency : Z) (start : Z) (u : St) (d : dispatch)
  : Prop :=
  match d with
  | no_op | inline _ _ => True
  | fork ts =>
      eventually (worker_step (exec fn)) all_ready
                 (launch hardware_concurrency start u ts)
  | division_by_zero | endless => False
  end.

(** The state a sequential loop over [start, end) leaves. *)
Definition loop_state (start end_ : Z) (u : St) : St :=
  foldl (λ s i, (fn i s).1) u (seqZ start (end_ - start)).

(** Calls of [fn] for different indices act on disjoint parts of the
    state: they commute. *)
Definition disjoint_slots : Prop :=
  ∀ i j s, i ≠ j → (fn i (fn j s).1).1 = (fn j (fn i s).1).1.

Definition nothrow : Prop := ∀ i s, (fn i s).2 = None.


End Calls.

(** *** parallel_reduce over an iterator range *)

(** The [for (size_t t = 0; t < num_threads; ++t)] loop of
    [parallel_reduce]: the chunks [chunk_begin, chunk_end) of the range
    that starts at [it]. *)
Fixpoint reduce_chunks {A : Type} (todo : nat) (t num_threads : Z) (chunk_size : nat)
    (it : list A) : list (list A) :=
  match todo with
  | O => []
  | S todo' =>
      if t =? num_threads - 1
      then it :: reduce_chunks todo' (t + 1) num_threads chunk_size []
      else take chunk_size it
             :: reduce_chunks todo' (t + 1) num_threads chunk_size (drop chunk_size it)
  end.

(** [parallel_reduce(first, last, init, op)] for a pool of [num_threads]
    workers; [data] is the range [first, last).  The tasks are pure, so
    [future.get()] is [std::accumulate] of the chunk. *)
Definition parallel_reduce {T : Type} (num_threads : Z) (data : list T) (init : T)
    (op : T → T → T) : T :=
  let distance := Z.of_nat (length data) in
  if (distance >? 1000) && (num_threads >? 1) then
    let chunk_size := distance `quot` num_threads in
    let futures :=
      map (foldl op init)
          (reduce_chunks (Z.to_nat num_threads) 0 num_threads (Z.to_nat chunk_size) data) in
    foldl op init futures
  else foldl op init data.

(** *** What is left of a call

    The definitions below describe the state of a call in progress; the
    invariants of the scheduling entry points are stated with them. *)

(** The indices a task has still to call [fn] with. *)
Definition pending_of (k : task) : list Z :=
  match k with
  | chunk_loop i chunk_end => seqZ i (chunk_end - i)
  | claim_loop _ _ => []
  | claimed_loop _ _ i chunk_end => seqZ i (chunk_end - i)
  end.

Definition pending (ks : list task) : list Z := ks ≫= pending_of.

(** The indices no task has claimed yet. *)
Definition unclaimed (limit cursor : Z) : list Z := seqZ cursor (limit - cursor).

(** The claiming tasks all run to [limit] in steps of [step]. *)
Definition claims_from (limit step : Z) (k : task) : Prop :=
  match k with
  | chunk_loop _ _ => True
  | claim_loop end_ chunk_size => end_ = limit ∧ chunk_size = step
  | claimed_loop end_ chunk_size _ _ => end_ = limit ∧ chunk_size = step
  end.

Definition is_claiming (k : task) : Prop :=
  match k with
  | chunk_loop _ _ => False
  | _ => True
  end.

Definition task_size (k : task) : nat :=
  match k with
  | chunk_loop i chunk_end => Z.to_nat (chunk_end - i)
  | claim_loop _ _ => 0
  | claimed_loop _ _ i chunk_end => Z.to_nat (chunk_end - i) + 1
  end.

(** *** Sample bodies and tasks *)

(** A task that counts down: [S k] does one step and goes on as [k]. *)
Definition countdown (k : nat) (m : list nat) : list nat * outcome nat unit :=
  match k with
  | O => (m, Return)
  | S k' => (k :: m, Continue k')
  end.

(** A body that throws at index 0 and nowhere else. *)
Definition throws_at_0 (i : Z) (s : unit) : unit * option string :=
  (s, if i =? 0 then Some "boom" else None).

(** A body that writes [g i] to the output slot [i] and to nothing else. *)
Definition write_slot (g : Z → Z) (i : Z) (s : gmap Z Z) : gmap Z Z * option unit :=
  (<[i := g i]> s, None).

End DiskannParallel.

(** ** Threads of [std::thread] and [std::async]

    parallel_utils.h starts one [std::thread] per closure and joins
    them; [parallel_for_executor::execute] of parallel_framework.h starts
    one [std::async(std::launch::async, ...)] thread per closure and
    waits for the futures.  The closures are those of [DiskannParallel]:
    [chunk_loop] for a fixed partition, [claim_loop] for the loop around
    [fetch_add]. *)
Module Threads.
Import DiskannParallel.

(** A started thread: inside its closure at the program point [k],
    returned from it, or left by the exception [e]. *)
Inductive thread (Exn : Type) :=
  | Started (k : task)
  | Finished
  | Raised (e : Exn).
Arguments Started {Exn} _.
Arguments Finished {Exn}.
Arguments Raised {Exn} _.

(** The threads of one call, in the order in which they were started,
    and the memory they share. *)
Record run (St Exn : Type) := mkRun {
  threads : list (thread Exn);
  shared : memory St
}.
Arguments mkRun {St Exn} _ _.
Arguments threads {St Exn} _.
Arguments shared {St Exn} _.

(** How an entry point runs the body: not at all, in a loop of the
    calling thread, or in threads of their own that it then waits for. *)
Inductive plan :=
  | skip
  | in_caller (start end_ : Z)
  | in_threads (ts : list task).

Section Run.
Context {St Exn : Type}.
Variable fn : Z → St → St * option Exn.

(** One atomic action of one of the threads. *)
Inductive thread_step (s : run St Exn) : run St Exn → Prop :=
  | thread_continue i k m' k' :
      threads s !! i = Some (Started k) →
      exec fn k (shared s) = (m', Continue k') →
      thread_step s (mkRun (<[i := Started k']> (threads s)) m')
  | thread_return i k m' :
      threads s !! i = Some (Started k) →
      exec fn k (shared s) = (m', Return) →
      thread_step s (mkRun (<[i := Finished]> (threads s)) m')
  | thread_raise i k m' e :
      threads s !! i = Some (Started k) →
      exec fn k (shared s) = (m', Throw e) →
      thread_step s (mkRun (<[i := Raised e]> (threads s)) m').

(** The loop that starts the threads has no effect on the memory: the
    run begins with every closure at its entry. *)
Definition start_threads (start : Z) (u : St) (ts : list task) : run St Exn :=
  mkRun (map Started ts) (initial_memory start u).

(** [thread.join()] of every [std::thread] has returned.  An exception
    that leaves the closure of a [std::thread] ends the process in
    [std::terminate]; no join returns then. *)
Definition joined (s : run St Exn) : Prop :=
  Forall (λ t, t = Finished) (threads s).

(** [future.wait()] of every [std::async] future has returned: the
    thread is over, with a value or with an exception in the shared
    state. *)
Definition waited (s : run St Exn) : Prop :=
  Forall (λ t, ∀ k, t ≠ Started k) (threads s).

(** [finish done start u pl c]: the call that decided on [pl] can end as
    [c]; [done] is [joined] or [waited]. *)
Inductive finish (done : run St Exn → Prop) (start : Z) (u : St)
  : plan → completion (St := St) (Exn := Exn) → Prop :=
  | finish_skip :
      finish done start u skip (returns (initial_memory start u))
  | finish_in_caller a b m :
      sequential_loop fn a b (initial_memory start u) = (m, None) →
      finish done start u (in_caller a b) (returns m)
  | finish_in_caller_throw a b m e :
      sequential_loop fn a b (initial_memory start u) = (m, Some e) →
      finish done start u (in_caller a b) (propagates e m)
  | finish_in_threads ts s :
      rtc thread_step (start_threads start u ts) s →
      done s →
      finish done start u (in_threads ts) (returns (shared s)).

(** The call ends on every schedule of its threads. *)
Definition ends (done : run St Exn → Prop) (start : Z) (u : St) (pl : plan) : Prop :=
  match pl with
  | skip | in_caller _ _ => True
  | in_threads ts => eventually thread_step done (start_threads start u ts)
  end.

(** The call ends on every schedule and does return; whenever it does,
    it returns normally, has called [fn] once with every index of
    [start, end), and leaves the state of the sequential loop if the
    calls are independent. *)
Definition runs_each_once (done : run St Exn → Prop) (start end_ : Z) (u : St)
    (pl : plan) : Prop :=
  ends done start u pl
  ∧ (∃ c, finish done start u pl c)
  ∧ ∀ c, finish done start u pl c →
      ∃ m, c = returns m
           ∧ calls m ≡ₚ seqZ start (end_ - start)
           ∧ (disjoint_slots fn → user m = loop_state fn start end_ u).

End Run.

(** The closures of a static split: one [chunk_loop] per partition. *)
Definition partition_loops (parts : list (Z * Z)) : list task :=
  map (λ p : Z * Z, chunk_loop p.1 p.2) parts.

End Threads.

(** ** parallel_utils.h: parallel_for, parallel_for_dynamic *)
Module ParallelUtilsLoops.
Import DiskannParallel Threads.

(** [if (num_threads <= 0) num_threads = get_num_threads();] the
    [uint32_t] result is stored in the [int] parameter. *)
Definition thread_count (hardware_concurrency num_threads : Z) : Z :=
  if num_threads <=? 0
  then wrap_int (ParallelUtils.get_num_threads hardware_concurrency)
  else num_threads.

(** [parallel_for(start, end, fn, num_threads = -1)] *)
Definition parallel_for (hardware_concurrency start end_ num_threads : Z) : plan :=
  let num_threads := thread_count hardware_concurrency num_threads in
  let total_work := end_ - start in
  if total_work <=? 0 then skip
  else if (total_work <? num_threads) || (num_threads =? 1)
  then in_caller start end_
  else
    let chunk_size := total_work `quot` num_threads in
    let remainder := total_work `rem` num_threads in
    in_threads
      (partition_loops (split_loop (Z.to_nat num_threads) 0 start chunk_size remainder)).

(** [parallel_for_dynamic(start, end, fn, chunk_size = 1, num_threads = -1)];
    the cursor [next_work] starts at [start]. *)
Definition parallel_for_dynamic (hardware_concurrency start end_ chunk_size num_threads : Z)
  : plan :=
  let num_threads := thread_count hardware_concurrency num_threads in
  let total_work := end_ - start in
  if total_work <=? 0 then skip
  else if (total_work <? num_threads) || (num_threads =? 1)
  then in_caller start end_
  else in_threads (replicate (Z.to_nat num_threads) (claim_loop end_ chunk_size)).

End ParallelUtilsLoops.

(** ** parallel_framework.h: parallel_for_executor *)
Module ParallelFrameworkExecutor.
Import DiskannParallel Threads.

Record parallel_for_executor := mkExecutor {
  start_ : Z;
  end_ : Z;
  num_threads_ : Z;
  dynamic_schedule_ : bool;
  chunk_size_ : Z;
  next_iteration_ : Z
}.

(** [parallel_for_executor(start, end, num_threads = -1, dynamic = false,
    chunk = 1)]; [global_num_threads] is the value of
    [get_global_num_threads()]. *)
Definition new_executor (global_num_threads start end_ num_threads : Z)
    (dynamic : bool) (chunk : Z) : parallel_for_executor :=
  mkExecutor start end_
    (if 0 <? num_threads then num_threads else global_num_threads) dynamic chunk start.

(** [execute(fn)]; [None] is the division by a zero thread count.  The
    threads of the dynamic branch claim their chunks from the cursor
    [next_iteration_], which a new executor has at [start_]. *)
Definition execute (e : parallel_for_executor) : option plan :=
  if end_ e <=? start_ e then Some skip
  else
    let total_work := end_ e - start_ e in
    if (total_work <? num_threads_ e * 2) || (num_threads_ e =? 1)
    then Some (in_caller (start_ e) (end_ e))
    else if dynamic_schedule_ e
    then Some (in_threads
                 (replicate (Z.to_nat (num_threads_ e))
                            (claim_loop (end_ e) (chunk_size_ e))))
    else if num_threads_ e =? 0 then None
    else
      let chunk_size := total_work `quot` num_threads_ e in
      let remainder := total_work `rem` num_threads_ e in
      Some (in_threads
              (partition_loops
                 (split_loop (Z.to_nat (num_threads_ e)) 0 (start_ e) chunk_size remainder))).

(** [diskann::parallel_for(start, end, fn, num_threads = -1,
    dynamic = false, chunk_size = 1)]: [execute] on an executor made for
    the call. *)
Definition parallel_for (global_num_threads start end_ num_threads : Z)
    (dynamic : bool) (chunk_size : Z) : option plan :=
  execute (new_executor global_num_threads start end_ num_threads dynamic chunk_size).

End ParallelFrameworkExecutor.

(** ** diskann_parallel.h: parallel_transform_reduce *)
Module DiskannTransformReduce.
Import DiskannParallel.

(** [parallel_transform_reduce(first, last, init, reduce_op, transform_op)]
    for a pool of [num_threads] workers; [data] is the range
    [first, last).  The chunks are those of [parallel_reduce]; every
    task folds the transformed elements of its chunk from [init]. *)
Definition parallel_transform_reduce {A T : Type} (num_threads : Z) (data : list A)
    (init : T) (reduce_op : T → T → T) (transform_op : A → T) : T :=
  let distance := Z.of_nat (length data) in
  if (distance >? 1000) && (num_threads >? 1) then
    let chunk_size := distance `quot` num_threads in
    let futures :=
      map (foldl (λ result x, reduce_op result (transform_op x)) init)
          (reduce_chunks (Z.to_nat num_threads) 0 num_threads (Z.to_nat chunk_size) data) in
    foldl reduce_op init futures
  else foldl (λ result x, reduce_op result (transform_op x)) init data.

End DiskannTransformReduce.

(** ** parallel_framework.h: the macros *)
Module ParallelFrameworkMacros.
Import ParallelFramework.

(** [DISKANN_BARRIER]: a barrier object of its own is declared where the
    macro stands, for [get_global_num_threads()] participants, and the
    thread that runs the statement waits on it:
<<
    diskann::parallel::barrier _barrier(diskann::parallel::get_global_num_threads());
    _barrier.wait();
>> *)
Definition DISKANN_BARRIER (global_num_threads : Z) : barrier * arrival :=
  wait (new_barrier global_num_threads).

End ParallelFrameworkMacros.

(** ** parallel_utils.h: parallel_for for [IndexType = size_t] *)
Module ParallelUtilsSizeT.
Import DiskannParallel Threads ParallelUtilsLoops.

(** The splitting loop with the sums of [size_t]: they wrap around at
    2^64.  [t < remainder] compares the non-negative [int] with the
    [size_t] after conversion. *)
Fixpoint split_loop (todo : nat) (t current_start chunk_size remainder : Z)
  : list (Z * Z) :=
  match todo with
  | O => []
  | S todo' =>
      let current_end := to_size_t (current_start + chunk_size) in
      let current_end :=
        if t <? remainder then to_size_t (current_end + 1) else current_end in
      (current_start, current_end)
        :: split_loop todo' (t + 1) current_end chunk_size remainder
  end.

(** [parallel_for<size_t>(start, end, fn, num_threads)]: the difference
    [end - start] wraps around, [total_work <= 0] holds for 0 only, and
    the [int] thread count is converted to [size_t] where it meets
    [total_work]. *)
Definition parallel_for (hardware_concurrency start end_ num_threads : Z) : plan :=
  let num_threads := thread_count hardware_concurrency num_threads in
  let total_work := to_size_t (end_ - start) in
  if total_work <=? 0 then skip
  else if (total_work <? to_size_t num_threads) || (num_threads =? 1)
  then in_caller start end_
  else
    let chunk_size := total_work `quot` to_size_t num_threads in
    let remainder := total_work `rem` to_size_t num_threads in
    in_threads
      (partition_loops (split_loop (Z.to_nat num_threads) 0 start chunk_size remainder)).

End ParallelUtilsSizeT.

(** ** parallel_framework.h: the worker loop and [wait_all] *)
Module ParallelFrameworkPool.

(** A worker thread: blocked in or about to enter [condition.wait],
    inside [task()], between [task()] and [active_threads--], or
    returned from its loop. *)
Inductive worker (Task : Type) :=
  | Idle
  | Busy (task : Task)
  | Leaving
  | Gone.
Arguments Idle {Task}.
Arguments Busy {Task} _.
Arguments Leaving {Task}.
Arguments Gone {Task}.

(** The thread inside [wait_all], at the program points of
<<
    while(active_threads > 0 || !tasks.empty()) std::this_thread::yield();
>>
    about to load [active_threads], about to look at the queue, or
    returned. *)
Inductive waiter :=
  | AtActiveThreads
  | AtQueue
  | Returned.

Record ThreadPool (Task : Type) := mkThreadPool {
  workers : list (worker Task);
  tasks : list Task;
  stop : bool;
  active_threads : Z;
  in_wait_all : waiter
}.
Arguments mkThreadPool {Task} _ _ _ _ _.
Arguments workers {Task} _.
Arguments tasks {Task} _.
Arguments stop {Task} _.
Arguments active_threads {Task} _.
Arguments in_wait_all {Task} _.

Section Steps.
Context {Task : Type}.

(** One atomic action of a client, of a worker or of the thread in
    [wait_all]:
    - [pool_enqueue]: [enqueue(f)] on a pool that is not stopped;
    - [pool_pop]: under the lock, the worker takes the front task and
      increments [active_threads];
    - [pool_exit]: woken with [stop] set and the queue empty;
    - [pool_run]: [task()] returns;
    - [pool_decrement]: [active_threads--];
    - [wait_busy], [wait_idle]: the load of [active_threads];
    - [wait_queued], [wait_empty]: the look at the queue, made without
      the lock. *)
Inductive pool_step (p : ThreadPool Task) : ThreadPool Task → Prop :=
  | pool_enqueue f :
      stop p = false →
      pool_step p (mkThreadPool (workers p) (tasks p ++ [f]) (stop p)
                                (active_threads p) (in_wait_all p))
  | pool_pop i f q :
      workers p !! i = Some Idle →
      tasks p = f :: q →
      pool_step p (mkThreadPool (<[i := Busy f]> (workers p)) q (stop p)
                                (wrap_int (active_threads p + 1)) (in_wait_all p))
  | pool_exit i :
      workers p !! i = Some Idle →
      stop p = true → tasks p = [] →
      pool_step p (mkThreadPool (<[i := Gone]> (workers p)) (tasks p) (stop p)
                                (active_threads p) (in_wait_all p))
  | pool_run i f :
      workers p !! i = Some (Busy f) →
      pool_step p (mkThreadPool (<[i := Leaving]> (workers p)) (tasks p) (stop p)
                                (active_threads p) (in_wait_all p))
  | pool_decrement i :
      workers p !! i = Some Leaving →
      pool_step p (mkThreadPool (<[i := Idle]> (workers p)) (tasks p) (stop p)
                                (wrap_int (active_threads p - 1)) (in_wait_all p))
  | wait_busy :
      in_wait_all p = AtActiveThreads → 0 < active_threads p →
      pool_step p (mkThreadPool (workers p) (tasks p) (stop p) (active_threads p)
                                AtActiveThreads)
  | wait_idle :
      in_wait_all p = AtActiveThreads → active_threads p ≤ 0 →
      pool_step p (mkThreadPool (workers p) (tasks p) (stop p) (active_threads p) AtQueue)
  | wait_queued :
      in_wait_all p = AtQueue → tasks p ≠ [] →
      pool_step p (mkThreadPool (workers p) (tasks p) (stop p) (active_threads p)
                                AtActiveThreads)
  | wait_empty :
      in_wait_all p = AtQueue → tasks p = [] →
      pool_step p (mkThreadPool (workers p) (tasks p) (stop p) (active_threads p) Returned).

End Steps.

End ParallelFrameworkPool.

(** ** parallel_framework.h: parallel_sections *)
Module ParallelSections.
Import DiskannParallel.

(** The future of a section started with [std::async]: its thread is
    inside the section at the program point [k], the section has
    returned, or it has thrown. *)
Inductive section_future (Task Exn : Type) :=
  | Unfinished (k : Task)
  | Returned
  | Thrown (e : Exn).
Arguments Unfinished {Task Exn} _.
Arguments Returned {Task Exn}.
Arguments Thrown {Task Exn} _.

(** [execute()] under way: the futures in the order of the sections and
    the memory the sections act on. *)
Record execution (Task Exn Mem : Type) := mkExecution {
  futures : list (section_future Task Exn);
  state : Mem
}.
Arguments mkExecution {Task Exn Mem} _ _.
Arguments futures {Task Exn Mem} _.
Arguments state {Task Exn Mem} _.

Section Sections.
Context {Task Exn Mem : Type}.

(** One atomic action of a section's body: it goes on, returns or
    throws.  The threads of the sections interleave their actions. *)
Variable exec : Task → Mem → Mem * outcome Task Exn.

(** [add_section(fn)] *)
Definition add_section (fn : Task) (sections : list Task) : list Task :=
  sections ++ [fn].

(** The first loop of [execute()]: one [std::async] thread per section,
    each at the entry of its section. *)
Definition start_sections (sections : list Task) (u : Mem) : execution Task Exn Mem :=
  mkExecution (map Unfinished sections) u.

(** Where the thread of a section is after an action with outcome [o]:
    an exception ends up in the shared state of the future. *)
Definition after (o : outcome Task Exn) : section_future Task Exn :=
  match o with
  | Continue k => Unfinished k
  | Return => Returned
  | Throw e => Thrown e
  end.

Inductive section_step (x : execution Task Exn Mem) : execution Task Exn Mem → Prop :=
  | section_acts i k :
      futures x !! i = Some (Unfinished k) →
      section_step x
        (mkExecution (<[i := after (exec k (state x)).2]> (futures x))
                     (exec k (state x)).1).

(** The second loop of [execute()]: [future.wait()] has returned for
    every section; [wait] does not look at what the shared state
    holds. *)
Definition all_waited (x : execution Task Exn Mem) : Prop :=
  Forall (λ f, ∀ k, f ≠ Unfinished k) (futures x).

(** A section run on its own, for at most [fuel] actions. *)
Fixpoint run_section (fuel : nat) (k : Task) (m : Mem) : section_future Task Exn * Mem :=
  match fuel with
  | O => (Unfinished k, m)
  | S fuel' =>
      match exec k m with
      | (m', Continue k') => run_section fuel' k' m'
      | (m', o) => (after o, m')
      end
  end.

(** The sections run one after the other, in the order in which they
    were added; [tm] bounds the actions of a section. *)
Fixpoint one_after_the_other (tm : Task → nat) (sections : list Task) (m : Mem)
  : list (section_future Task Exn) * Mem :=
  match sections with
  | [] => ([], m)
  | k :: rest =>
      let '(f, m1) := run_section (S (tm k)) k m in
      let '(fs, m2) := one_after_the_other tm rest m1 in
      (f :: fs, m2)
  end.

(** The actions of the sections are independent: two of them give the
    same memory in either order, and the outcome of one does not depend
    on whether the other came first. *)
Definition independent : Prop :=
  ∀ k1 k2 m,
    (exec k2 (exec k1 m).1).1 = (exec k1 (exec k2 m).1).1
    ∧ (exec k1 (exec k2 m).1).2 = (exec k1 m).2.

End Sections.

(** A section that adds [k], [k - 1], ..., [1] to a counter and then
    returns, or throws if it is marked to fail. *)
Definition add_down (k : nat * bool) (m : Z) : Z * outcome (nat * bool) string :=
  match k with
  | (O, false) => (m, Return)
  | (O, true) => (m, Throw "boom")
  | (S k', fails) => (m + Z.of_nat (S k'), Continue (k', fails))
  end.

End ParallelSections.

(** ** parallel_framework.h: the global thread count *)
Module ParallelFrameworkGlobals.

(** [diskann::set_num_threads(uint32_t)]: the value is stored in the
    [std::atomic<int>] of [get_global_num_threads()]. *)
Definition set_num_threads (num_threads : Z) : Z := wrap_int num_threads.

(** [diskann::get_num_threads()]: the [int] is returned as [uint32_t]. *)
Definition get_num_threads (global_num_threads : Z) : Z := wrap_uint global_num_threads.

End ParallelFrameworkGlobals.

(** * Properties *)

(** ** Machine integers *)

Lemma wrap_int_small x : INT_MIN ≤ x ≤ INT_MAX → wrap_int x = x.
Proof.
  unfold INT_MIN, INT_MAX, wrap_int. intros H.
  rewrite Z.mod_small; lia.
Qed.

(** ** single_executor, barrier, reduction_variable *)

Section SingleExecutorFacts.
Import ParallelFramework.
Context {St : Type}.

Lemma execute_skipped (fn : St → St) (s : St) : execute fn (true, s) = (true, s).
Proof. reflexivity. Qed.

Lemma phase_skipped (fns : list (St → St)) (s : St) :
  phase fns (true, s) = (true, s).
Proof. induction fns as [|f fns IH]; simpl; auto. Qed.

(** C9.  [execute] runs the supplied function once per phase: from a
    cleared flag the first caller sets the flag and runs its function,
    every caller that finds the flag set runs nothing, so after any
    number of calls only the first function has run; [reset] clears the
    flag, and the next phase again runs its first function and no
    other. *)
Theorem single_executor_once_per_phase
    (fn : St → St) (later : list (St → St))
    (again : St → St) (later' : list (St → St)) (s : St) :
  let st1 := phase (fn :: later) (false, s) in
  execute fn (false, s) = (true, fn s)
  ∧ (∀ (g : St → St) (s' : St), execute g (true, s') = (true, s'))
  ∧ st1 = (true, fn s)
  ∧ reset st1 = (false, fn s)
  ∧ phase (again :: later') (reset st1) = (true, again (fn s)).
Proof.
  assert (H1 : phase (fn :: later) (false, s) = (true, fn s)).
  { unfold phase. cbn [foldl execute]. apply phase_skipped. }
  cbv zeta. rewrite H1. repeat split.
  unfold phase, reset. cbn [foldl execute snd]. apply phase_skipped.
Qed.
End SingleExecutorFacts.

Section BarrierFacts.
Import ParallelFramework.

Lemma arrivals_sleep (n g : Z) (k : nat) (c : Z) :
  INT_MIN ≤ c - Z.of_nat k → c ≤ INT_MAX → Z.of_nat k < c →
  arrivals k (mkBarrier c g n) = (mkBarrier (c - Z.of_nat k) g n, replicate k (sleeps g)).
Proof.
  revert c. induction k as [|k IH]; intros c H1 H2 H3.
  - simpl. f_equal. f_equal. lia.
  - cbn [arrivals]. unfold wait. cbn [count generation total].
    rewrite wrap_int_small by (unfold INT_MIN, INT_MAX in *; lia).
    destruct (Z.eqb_spec (c - 1) 0) as [?|Hne]; [lia|].
    rewrite IH by lia. simpl. do 2 f_equal. lia.
Qed.

Lemma arrivals_app (j k : nat) (b : barrier) :
  arrivals (j + k) b =
    let '(b1, l1) := arrivals j b in
    let '(b2, l2) := arrivals k b1 in (b2, l1 ++ l2).
Proof.
  revert b. induction j as [|j IH]; intros b; simpl.
  - destruct (arrivals k b); reflexivity.
  - destruct (wait b) as [b1 a]. rewrite IH.
    destruct (arrivals j b1) as [b2 l2]. destruct (arrivals k b2). reflexivity.
Qed.

(** C8.  A barrier for [n] participants at rest in generation [g]: each
    of the first [n - 1] calls of [wait] takes one off the counter and
    sleeps on the generation [g] it read, and cannot wake while the
    generation is [g]; the call that brings the counter to zero moves
    the generation to [g + 1], puts the counter back to [n] and passes;
    every sleeper's predicate then holds.  The barrier is left at rest in
    generation [g + 1], ready for the next round of [n]. *)
Theorem barrier_round_reusable (n g : Z) :
  1 ≤ n ≤ INT_MAX → INT_MIN ≤ g < INT_MAX →
  let b := mkBarrier n g n in
  (∀ k : nat, Z.of_nat k < n →
     arrivals k b = (mkBarrier (n - Z.of_nat k) g n, replicate k (sleeps g))
     ∧ wakes (mkBarrier (n - Z.of_nat k) g n) g = false)
  ∧ wait (mkBarrier 1 g n) = (mkBarrier n (g + 1) n, passes)
  ∧ arrivals (Z.to_nat n) b =
      (mkBarrier n (g + 1) n, replicate (Z.to_nat n - 1) (sleeps g) ++ [passes])
  ∧ wakes (mkBarrier n (g + 1) n) g = true
  ∧ new_barrier n = mkBarrier n 0 n.
Proof.
  intros Hn Hg b.
  assert (Hlast : wait (mkBarrier 1 g n) = (mkBarrier n (g + 1) n, passes)).
  { unfold wait. cbn [count generation total].
    rewrite (wrap_int_small (g + 1)) by (unfold INT_MIN, INT_MAX in *; lia).
    reflexivity. }
  split; [|split; [exact Hlast|split; [|split]]].
  - intros k Hk. split.
    + apply arrivals_sleep; unfold INT_MIN, INT_MAX in *; lia.
    + unfold wakes. cbn [generation]. apply Z.ltb_irrefl.
  - replace (Z.to_nat n) with ((Z.to_nat n - 1) + 1)%nat at 1 by lia.
    rewrite arrivals_app. unfold b.
    rewrite arrivals_sleep by (unfold INT_MIN, INT_MAX in *; lia).
    replace (n - Z.of_nat (Z.to_nat n - 1)) with 1 by lia.
    cbn [arrivals]. rewrite Hlast. reflexivity.
  - unfold wakes. cbn [generation]. apply Z.ltb_lt. lia.
  - reflexivity.
Qed.

Lemma barrier_round_reusable_witness :
  ParallelFramework.arrivals 3 (ParallelFramework.new_barrier 3)
  = (mkBarrier 3 1 3, [sleeps 0; sleeps 0; passes]).
Proof.
  pose proof (barrier_round_reusable 3 0) as H.
  destruct H as (_ & _ & H & _).
  - unfold INT_MAX. lia.
  - unfold INT_MIN, INT_MAX. lia.
  - exact H.
Defined.
End BarrierFacts.

Section ReductionVariableFacts.
Import ParallelFramework.




End ReductionVariableFacts.

(** ** Partitions and folds *)

Section SplitFacts.

Lemma split_loop_ranges (todo : nat) (t cs c r : Z) :
  0 ≤ c →
  ranges (split_loop todo t cs c r)
  = seqZ cs (Z.of_nat todo * c + Z.max 0 (Z.min (Z.of_nat todo) (r - t))).
Proof.
  intros Hc. revert t cs. induction todo as [|todo IH]; intros t cs.
  - simpl. rewrite seqZ_nil; [reflexivity|lia].
  - cbn [split_loop]. unfold ranges in *. cbn [map concat fst snd].
    rewrite IH. rewrite Nat2Z.inj_succ. unfold Z.succ.
    destruct (Z.ltb_spec t r) as [Hlt|Hge].
    + replace ((Z.of_nat todo + 1) * c + Z.max 0 (Z.min (Z.of_nat todo + 1) (r - t)))
        with ((c + 1) + (Z.of_nat todo * c + Z.max 0 (Z.min (Z.of_nat todo) (r - (t + 1)))))
        by lia.
      rewrite (seqZ_app cs (c + 1)) by lia.
      replace (cs + c + 1 - cs) with (c + 1) by lia.
      replace (cs + (c + 1)) with (cs + c + 1) by lia. reflexivity.
    + replace ((Z.of_nat todo + 1) * c + Z.max 0 (Z.min (Z.of_nat todo + 1) (r - t)))
        with (c + (Z.of_nat todo * c + Z.max 0 (Z.min (Z.of_nat todo) (r - (t + 1)))))
        by lia.
      rewrite (seqZ_app cs c) by lia.
      replace (cs + c - cs) with c by lia. reflexivity.
Qed.

Lemma split_loop_covers (start end_ n : Z) :
  0 < n → n ≤ end_ - start →
  ranges (split_loop (Z.to_nat n) 0 start ((end_ - start) `quot` n) ((end_ - start) `rem` n))
  = seqZ start (end_ - start).
Proof.
  intros Hn Hw.
  pose proof (Z.quot_rem' (end_ - start) n) as Hqr.
  pose proof (Z.rem_bound_pos (end_ - start) n ltac:(lia) ltac:(lia)) as Hr.
  pose proof (Z.quot_pos (end_ - start) n ltac:(lia) ltac:(lia)) as Hq.
  rewrite split_loop_ranges by lia. f_equal.
  rewrite Z2Nat.id by lia. lia.
Qed.

Lemma split_loop_length todo t cs c r : length (split_loop todo t cs c r) = todo.
Proof. revert t cs. induction todo; intros; simpl; auto. Qed.

End SplitFacts.

Section MonoidFolds.
Context {T : Type} (op : T → T → T) (e : T).
Hypothesis op_assoc : ∀ a b c, op (op a b) c = op a (op b c).
Hypothesis op_right_id : ∀ a, op a e = a.

Lemma foldl_op_shift {A : Type} (tr : A → T) (a b : T) (l : list A) :
  foldl (λ r i, op r (tr i)) (op a b) l = op a (foldl (λ r i, op r (tr i)) b l).
Proof.
  revert b. induction l as [|x l IH]; intros b; simpl; [reflexivity|].
  rewrite op_assoc. apply IH.
Qed.

Lemma foldl_partials {A : Type} (tr : A → T) (acc : T) (ls : list (list A)) :
  foldl op acc (map (foldl (λ r i, op r (tr i)) e) ls)
  = foldl (λ r i, op r (tr i)) acc (concat ls).
Proof.
  revert acc. induction ls as [|l ls IH]; intros acc; simpl; [reflexivity|].
  rewrite IH, foldl_app. f_equal.
  rewrite <- foldl_op_shift, op_right_id. reflexivity.
Qed.

Lemma foldl_partials_plain (acc : T) (ls : list (list T)) :
  foldl op acc (map (foldl op e) ls) = foldl op acc (concat ls).
Proof. exact (foldl_partials (λ x, x) acc ls). Qed.

Lemma in_order_fold_ranges (tr : Z → T) (parts : list (Z * Z)) :
  in_order_fold e op tr parts = foldl (λ r i, op r (tr i)) e (ranges parts).
Proof.
  unfold in_order_fold, ranges, fold_range.
  rewrite <- foldl_partials. rewrite map_map. reflexivity.
Qed.

End MonoidFolds.

Section ReduceChunks.
Context {A : Type}.

Lemma reduce_chunks_concat (todo : nat) (t n : Z) (cs : nat) (it : list A) :
  (0 < todo)%nat → t + Z.of_nat todo = n →
  concat (DiskannParallel.reduce_chunks todo t n cs it) = it.
Proof.
  revert t it. induction todo as [|todo IH]; intros t it Hpos Ht; [lia|].
  cbn [DiskannParallel.reduce_chunks].
  destruct (Z.eqb_spec t (n - 1)) as [He|Hne].
  - assert (todo = 0%nat) by lia. subst todo. simpl. apply app_nil_r.
  - cbn [concat]. rewrite IH by lia. apply take_drop.
Qed.

End ReduceChunks.

Section SumFacts.

Lemma sum_seqZ_0 (n : nat) :
  2 * foldl (λ r i, r + i) 0 (seqZ 0 (Z.of_nat n)) = Z.of_nat n * (Z.of_nat n - 1).
Proof.
  induction n as [|n IH]; [reflexivity|].
  replace (Z.of_nat (S n)) with (Z.of_nat n + 1) by lia.
  rewrite seqZ_app by lia. rewrite foldl_app.
  rewrite (seqZ_cons _ 1) by lia. rewrite (seqZ_nil _ (Z.pred 1)) by lia. cbn [foldl]. lia.
Qed.

Lemma sum_range (N : Z) :
  0 ≤ N → fold_range Z.add (λ i, i) 0 0 N = N * (N - 1) / 2.
Proof.
  intros HN. unfold fold_range. rewrite Z.sub_0_r.
  pose proof (sum_seqZ_0 (Z.to_nat N)) as H. rewrite Z2Nat.id in H by lia.
  apply Z.div_unique_exact; lia.
Qed.

End SumFacts.

Section FrameworkSlots.
Import ParallelFramework.
Context {T : Type} (identity : T) (reduce_op : T → T → T) (transform_op : Z → T).
Variable num_threads : Z.
Hypothesis num_threads_pos : 0 < num_threads.

Definition slot_of (id : Z) : nat := Z.to_nat (id `rem` num_threads).

Lemma slot_of_lt (id : Z) : 0 ≤ id → (slot_of id < Z.to_nat num_threads)%nat.
Proof.
  intros Hid. unfold slot_of.
  pose proof (Z.rem_bound_pos id num_threads Hid num_threads_pos). lia.
Qed.

Lemma accumulate_fold (id : Z) (v : list T) (x : T) (l : list Z) :
  v !! slot_of id = Some x →
  foldl (accumulate_into identity reduce_op transform_op num_threads id) v l
  = <[slot_of id := foldl (λ r i, reduce_op r (transform_op i)) x l]> v.
Proof.
  revert v x. induction l as [|i l IH]; intros v x Hx; cbn [foldl].
  - symmetry. apply list_insert_id. exact Hx.
  - unfold accumulate_into at 2. fold (slot_of id). rewrite Hx. cbn [default].
    erewrite IH.
    + apply list_insert_insert_eq.
    + apply list_lookup_insert_eq. eapply lookup_lt_Some. exact Hx.
Qed.

Lemma run_partition_insert (id lo hi : Z) (v : list T) (x : T) :
  v !! slot_of id = Some x →
  run_partition identity reduce_op transform_op num_threads v (id, (lo, hi))
  = <[slot_of id := fold_range reduce_op transform_op x lo hi]> v.
Proof. intros Hx. unfold run_partition, fold_range. apply accumulate_fold. exact Hx. Qed.

Lemma run_partition_length (p : Z * (Z * Z)) (v : list T) :
  0 ≤ p.1 → length v = Z.to_nat num_threads →
  length (run_partition identity reduce_op transform_op num_threads v p) = length v.
Proof.
  destruct p as [id [lo hi]]. intros Hid Hlen.
  destruct (lookup_lt_is_Some_2 v (slot_of id)) as [x Hx].
  { rewrite Hlen. apply slot_of_lt. exact Hid. }
  rewrite (run_partition_insert _ _ _ _ x Hx). apply length_insert.
Qed.

Lemma run_partitions_length (l : list (Z * (Z * Z))) (v : list T) :
  Forall (λ p, 0 ≤ p.1) l → length v = Z.to_nat num_threads →
  length (foldl (run_partition identity reduce_op transform_op num_threads) v l)
  = length v.
Proof.
  revert v. induction l as [|p l IH]; intros v Hl Hlen; [reflexivity|].
  inversion Hl as [|? ? Hp Hl']; subst. cbn [foldl].
  rewrite IH; [apply run_partition_length; assumption|assumption|].
  rewrite run_partition_length; assumption.
Qed.

Lemma run_partitions_other (l : list (Z * (Z * Z))) (v : list T) (j : nat) :
  Forall (λ p, 0 ≤ p.1) l → length v = Z.to_nat num_threads →
  j ∉ map (λ p, slot_of p.1) l →
  foldl (run_partition identity reduce_op transform_op num_threads) v l !! j = v !! j.
Proof.
  revert v. induction l as [|[id [lo hi]] l IH]; intros v Hl Hlen Hj; [reflexivity|].
  inversion Hl as [|? ? Hp Hl']; subst. cbn [foldl].
  cbn [map fst] in Hj. apply not_elem_of_cons in Hj as [Hne Hj].
  rewrite IH; [|assumption|rewrite run_partition_length; assumption|assumption].
  destruct (lookup_lt_is_Some_2 v (slot_of id)) as [x Hx].
  { rewrite Hlen. apply slot_of_lt. exact Hp. }
  rewrite (run_partition_insert _ _ _ _ x Hx).
  apply list_lookup_insert_ne. congruence.
Qed.

Lemma run_partitions_slot (l : list (Z * (Z * Z))) (v : list T) (id lo hi : Z) (x : T) :
  Forall (λ p, 0 ≤ p.1) l → length v = Z.to_nat num_threads →
  NoDup (map (λ p, slot_of p.1) l) →
  (id, (lo, hi)) ∈ l →
  v !! slot_of id = Some x →
  foldl (run_partition identity reduce_op transform_op num_threads) v l !! slot_of id
  = Some (fold_range reduce_op transform_op x lo hi).
Proof.
  revert v. induction l as [|[id' [lo' hi']] l IH]; intros v Hl Hlen Hnd Hin Hx.
  - inversion Hin.
  - inversion Hl as [|? ? Hp Hl']; subst. cbn [foldl].
    cbn [map fst] in Hnd. apply NoDup_cons in Hnd as [Hnotin Hnd].
    destruct (lookup_lt_is_Some_2 v (slot_of id')) as [x' Hx'].
    { rewrite Hlen. apply slot_of_lt. exact Hp. }
    apply elem_of_cons in Hin as [Heq|Hin].
    + inversion Heq; subst id' lo' hi'.
      rewrite run_partitions_other;
        [|assumption|rewrite run_partition_length; assumption|assumption].
      rewrite (run_partition_insert _ _ _ _ x Hx).
      apply list_lookup_insert_eq. eapply lookup_lt_Some. exact Hx.
    + apply IH; [assumption|rewrite run_partition_length; assumption|assumption|assumption|].
      rewrite (run_partition_insert _ _ _ _ x' Hx').
      rewrite list_lookup_insert_ne; [exact Hx|].
      intros Heq. apply Hnotin. rewrite Heq.
      apply (list_elem_of_fmap_2 (λ p : Z * (Z * Z), slot_of p.1) l (id, (lo, hi))). exact Hin.
Qed.

End FrameworkSlots.

Section FrameworkSum.
Import ParallelFramework.
Variable num_threads : Z.
Hypothesis num_threads_pos : 0 < num_threads.

Lemma foldl_add_shift (a : Z) (l : list Z) :
  foldl Z.add a l = a + foldl Z.add 0 l.
Proof.
  revert a. induction l as [|x l IH]; intros a; cbn [foldl]; [lia|].
  rewrite (IH (a + x)), (IH (0 + x)). lia.
Qed.

Lemma sum_insert (l : list Z) (j : nat) (x y : Z) :
  l !! j = Some x →
  foldl Z.add 0 (<[j := y]> l) = foldl Z.add 0 l - x + y.
Proof.
  intros Hx. rewrite insert_take_drop by (eapply lookup_lt_Some; exact Hx).
  rewrite <- (take_drop_middle l j x Hx) at 3.
  rewrite !foldl_app. cbn [foldl].
  rewrite (foldl_add_shift (_ + y)), (foldl_add_shift (_ + x)). lia.
Qed.

Lemma foldl_add_transform_shift (transform_op : Z → Z) (a : Z) (l : list Z) :
  foldl (λ r i, r + transform_op i) a l = a + foldl (λ r i, r + transform_op i) 0 l.
Proof.
  revert a. induction l as [|x l IH]; intros a; cbn [foldl]; [lia|].
  rewrite (IH (a + _)), (IH (0 + _)). lia.
Qed.

Lemma run_partition_sum (transform_op : Z → Z) (p : Z * (Z * Z)) (v : list Z) :
  0 ≤ p.1 → length v = Z.to_nat num_threads →
  foldl Z.add 0 (run_partition 0 Z.add transform_op num_threads v p)
  = foldl Z.add 0 v + fold_range Z.add transform_op 0 p.2.1 p.2.2.
Proof.
  destruct p as [id [lo hi]]. intros Hid Hlen. cbn [fst snd] in *.
  destruct (lookup_lt_is_Some_2 v (slot_of num_threads id)) as [x Hx].
  { rewrite Hlen. apply slot_of_lt; assumption. }
  rewrite (run_partition_insert 0 Z.add transform_op num_threads id lo hi v x Hx).
  rewrite (sum_insert _ _ x) by exact Hx.
  unfold fold_range. rewrite (foldl_add_transform_shift _ x). lia.
Qed.

Lemma run_partitions_sum (transform_op : Z → Z) (l : list (Z * (Z * Z))) (v : list Z) :
  Forall (λ p, 0 ≤ p.1) l → length v = Z.to_nat num_threads →
  foldl Z.add 0 (foldl (run_partition 0 Z.add transform_op num_threads) v l)
  = foldl Z.add 0 v
    + foldl (λ r i, r + transform_op i) 0 (ranges (map snd l)).
Proof.
  revert v. induction l as [|p l IH]; intros v Hl Hlen.
  - cbn. lia.
  - inversion Hl as [|? ? Hp Hl']; subst. cbn [foldl map].
    rewrite IH; [|assumption|rewrite run_partition_length; assumption].
    rewrite run_partition_sum by assumption.
    unfold ranges. cbn [map concat]. rewrite foldl_app.
    rewrite (foldl_add_transform_shift _ (foldl _ 0 (seqZ _ _))).
    unfold fold_range. lia.
Qed.

Lemma sum_replicate_0 (n : nat) : foldl Z.add 0 (replicate n 0) = 0.
Proof. induction n as [|n IH]; [reflexivity|]. cbn [replicate foldl]. exact IH. Qed.

End FrameworkSum.

Section FrameworkReduceSum.
Import ParallelFramework.

Lemma framework_sum (global_num_threads caller_id : Z) (ids : list Z)
    (N num_threads : Z) :
  let n := if num_threads <=? 0 then global_num_threads else num_threads in
  0 ≤ N → 0 < n → 0 ≤ caller_id → Forall (λ id, 0 ≤ id) ids →
  length ids = Z.to_nat n →
  parallel_reduce global_num_threads caller_id ids 0 N 0 (λ i, i) Z.add num_threads
  = Some (N * (N - 1) / 2).
Proof.
  intros n HN Hn Hc Hids Hlen. unfold parallel_reduce. fold n.
  rewrite Z.sub_0_r.
  destruct (Z.leb_spec N 0) as [H0|Hpos].
  { assert (N = 0) by lia. subst N. reflexivity. }
  destruct (Z.ltb_spec 0 n) as [_|?]; [|lia].
  unfold execute_static.
  destruct (Z.leb_spec N 0) as [?|_]; [lia|]. rewrite Z.sub_0_r.
  rewrite <- (sum_range N) by lia.
  destruct ((N <? n * 2) || (n =? 1)) eqn:Hseq.
  - f_equal. rewrite (run_partition_sum n Hn (λ i, i) (caller_id, (0, N))).
    + rewrite sum_replicate_0. cbn [fst snd]. lia.
    + exact Hc.
    + apply length_replicate.
  - apply orb_false_iff in Hseq as [Hlt Hne1].
    apply Z.ltb_ge in Hlt. apply Z.eqb_neq in Hne1.
    destruct (Z.eqb_spec n 0) as [?|_]; [lia|].
    f_equal. rewrite (run_partitions_sum n Hn).
    + rewrite sum_replicate_0, snd_zip.
      * pose proof (split_loop_covers 0 N n ltac:(lia) ltac:(lia)) as Hcov.
        rewrite !Z.sub_0_r in Hcov. rewrite Hcov.
        unfold fold_range. rewrite !Z.sub_0_r. lia.
      * rewrite split_loop_length. lia.
    + apply Forall_forall. intros [id part] Hin.
      apply elem_of_zip_l in Hin. cbn [fst].
      eapply Forall_forall in Hids; eauto.
    + apply length_replicate.
Qed.

End FrameworkReduceSum.

Section UtilsReduce.
Context {T : Type} (identity : T) (reduce_op : T → T → T) (transform_op : Z → T).

Lemma utils_threads_pos (hw num_threads : Z) :
  0 < (if num_threads <=? 0 then ParallelUtils.get_num_threads hw else num_threads).
Proof.
  unfold ParallelUtils.get_num_threads.
  destruct (Z.leb_spec num_threads 0); [|lia].
  destruct (Z.ltb_spec 0 hw); lia.
Qed.

Lemma utils_reduce_parallel (hw start end_ num_threads : Z) :
  let n := if num_threads <=? 0 then ParallelUtils.get_num_threads hw else num_threads in
  let parts :=
    split_loop (Z.to_nat n) 0 start ((end_ - start) `quot` n) ((end_ - start) `rem` n) in
  n ≤ end_ - start → n ≠ 1 →
  ranges parts = seqZ start (end_ - start)
  ∧ ParallelUtils.parallel_reduce hw start end_ identity reduce_op transform_op num_threads
    = in_order_fold identity reduce_op transform_op parts.
Proof.
  intros n parts Hle Hne.
  pose proof (utils_threads_pos hw num_threads) as Hpos. fold n in Hpos.
  split; [apply split_loop_covers; lia|].
  unfold ParallelUtils.parallel_reduce. fold n.
  destruct (Z.leb_spec (end_ - start) 0); [lia|].
  destruct (Z.ltb_spec (end_ - start) n); [lia|].
  destruct (Z.eqb_spec n 1); [lia|]. reflexivity.
Qed.

Lemma utils_reduce_sequential (hw start end_ num_threads : Z) :
  let n := if num_threads <=? 0 then ParallelUtils.get_num_threads hw else num_threads in
  end_ - start < n ∨ n = 1 →
  ParallelUtils.parallel_reduce hw start end_ identity reduce_op transform_op num_threads
  = fold_range reduce_op transform_op identity start end_.
Proof.
  intros n Hseq. unfold ParallelUtils.parallel_reduce. fold n.
  destruct (Z.leb_spec (end_ - start) 0).
  { unfold fold_range. rewrite seqZ_nil by lia. reflexivity. }
  destruct (Z.ltb_spec (end_ - start) n); [reflexivity|].
  destruct (Z.eqb_spec n 1); [reflexivity|lia].
Qed.

Hypothesis reduce_op_assoc : ∀ a b c, reduce_op (reduce_op a b) c = reduce_op a (reduce_op b c).
Hypothesis reduce_op_identity : ∀ a, reduce_op a identity = a.

Lemma utils_reduce_monoid (hw start end_ num_threads : Z) :
  ParallelUtils.parallel_reduce hw start end_ identity reduce_op transform_op num_threads
  = fold_range reduce_op transform_op identity start end_.
Proof.
  set (n := if num_threads <=? 0 then ParallelUtils.get_num_threads hw else num_threads).
  destruct (Z_lt_le_dec (end_ - start) n) as [Hlt|Hle].
  { apply utils_reduce_sequential. left. exact Hlt. }
  destruct (Z.eq_dec n 1) as [H1|Hne].
  { apply utils_reduce_sequential. right. exact H1. }
  destruct (utils_reduce_parallel hw start end_ num_threads Hle Hne) as [Hcov ->].
  rewrite (in_order_fold_ranges reduce_op identity reduce_op_assoc reduce_op_identity).
  rewrite Hcov. reflexivity.
Qed.

End UtilsReduce.

Section DiskannReduce.
Context {T : Type} (init : T) (op : T → T → T).

Lemma diskann_reduce_parallel (num_threads : Z) (data : list T) :
  let chunks :=
    DiskannParallel.reduce_chunks (Z.to_nat num_threads) 0 num_threads
      (Z.to_nat (Z.of_nat (length data) `quot` num_threads)) data in
  1000 < Z.of_nat (length data) → 1 < num_threads →
  concat chunks = data
  ∧ DiskannParallel.parallel_reduce num_threads data init op
    = foldl op init (map (foldl op init) chunks).
Proof.
  intros chunks Hd Hn. split.
  - apply reduce_chunks_concat; lia.
  - unfold DiskannParallel.parallel_reduce.
    destruct (Z.gtb_spec (Z.of_nat (length data)) 1000); [|lia].
    destruct (Z.gtb_spec num_threads 1); [|lia]. reflexivity.
Qed.

Hypothesis op_assoc : ∀ a b c, op (op a b) c = op a (op b c).
Hypothesis op_init : ∀ a, op a init = a.

Lemma diskann_reduce_monoid (num_threads : Z) (data : list T) :
  DiskannParallel.parallel_reduce num_threads data init op = foldl op init data.
Proof.
  destruct (Z_lt_le_dec 1000 (Z.of_nat (length data))) as [Hd|Hd].
  - destruct (Z_lt_le_dec 1 num_threads) as [Hn|Hn].
    + destruct (diskann_reduce_parallel num_threads data Hd Hn) as [Hcat ->].
      rewrite (foldl_partials_plain op init op_assoc op_init), Hcat. reflexivity.
    + unfold DiskannParallel.parallel_reduce.
      destruct (Z.gtb_spec num_threads 1); [lia|]. rewrite andb_false_r. reflexivity.
  - unfold DiskannParallel.parallel_reduce.
    destruct (Z.gtb_spec (Z.of_nat (length data)) 1000); [lia|]. reflexivity.
Qed.

End DiskannReduce.

Section FrameworkReduce.
Import ParallelFramework.
Context {T : Type} (identity : T) (reduce_op : T → T → T) (transform_op : Z → T).

Lemma framework_reduce_slots (global_num_threads caller_id : Z) (ids : list Z)
    (start end_ num_threads : Z) :
  let n := if num_threads <=? 0 then global_num_threads else num_threads in
  let parts :=
    split_loop (Z.to_nat n) 0 start ((end_ - start) `quot` n) ((end_ - start) `rem` n) in
  0 < n → n * 2 ≤ end_ - start → n ≠ 1 →
  Forall (λ id, 0 ≤ id) ids → length ids = Z.to_nat n →
  NoDup (map (λ id, Z.to_nat (id `rem` n)) ids) →
  ∃ filled : list T,
    parallel_reduce global_num_threads caller_id ids start end_ identity
                    transform_op reduce_op num_threads
    = Some (foldl reduce_op identity filled)
    ∧ length filled = Z.to_nat n
    ∧ ∀ (t : nat) (id lo hi : Z),
        ids !! t = Some id → parts !! t = Some (lo, hi) →
        filled !! Z.to_nat (id `rem` n)
        = Some (fold_range reduce_op transform_op identity lo hi).
Proof.
  intros n parts Hn Hwork Hne Hids Hlen Hnd.
  assert (Hz : Forall (λ p : Z * (Z * Z), 0 ≤ p.1) (zip ids parts)).
  { apply Forall_forall. intros [id part] Hin. apply elem_of_zip_l in Hin.
    eapply Forall_forall in Hids; eauto. }
  exists (foldl (run_partition identity reduce_op transform_op n)
                (replicate (Z.to_nat n) identity) (zip ids parts)).
  split; [|split].
  - unfold parallel_reduce. fold n.
    destruct (Z.leb_spec (end_ - start) 0); [lia|].
    destruct (Z.ltb_spec 0 n); [|lia].
    unfold execute_static.
    destruct (Z.leb_spec end_ start); [lia|].
    destruct (Z.ltb_spec (end_ - start) (n * 2)); [lia|].
    destruct (Z.eqb_spec n 1); [lia|].
    destruct (Z.eqb_spec n 0); [lia|]. reflexivity.
  - rewrite (run_partitions_length identity reduce_op transform_op n Hn);
      [apply length_replicate|exact Hz|apply length_replicate].
  - intros t id lo hi Hid Hpart.
    apply (run_partitions_slot identity reduce_op transform_op n Hn
             (zip ids parts) _ id lo hi identity).
    + exact Hz.
    + apply length_replicate.
    + assert (Hslots : map (λ p : Z * (Z * Z), slot_of n p.1) (zip ids parts)
                       = map (λ id, Z.to_nat (id `rem` n)) ids).
      { rewrite <- (fst_zip ids parts) at 2
          by (unfold parts; rewrite split_loop_length; lia).
        rewrite <- list_fmap_compose. reflexivity. }
      rewrite Hslots. exact Hnd.
    + apply list_elem_of_lookup. exists t. apply lookup_zip_with_Some.
      exists id, (lo, hi). auto.
    + apply lookup_replicate_2.
      eapply Forall_forall in Hids; [|eapply list_elem_of_lookup_2; exact Hid].
      apply slot_of_lt; assumption.
Qed.

End FrameworkReduce.

(** ** The thread pool of diskann_parallel.h *)

Import DiskannParallel.

Section EventuallyFacts.
Context {A : Type} (R : relation A) (P : A → Prop).

Lemma eventually_by_measure (Inv : A → Prop) (mu : A → nat) :
  (∀ a b, Inv a → R a b → Inv b) →
  (∀ a, Inv a → P a ∨ ∃ b, R a b) →
  (∀ a b, Inv a → R a b → (mu b < mu a)%nat) →
  ∀ a, Inv a → eventually R P a.
Proof.
  intros Hpres Hprog Hdec.
  assert (H : ∀ n a, (mu a < n)%nat → Inv a → eventually R P a).
  { induction n as [|n IH]; intros a Hlt Ha; [lia|].
    destruct (Hprog a Ha) as [HP|Hstep]; [apply ev_here; exact HP|].
    apply ev_next; [exact Hstep|].
    intros b Hab. apply IH; [|eapply Hpres; eauto].
    specialize (Hdec a b Ha Hab). lia. }
  intros a Ha. apply (H (S (mu a))); [lia|exact Ha].
Qed.

Lemma eventually_reaches (a : A) :
  eventually R P a → ∃ b, rtc R a b ∧ P b.
Proof.
  induction 1 as [a Ha|a [b Hab] _ IH].
  - exists a. split; [apply rtc_refl|exact Ha].
  - destruct (IH b Hab) as (c & Hbc & Hc).
    exists c. split; [eapply rtc_l; eauto|exact Hc].
Qed.

End EventuallyFacts.

Section PoolFacts.
Context {Task Exn Mem : Type}.

Abbreviation pool := (ThreadPool Task Exn Mem).

Lemma workers_split (ws : list (worker Task)) (i : nat) (w w' : worker Task) :
  ws !! i = Some w →
  ∃ l1 l2, ws = l1 ++ w :: l2 ∧ <[i := w']> ws = l1 ++ w' :: l2.
Proof.
  intros Hi. exists (take i ws), (drop (S i) ws). split.
  - symmetry. apply take_drop_middle. exact Hi.
  - apply insert_take_drop. eapply lookup_lt_Some. exact Hi.
Qed.

Lemma running_app (l1 l2 : list (worker Task)) :
  running (l1 ++ l2) = running l1 ++ running l2.
Proof. apply omap_app. Qed.

Lemma running_cons (w : worker Task) (l : list (worker Task)) :
  running (w :: l)
  = match w with Running h k => [(h, k)] | _ => [] end ++ running l.
Proof. destruct w; reflexivity. Qed.

Lemma NoDup_middle {X : Type} (A B : list X) (x : X) :
  NoDup (A ++ x :: B) ↔ (x ∉ A ++ B) ∧ NoDup (A ++ B).
Proof. rewrite <- Permutation_middle. apply NoDup_cons. Qed.

Lemma consistent_new (hw n : Z) (m : Mem) :
  consistent (new_ThreadPool hw n m : pool).
Proof.
  split.
  - unfold live. cbn [new_ThreadPool workers tasks app].
    induction (Z.to_nat (worker_count hw n)) as [|j IH]; [constructor|exact IH].
  - intros h. unfold live. cbn [new_ThreadPool workers tasks futures app].
    rewrite lookup_nil. split; [|discriminate].
    induction (Z.to_nat (worker_count hw n)) as [|j IH]; [inversion 1|exact IH].
  - intros _. apply Forall_replicate. discriminate.
Qed.

Lemma consistent_enqueue (f : Task) (p : pool) :
  consistent p → consistent (enqueue f p).2.
Proof.
  intros [Hnd Hpend Hexit].
  assert (Hfresh : length (futures p) ∉ (live p).*1).
  { intros Hin. apply Hpend in Hin. apply lookup_lt_Some in Hin. lia. }
  assert (Hlive : live (enqueue f p).2 ≡ₚ (length (futures p), f) :: live p).
  { unfold live, enqueue. cbn [snd tasks workers].
    rewrite <- app_assoc. cbn [app]. rewrite <- Permutation_middle. reflexivity. }
  split.
  - rewrite Hlive. rewrite fmap_cons. apply NoDup_cons. split; assumption.
  - intros h. rewrite Hlive, fmap_cons, elem_of_cons. cbn [enqueue snd futures fst].
    destruct (decide (h = length (futures p))) as [->|Hne].
    + rewrite lookup_app_r by lia. rewrite Nat.sub_diag. cbn. intuition.
    + rewrite Hpend. split.
      * intros [?|Hl]; [contradiction|]. rewrite lookup_app_l; [exact Hl|].
        eapply lookup_lt_Some. exact Hl.
      * intros Hl. right.
        destruct (decide (h < length (futures p))%nat) as [Hlt|Hge].
        -- rewrite lookup_app_l in Hl by exact Hlt. exact Hl.
        -- rewrite lookup_app_r in Hl by lia.
           destruct (h - length (futures p))%nat as [|j] eqn:E; [lia|].
           cbn in Hl. destruct j; discriminate.
  - exact Hexit.
Qed.

(** Nothing is queued or in flight exactly when no future is pending. *)
Lemma consistent_all_ready (p : pool) :
  consistent p → (all_ready p ↔ live p = []).
Proof.
  intros [Hnd Hpend Hexit]. unfold all_ready. split.
  - intros Hall. destruct (live p) as [|[h k] l] eqn:E; [reflexivity|].
    exfalso. assert (Hin : h ∈ ((h, k) :: l).*1) by left.
    apply Hpend in Hin. eapply Forall_lookup_1 in Hall; [|exact Hin]. congruence.
  - intros Hl. apply Forall_lookup_2. intros h f Hf ->.
    apply Hpend in Hf. rewrite Hl in Hf. inversion Hf.
Qed.

Lemma or_Forall {X : Type} (Q : Prop) (B : X → Prop) (l : list X) :
  (∀ i x, l !! i = Some x → Q ∨ B x) → Q ∨ Forall B l.
Proof.
  induction l as [|x l IH]; intros H; [right; constructor|].
  destruct (H 0%nat x eq_refl) as [HQ|HB]; [left; exact HQ|].
  destruct IH as [HQ|HF]; [|left; exact HQ|right; constructor; assumption].
  intros i y Hi. apply (H (S i) y). exact Hi.
Qed.

End PoolFacts.

Section WorkerLoopFacts.
Context {Task Exn Mem : Type}.
Variable exec : Task → Mem → Mem * outcome Task Exn.

Abbreviation pool := (ThreadPool Task Exn Mem).
Abbreviation step := (worker_step exec).







(** How a step changes the tasks that are queued or in flight. *)
Inductive live_change (p p' : pool) : Prop :=
  | change_none :
      live p' ≡ₚ live p → futures p' = futures p → mem p' = mem p →
      live_change p p'
  | change_continue A B h k k' :
      live p = A ++ (h, k) :: B → live p' = A ++ (h, k') :: B →
      exec k (mem p) = (mem p', Continue k') → futures p' = futures p →
      live_change p p'
  | change_return A B h k :
      live p = A ++ (h, k) :: B → live p' = A ++ B →
      exec k (mem p) = (mem p', Return) → futures p' = <[h := Ready]> (futures p) →
      live_change p p'
  | change_throw A B h k e :
      live p = A ++ (h, k) :: B → live p' = A ++ B →
      exec k (mem p) = (mem p', Throw e) → futures p' = <[h := Failed e]> (futures p) →
      live_change p p'.

Lemma step_live_change (p p' : pool) : step p p' → live_change p p'.
Proof.
  intros Hs. destruct Hs as [i h f q Hi Hq|i Hi Hstop Hq|i h k m' k' Hi He
                            |i h k m' Hi He|i h k m' e Hi He].
  - destruct (workers_split _ i _ (Running h f) Hi) as (l1 & l2 & E1 & E2).
    apply change_none; [|reflexivity|reflexivity].
    unfold live. cbn [workers tasks]. rewrite Hq, E2, E1.
    rewrite !running_app, !running_cons. cbn [app].
    rewrite !app_assoc. symmetry. apply Permutation_middle.
  - destruct (workers_split _ i _ Exited Hi) as (l1 & l2 & E1 & E2).
    apply change_none; [|reflexivity|reflexivity].
    unfold live. cbn [workers tasks]. rewrite E2, E1.
    rewrite !running_app, !running_cons. reflexivity.
  - destruct (workers_split _ i _ (Running h k') Hi) as (l1 & l2 & E1 & E2).
    apply (change_continue _ _ (tasks p ++ running l1) (running l2) h k k').
    + unfold live. rewrite E1 at 1. rewrite running_app, running_cons.
      cbn [app]. rewrite <- app_assoc. reflexivity.
    + unfold live. cbn [workers tasks]. rewrite E2, running_app, running_cons.
      cbn [app]. rewrite <- app_assoc. reflexivity.
    + exact He.
    + reflexivity.
  - destruct (workers_split _ i _ Waiting Hi) as (l1 & l2 & E1 & E2).
    apply (change_return _ _ (tasks p ++ running l1) (running l2) h k).
    + unfold live. rewrite E1 at 1. rewrite running_app, running_cons.
      cbn [app]. rewrite <- app_assoc. reflexivity.
    + unfold live. cbn [workers tasks]. rewrite E2, running_app, running_cons.
      cbn [app]. rewrite <- app_assoc. reflexivity.
    + exact He.
    + reflexivity.
  - destruct (workers_split _ i _ Waiting Hi) as (l1 & l2 & E1 & E2).
    apply (change_throw _ _ (tasks p ++ running l1) (running l2) h k e).
    + unfold live. rewrite E1 at 1. rewrite running_app, running_cons.
      cbn [app]. rewrite <- app_assoc. reflexivity.
    + unfold live. cbn [workers tasks]. rewrite E2, running_app, running_cons.
      cbn [app]. rewrite <- app_assoc. reflexivity.
    + exact He.
    + reflexivity.
Qed.

Lemma step_stop (p p' : pool) : step p p' → stop p' = stop p.
Proof. intros Hs. destruct Hs; reflexivity. Qed.

Lemma step_workers_length (p p' : pool) :
  step p p' → length (workers p') = length (workers p).
Proof. intros Hs. destruct Hs; cbn [workers]; apply length_insert. Qed.

Lemma step_futures_length (p p' : pool) :
  step p p' → length (futures p') = length (futures p).
Proof. intros Hs. destruct Hs; cbn [futures]; try reflexivity; apply length_insert. Qed.

(** A worker leaves its loop only with [stop] set and the queue empty. *)
Lemma step_exit_only_when_drained (p p' : pool) (i : nat) :
  step p p' →
  workers p !! i ≠ Some Exited → workers p' !! i = Some Exited →
  stop p = true ∧ tasks p = [].
Proof.
  intros Hs Hbefore Hafter.
  destruct Hs as [j h f q Hj Hq|j Hj Hstop Hq|j h k m' k' Hj He
                 |j h k m' Hj He|j h k m' e Hj He]; cbn [workers] in Hafter;
    try (destruct (decide (j = i)) as [->|Hne];
         [rewrite list_lookup_insert_eq in Hafter
            by (eapply lookup_lt_Some; eassumption); discriminate
         |rewrite list_lookup_insert_ne in Hafter by exact Hne; contradiction]).
  split; assumption.
Qed.

Lemma step_no_early_exit (p p' : pool) :
  step p p' → stop p = false →
  Forall (λ w, w ≠ Exited) (workers p) → Forall (λ w, w ≠ Exited) (workers p').
Proof.
  intros Hs Hstop Hall.
  destruct Hs; cbn [workers]; try (apply Forall_insert; [exact Hall|discriminate]).
  congruence.
Qed.



Lemma consistent_finish (p p' : pool) (A B : list (nat * Task)) (h : nat) (k : Task)
    (r : shared_state Exn) :
  r ≠ Pending →
  live p = A ++ (h, k) :: B → live p' = A ++ B →
  futures p' = <[h := r]> (futures p) →
  NoDup (live p).*1 →
  (∀ h, h ∈ (live p).*1 ↔ futures p !! h = Some Pending) →
  NoDup (live p').*1 ∧ (∀ h, h ∈ (live p').*1 ↔ futures p' !! h = Some Pending).
Proof.
  intros Hr HA HB Hf Hnd Hpend.
  rewrite HA in Hnd, Hpend. rewrite HB, Hf.
  rewrite fmap_app, fmap_cons in Hnd, Hpend. cbn [fst] in Hnd, Hpend.
  rewrite fmap_app.
  apply NoDup_middle in Hnd as [Hnotin Hnd]. split; [exact Hnd|].
  intros h'. destruct (decide (h' = h)) as [->|Hne].
  - split; [intros Hin; contradiction|].
    intros Hl. exfalso.
    assert (Hlt : (h < length (futures p))%nat).
    { apply lookup_lt_is_Some. exists Pending. apply Hpend.
      apply elem_of_app. right. left. }
    rewrite list_lookup_insert_eq in Hl by exact Hlt. congruence.
  - rewrite list_lookup_insert_ne by congruence. rewrite <- Hpend.
    rewrite !elem_of_app, elem_of_cons. intuition congruence.
Qed.

Lemma consistent_step (p p' : pool) : step p p' → consistent p → consistent p'.
Proof.
  intros Hs [Hnd Hpend Hexit].
  pose proof (step_stop _ _ Hs) as Hstop.
  assert (Hexit' : stop p' = false → Forall (λ w, w ≠ Exited) (workers p')).
  { intros H. rewrite Hstop in H. eapply step_no_early_exit; eauto. }
  destruct (step_live_change _ _ Hs) as [Hperm Hf Hm|A B h k k' HA HB He Hf
                                        |A B h k HA HB He Hf|A B h k e HA HB He Hf].
  - split; [| |exact Hexit'].
    + rewrite Hperm. exact Hnd.
    + intros h. rewrite Hperm, Hf. apply Hpend.
  - split; [| |exact Hexit'].
    + rewrite HB. rewrite HA in Hnd. rewrite fmap_app, fmap_cons in *. exact Hnd.
    + intros h'. rewrite Hf, <- Hpend. rewrite HA, HB.
      rewrite !fmap_app, !fmap_cons. reflexivity.
  - destruct (consistent_finish p p' A B h k Ready) as [H1 H2]; try assumption.
    { discriminate. }
    split; assumption.
  - destruct (consistent_finish p p' A B h k (Failed e)) as [H1 H2]; try assumption.
    { discriminate. }
    split; assumption.
Qed.

Lemma consistent_rtc (p p' : pool) : rtc step p p' → consistent p → consistent p'.
Proof. induction 1; eauto using consistent_step. Qed.









Lemma worker_enabled (p : pool) (i : nat) (w : worker Task) :
  workers p !! i = Some w →
  (∃ p', step p p') ∨ (w = Exited ∨ (w = Waiting ∧ tasks p = [] ∧ stop p = false)).
Proof.
  intros Hi. destruct w as [|h k|].
  - destruct (tasks p) as [|[h f] q] eqn:Hq.
    + destruct (stop p) eqn:Hstop.
      * left. eexists. apply (step_exit exec p i); assumption.
      * right. right. auto.
    + left. eexists. apply (step_pop exec p i h f q); assumption.
  - left. destruct (exec k (mem p)) as [m' [k'| |e]] eqn:He.
    + eexists. apply (step_continue exec p i h k m' k'); assumption.
    + eexists. apply (step_return exec p i h k m'); assumption.
    + eexists. apply (step_throw exec p i h k m' e); assumption.
  - right. left. reflexivity.
Qed.

(** A pool without a step: every worker has left or is blocked in
    [condition.wait]. *)
Lemma step_or_blocked (p : pool) :
  (∃ p', step p p')
  ∨ Forall (λ w, w = Exited ∨ (w = Waiting ∧ tasks p = [] ∧ stop p = false)) (workers p).
Proof. apply or_Forall. intros i w. apply worker_enabled. Qed.

Lemma running_blocked (p : pool) :
  Forall (λ w, w = Exited ∨ (w = Waiting ∧ tasks p = [] ∧ stop p = false)) (workers p) →
  running (workers p) = [].
Proof.
  induction 1 as [|w l Hw _ IH]; [reflexivity|].
  rewrite running_cons, IH. destruct Hw as [->|[-> _]]; reflexivity.
Qed.

(** While [stop] is unset a pool with a worker goes on until nothing is
    queued or in flight. *)
Lemma idle_or_step (p : pool) :
  consistent p → stop p = false → workers p ≠ [] →
  all_ready p ∨ ∃ p', step p p'.
Proof.
  intros Hc Hstop Hws. destruct (step_or_blocked p) as [Hs|Hb]; [right; exact Hs|].
  left. apply consistent_all_ready; [exact Hc|].
  unfold live. rewrite (running_blocked p Hb), app_nil_r.
  destruct (workers p) as [|w l] eqn:E; [done|].
  apply Forall_cons in Hb as [[->|(_ & Hq & _)] _]; [|exact Hq].
  pose proof (no_early_exit _ Hc Hstop) as Hne. rewrite E in Hne.
  apply Forall_cons in Hne as [Hne _]. done.
Qed.

Section Weight.
Variable tm : Task → nat.

Lemma weight_step (p p' : pool) :
  step p p' →
  (weight tm p' < weight tm p)%nat
  ∨ ∃ h k k', In (h, k) (live p) ∧ exec k (mem p) = (mem p', Continue k')
              ∧ (weight tm p' + tm k = weight tm p + tm k')%nat.
Proof.
  intros Hs. destruct Hs as [i h f q Hi Hq|i Hi Hstop Hq|i h k m' k' Hi He
                            |i h k m' Hi He|i h k m' e Hi He].
  - left. destruct (workers_split _ i _ (Running h f) Hi) as (l1 & l2 & E1 & E2).
    unfold weight. cbn [workers tasks]. rewrite E2, E1, Hq, !sum_list_with_app.
    cbn [sum_list_with worker_weight snd]. lia.
  - left. destruct (workers_split _ i _ Exited Hi) as (l1 & l2 & E1 & E2).
    unfold weight. cbn [workers tasks]. rewrite E2, E1, !sum_list_with_app.
    cbn [sum_list_with worker_weight snd]. lia.
  - right. exists h, k, k'.
    destruct (workers_split _ i _ (Running h k') Hi) as (l1 & l2 & E1 & E2).
    split; [|split; [exact He|]].
    + unfold live. apply in_or_app. right. rewrite E1, running_app, running_cons.
      apply in_or_app. right. left. reflexivity.
    + unfold weight. cbn [workers tasks]. rewrite E2, E1, !sum_list_with_app.
      cbn [sum_list_with worker_weight snd]. lia.
  - left. destruct (workers_split _ i _ Waiting Hi) as (l1 & l2 & E1 & E2).
    unfold weight. cbn [workers tasks]. rewrite E2, E1, !sum_list_with_app.
    cbn [sum_list_with worker_weight snd]. lia.
  - left. destruct (workers_split _ i _ Waiting Hi) as (l1 & l2 & E1 & E2).
    unfold weight. cbn [workers tasks]. rewrite E2, E1, !sum_list_with_app.
    cbn [sum_list_with worker_weight snd]. lia.
Qed.

End Weight.

(** *** Shutdown *)

(** After [stop] is set: the queue is empty or a worker is still there to
    take from it. *)
Definition draining (p : pool) : Prop :=
  stop p = true ∧ consistent p ∧ (tasks p = [] ∨ Exists (λ w, w ≠ Exited) (workers p)).

Lemma draining_step (p p' : pool) : step p p' → draining p → draining p'.
Proof.
  intros Hs (Hstop & Hc & Hw).
  split; [rewrite (step_stop _ _ Hs); exact Hstop|].
  split; [eapply consistent_step; eauto|].
  destruct Hs as [i h f q Hi Hq|i Hi _ Hq|i h k m' k' Hi He
                 |i h k m' Hi He|i h k m' e Hi He]; cbn [tasks workers].
  - right. apply Exists_exists. exists (Running h f). split; [|discriminate].
    apply list_elem_of_lookup. exists i. apply list_lookup_insert_eq.
    eapply lookup_lt_Some; eassumption.
  - left. exact Hq.
  - right. apply Exists_exists. exists (Running h k'). split; [|discriminate].
    apply list_elem_of_lookup. exists i. apply list_lookup_insert_eq.
    eapply lookup_lt_Some; eassumption.
  - right. apply Exists_exists. exists Waiting. split; [|discriminate].
    apply list_elem_of_lookup. exists i. apply list_lookup_insert_eq.
    eapply lookup_lt_Some; eassumption.
  - right. apply Exists_exists. exists Waiting. split; [|discriminate].
    apply list_elem_of_lookup. exists i. apply list_lookup_insert_eq.
    eapply lookup_lt_Some; eassumption.
Qed.

Lemma draining_rtc (p p' : pool) : rtc step p p' → draining p → draining p'.
Proof. induction 1; eauto using draining_step. Qed.

Lemma draining_progress (p : pool) :
  draining p → joined_workers p ∨ ∃ p', step p p'.
Proof.
  intros (Hstop & _ & _). destruct (step_or_blocked p) as [Hs|Hb]; [right; exact Hs|].
  left. unfold joined_workers. eapply Forall_impl; [exact Hb|].
  intros w [->|(_ & _ & Hf)]; [reflexivity|congruence].
Qed.

Lemma draining_joined (p : pool) :
  draining p → joined_workers p → tasks p = [] ∧ all_ready p.
Proof.
  intros (_ & Hc & Hw) Hj.
  assert (Hq : tasks p = []).
  { destruct Hw as [Hq|Hex]; [exact Hq|]. exfalso.
    apply Exists_exists in Hex as (w & Hin & Hne).
    unfold joined_workers in Hj. rewrite Forall_forall in Hj.
    apply Hne, Hj, Hin. }
  split; [exact Hq|]. apply consistent_all_ready; [exact Hc|].
  unfold live. rewrite Hq. cbn [app].
  unfold joined_workers in Hj. clear Hw Hc Hq.
  induction Hj as [|w l -> _ IH]; [reflexivity|exact IH].
Qed.

Lemma rtc_futures_length (p p' : pool) :
  rtc step p p' → length (futures p') = length (futures p).
Proof.
  induction 1 as [|p q r Hs _ IH]; [reflexivity|].
  rewrite IH. eapply step_futures_length; eauto.
Qed.

End WorkerLoopFacts.

(** ** The scheduling entry points *)

Section PolicyFacts.
Context {St Exn : Type}.
Variable fn : Z → St → St * option Exn.

Abbreviation ppool := (ThreadPool task Exn (memory St)).
Abbreviation pstep := (worker_step (exec fn)).

(** The state after calls of [fn] with the indices of [l], in order. *)
Definition replay (u : St) (l : list Z) : St := foldl (λ s i, (fn i s).1) u l.

Variables limit chunk : Z.
Hypothesis chunk_pos : 0 < chunk.

(** A pool at work for one call: consistent, running, with a worker, and
    with claiming tasks that agree on [limit] and [chunk]. *)
Record scheduled (p : ppool) : Prop := mkScheduled {
  sch_consistent : consistent p;
  sch_stop : stop p = false;
  sch_workers : workers p ≠ [];
  sch_tasks : Forall (claims_from limit chunk) (live p).*2
}.

Definition potential (p : ppool) : nat :=
  (3 * Z.to_nat (limit - next_chunk (mem p)) + weight task_size p)%nat.

Lemma exec_cursor (k : task) (m m' : memory St) (o : outcome task Exn) :
  claims_from limit chunk k → exec fn k m = (m', o) →
  next_chunk m ≤ next_chunk m'.
Proof.
  intros Hk He. destruct k as [i ce|e c|e c i ce]; cbn [exec] in He.
  - destruct (i <? ce); [|injection He as <- _; lia].
    unfold invoke in He. destruct (fn i (user m)) as [u r].
    injection He as <- _. cbn. lia.
  - destruct Hk as [-> ->].
    destruct (next_chunk m >=? limit); injection He as <- _; cbn; lia.
  - destruct (i <? ce); [|injection He as <- _; lia].
    unfold invoke in He. destruct (fn i (user m)) as [u r].
    injection He as <- _. cbn. lia.
Qed.

Lemma exec_continue_size (k k' : task) (m m' : memory St) :
  claims_from limit chunk k → exec fn k m = (m', Continue k') →
  claims_from limit chunk k'
  ∧ (3 * Z.to_nat (limit - next_chunk m') + task_size k'
     < 3 * Z.to_nat (limit - next_chunk m) + task_size k)%nat.
Proof.
  intros Hk He. destruct k as [i ce|e c|e c i ce]; cbn [exec] in He.
  - destruct (Z.ltb_spec i ce); [|discriminate].
    unfold invoke in He. destruct (fn i (user m)) as [u [x|]]; [discriminate|].
    injection He as <- <-. cbn. split; [exact I|lia].
  - destruct Hk as [-> ->].
    destruct (Z.geb_spec (next_chunk m) limit); [discriminate|].
    injection He as <- <-. cbn. split; [auto|lia].
  - destruct (Z.ltb_spec i ce).
    + unfold invoke in He. destruct (fn i (user m)) as [u [x|]]; [discriminate|].
      injection He as <- <-. cbn. split; [exact Hk|lia].
    + injection He as <- <-. cbn. split; [exact Hk|lia].
Qed.

Lemma live_task_claims (p : ppool) (h : nat) (k : task) :
  Forall (claims_from limit chunk) (live p).*2 → In (h, k) (live p) →
  claims_from limit chunk k.
Proof.
  intros Hall Hin. rewrite Forall_forall in Hall. apply Hall.
  apply list_elem_of_In in Hin.
  apply (list_elem_of_fmap_2 snd (live p) (h, k)). exact Hin.
Qed.

Lemma scheduled_step (p p' : ppool) : pstep p p' → scheduled p → scheduled p'.
Proof.
  intros Hs [Hc Hstop Hw Ht]. split.
  - eapply consistent_step; eauto.
  - rewrite (step_stop _ _ _ Hs). exact Hstop.
  - intros E. apply (f_equal length) in E.
    rewrite (step_workers_length _ _ _ Hs) in E.
    destruct (workers p); [done|discriminate].
  - destruct (step_live_change _ _ _ Hs) as [Hperm Hf Hm|A B h k k' HA HB He Hf
                                            |A B h k HA HB He Hf|A B h k e HA HB He Hf].
    + rewrite Hperm. exact Ht.
    + rewrite HA in Ht. rewrite HB. rewrite fmap_app, fmap_cons in *.
      apply Forall_app in Ht as [H1 H2]. apply Forall_cons in H2 as [H2 H3].
      apply Forall_app. split; [exact H1|]. apply Forall_cons. split; [|exact H3].
      eapply exec_continue_size; eauto.
    + rewrite HA in Ht. rewrite HB. rewrite fmap_app, ?fmap_cons in *.
      apply Forall_app in Ht as [H1 H2]. apply Forall_cons in H2 as [H2 H3].
      apply Forall_app. split; assumption.
    + rewrite HA in Ht. rewrite HB. rewrite fmap_app, ?fmap_cons in *.
      apply Forall_app in Ht as [H1 H2]. apply Forall_cons in H2 as [H2 H3].
      apply Forall_app. split; assumption.
Qed.

Lemma step_cursor (p p' : ppool) :
  pstep p p' → scheduled p → next_chunk (mem p) ≤ next_chunk (mem p').
Proof.
  intros Hs [_ _ _ Ht].
  assert (Hex : ∀ A B h k o, live p = A ++ (h, k) :: B → exec fn k (mem p) = (mem p', o) →
                 next_chunk (mem p) ≤ next_chunk (mem p')).
  { intros A B h k o HA He. eapply exec_cursor; [|exact He].
    eapply (live_task_claims p h); [exact Ht|].
    rewrite HA. apply in_or_app. right. left. reflexivity. }
  destruct (step_live_change _ _ _ Hs) as [Hperm Hf Hm|A B h k k' HA HB He Hf
                                          |A B h k HA HB He Hf|A B h k e HA HB He Hf].
  - rewrite Hm. lia.
  - eapply Hex; eauto.
  - eapply Hex; eauto.
  - eapply Hex; eauto.
Qed.

Lemma potential_step (p p' : ppool) :
  pstep p p' → scheduled p → (potential p' < potential p)%nat.
Proof.
  intros Hs Hsch. pose proof (step_cursor p p' Hs Hsch) as Hcur.
  unfold potential.
  destruct (weight_step (exec fn) task_size p p' Hs) as [Hlt|(h & k & k' & Hin & He & Hw)].
  - lia.
  - destruct (exec_continue_size k k' (mem p) (mem p')) as [_ Hsz]; [|exact He|lia].
    eapply live_task_claims; [apply Hsch|exact Hin].
Qed.

(** A scheduled call ends: on every schedule the pool reaches a state in
    which no future is pending. *)
Lemma scheduled_terminates (p : ppool) :
  scheduled p → eventually pstep all_ready p.
Proof.
  apply (eventually_by_measure pstep all_ready scheduled potential).
  - intros a b Ha Hab. eapply scheduled_step; eauto.
  - intros a [Hc Hstop Hw _]. apply idle_or_step; assumption.
  - intros a b Ha Hab. apply potential_step; assumption.
Qed.

Lemma scheduled_rtc (p p' : ppool) : rtc pstep p p' → scheduled p → scheduled p'.
Proof. induction 1; eauto using scheduled_step. Qed.

End PolicyFacts.

Section CoverFacts.
Context {St Exn : Type}.
Variable fn : Z → St → St * option Exn.
Hypothesis fn_nothrow : nothrow fn.

Abbreviation ppool := (ThreadPool task Exn (memory St)).
Abbreviation pstep := (worker_step (exec fn)).

Variables limit chunk : Z.
Hypothesis chunk_pos : 0 < chunk.

(** The indices of [R] are each either called already, pending in a task
    queued or in flight, or not claimed yet. *)
Record covering (R : list Z) (u0 : St) (p : ppool) : Prop := mkCovering {
  cov_scheduled : scheduled limit chunk p;
  cov_indices :
    calls (mem p) ++ pending (live p).*2 ++ unclaimed limit (next_chunk (mem p)) ≡ₚ R;
  cov_cursor : limit ≤ next_chunk (mem p) ∨ Exists is_claiming (live p).*2;
  cov_user : user (mem p) = replay fn u0 (calls (mem p))
}.

Lemma invoke_nothrow (i : Z) (m : memory St) :
  invoke fn i m = (mkMemory (next_chunk m) (calls m ++ [i]) (fn i (user m)).1, None).
Proof.
  unfold invoke. pose proof (fn_nothrow i (user m)) as H.
  destruct (fn i (user m)) as [u r]. cbn in *. rewrite H. reflexivity.
Qed.

Lemma unclaimed_split (cursor : Z) :
  cursor < limit →
  unclaimed limit cursor
  = seqZ cursor (Z.min (cursor + chunk) limit - cursor) ++ unclaimed limit (cursor + chunk).
Proof.
  intros Hlt. unfold unclaimed.
  destruct (Z_le_gt_dec (cursor + chunk) limit) as [Hle|Hgt].
  - rewrite Z.min_l by lia.
    replace (limit - cursor) with ((cursor + chunk - cursor) + (limit - (cursor + chunk))) by lia.
    rewrite seqZ_app by lia.
    replace (cursor + (cursor + chunk - cursor)) with (cursor + chunk) by lia.
    reflexivity.
  - rewrite Z.min_r by lia.
    rewrite (seqZ_nil (cursor + chunk)) by lia. rewrite app_nil_r. reflexivity.
Qed.

(** What one step of a task does to the indices called, pending and
    unclaimed. *)
Lemma exec_indices (k : task) (m m' : memory St) (o : outcome task Exn) :
  claims_from limit chunk k → exec fn k m = (m', o) →
  (∃ k', o = Continue k'
         ∧ calls m' ++ pending_of k' ++ unclaimed limit (next_chunk m')
           ≡ₚ calls m ++ pending_of k ++ unclaimed limit (next_chunk m)
         ∧ (is_claiming k → is_claiming k')
         ∧ user m' = replay fn (user m) (drop (length (calls m)) (calls m')))
  ∨ (o = Return
     ∧ calls m' = calls m ∧ pending_of k = [] ∧ user m' = user m
     ∧ unclaimed limit (next_chunk m') = unclaimed limit (next_chunk m)
     ∧ (is_claiming k → limit ≤ next_chunk m')
     ∧ (limit ≤ next_chunk m → limit ≤ next_chunk m')).
Proof.
  intros Hk He. destruct k as [i ce|e c|e c i ce]; cbn [exec] in He.
  - destruct (Z.ltb_spec i ce).
    + rewrite invoke_nothrow in He. injection He as <- <-. left.
      eexists. split; [reflexivity|]. cbn [calls next_chunk user pending_of].
      split; [|split; [auto|]].
      * rewrite (seqZ_cons i) by lia.
        replace (Z.succ i) with (i + 1) by lia.
        replace (Z.pred (ce - i)) with (ce - (i + 1)) by lia.
        solve_Permutation.
      * rewrite drop_app_length. reflexivity.
    + injection He as <- <-. right. cbn [pending_of].
      rewrite seqZ_nil by lia. repeat split; auto. intros [].
  - destruct Hk as [-> ->]. destruct (Z.geb_spec (next_chunk m) limit).
    + injection He as <- <-. right. cbn [calls next_chunk user pending_of].
      unfold unclaimed. rewrite !seqZ_nil by lia. repeat split; auto; lia.
    + injection He as <- <-. left.
      eexists. split; [reflexivity|]. cbn [calls next_chunk user pending_of].
      split; [|split; [auto|]].
      * rewrite (unclaimed_split (next_chunk m)) by lia. reflexivity.
      * rewrite drop_all. reflexivity.
  - destruct (Z.ltb_spec i ce).
    + rewrite invoke_nothrow in He. injection He as <- <-. left.
      eexists. split; [reflexivity|]. cbn [calls next_chunk user pending_of].
      split; [|split; [auto|]].
      * rewrite (seqZ_cons i) by lia.
        replace (Z.succ i) with (i + 1) by lia.
        replace (Z.pred (ce - i)) with (ce - (i + 1)) by lia.
        solve_Permutation.
      * rewrite drop_app_length. reflexivity.
    + injection He as <- <-. left.
      eexists. split; [reflexivity|]. cbn [calls next_chunk user pending_of].
      split; [|split; [auto|]].
      * rewrite seqZ_nil by lia. reflexivity.
      * rewrite drop_all. reflexivity.
Qed.

Lemma replay_app (u : St) (l1 l2 : list Z) :
  replay fn u (l1 ++ l2) = replay fn (replay fn u l1) l2.
Proof. apply foldl_app. Qed.

Lemma exec_calls_extend (k : task) (m m' : memory St) (o : outcome task Exn) :
  exec fn k m = (m', o) → calls m' = calls m ++ drop (length (calls m)) (calls m').
Proof.
  intros He. destruct k as [i ce|e c|e c i ce]; cbn [exec] in He.
  - destruct (i <? ce).
    + unfold invoke in He. destruct (fn i (user m)) as [u r].
      injection He as <- _. cbn. rewrite drop_app_length. reflexivity.
    + injection He as <- _. rewrite drop_all, app_nil_r. reflexivity.
  - destruct (next_chunk m >=? e); injection He as <- _; cbn;
      rewrite drop_all, app_nil_r; reflexivity.
  - destruct (i <? ce).
    + unfold invoke in He. destruct (fn i (user m)) as [u r].
      injection He as <- _. cbn. rewrite drop_app_length. reflexivity.
    + injection He as <- _. rewrite drop_all, app_nil_r. reflexivity.
Qed.

Lemma covering_step (R : list Z) (u0 : St) (p p' : ppool) :
  pstep p p' → covering R u0 p → covering R u0 p'.
Proof.
  intros Hs [Hsch Hperm Hcur Hu]. unfold pending in Hperm.
  assert (Hsch' : scheduled limit chunk p') by (eapply scheduled_step; eauto).
  pose proof (sch_tasks _ _ _ Hsch) as Ht.
  destruct (step_live_change _ _ _ Hs) as [Hl Hf Hm|A B h k k' HA HB He Hf
                                          |A B h k HA HB He Hf|A B h k e HA HB He Hf].
  - split; [exact Hsch'| | |].
    + unfold pending. rewrite Hm, Hl. exact Hperm.
    + rewrite Hm, Hl. exact Hcur.
    + rewrite Hm. exact Hu.
  - assert (Hk : claims_from limit chunk k).
    { eapply (live_task_claims limit chunk p h); [exact Ht|].
      rewrite HA. apply in_or_app. right. left. reflexivity. }
    destruct (exec_indices k _ _ _ Hk He) as [(k'' & Ek & Hp & Hc & Hu')|(Ek & _)];
      [|discriminate].
    injection Ek as <-.
    rewrite HA in Hperm, Hcur. rewrite fmap_app, fmap_cons in Hperm, Hcur.
    cbn [snd] in Hperm, Hcur.
    rewrite bind_app, bind_cons in Hperm.
    split; [exact Hsch'| | |].
    + rewrite HB, fmap_app, fmap_cons. cbn [snd]. unfold pending.
      rewrite bind_app, bind_cons. rewrite <- Hperm.
      transitivity ((A.*2 ≫= pending_of) ++ (B.*2 ≫= pending_of)
                    ++ (calls (mem p') ++ pending_of k'
                        ++ unclaimed limit (next_chunk (mem p')))).
      { solve_Permutation. }
      rewrite Hp. solve_Permutation.
    + destruct Hcur as [Hle|Hex].
      * left. pose proof (step_cursor fn limit chunk chunk_pos p p' Hs Hsch). lia.
      * right. rewrite HB, fmap_app, fmap_cons. cbn [snd].
        apply Exists_app in Hex as [Hex|Hex]; [apply Exists_app; left; exact Hex|].
        apply Exists_app. right.
        apply Exists_cons in Hex as [Hex|Hex];
          [apply Exists_cons; left; auto|apply Exists_cons; right; exact Hex].
    + rewrite Hu', Hu, <- replay_app, <- (exec_calls_extend k _ _ _ He). reflexivity.
  - assert (Hk : claims_from limit chunk k).
    { eapply (live_task_claims limit chunk p h); [exact Ht|].
      rewrite HA. apply in_or_app. right. left. reflexivity. }
    destruct (exec_indices k _ _ _ Hk He)
      as [(k'' & Ek & _)|(_ & Hcalls & Hpend & Hu' & Hun & Hcl & Hmono)];
      [discriminate|].
    rewrite HA in Hperm, Hcur. rewrite fmap_app, fmap_cons in Hperm, Hcur.
    cbn [snd] in Hperm, Hcur.
    rewrite bind_app, bind_cons, Hpend in Hperm. cbn [app] in Hperm.
    split; [exact Hsch'| | |].
    + rewrite HB, fmap_app. unfold pending. rewrite bind_app, Hcalls, Hun.
      exact Hperm.
    + destruct Hcur as [Hle|Hex]; [left; auto|].
      apply Exists_app in Hex as [Hex|Hex].
      * right. rewrite HB, fmap_app. apply Exists_app. left. exact Hex.
      * apply Exists_cons in Hex as [Hex|Hex]; [left; auto|].
        right. rewrite HB, fmap_app. apply Exists_app. right. exact Hex.
    + rewrite Hu', Hcalls. exact Hu.
  - assert (Hk : claims_from limit chunk k).
    { eapply (live_task_claims limit chunk p h); [exact Ht|].
      rewrite HA. apply in_or_app. right. left. reflexivity. }
    destruct (exec_indices k _ _ _ Hk He) as [(k'' & Ek & _)|(Ek & _)]; discriminate.
Qed.

Lemma covering_rtc (R : list Z) (u0 : St) (p p' : ppool) :
  rtc pstep p p' → covering R u0 p → covering R u0 p'.
Proof. induction 1; eauto using covering_step. Qed.

(** When the caller comes back from its waits, every index was called
    once. *)
Lemma covering_all_ready (R : list Z) (u0 : St) (p : ppool) :
  covering R u0 p → all_ready p →
  calls (mem p) ≡ₚ R ∧ user (mem p) = replay fn u0 (calls (mem p)).
Proof.
  intros [Hsch Hperm Hcur Hu] Hready. split; [|exact Hu].
  apply (consistent_all_ready p (sch_consistent _ _ _ Hsch)) in Hready.
  rewrite Hready in Hperm, Hcur. cbn in Hperm, Hcur.
  destruct Hcur as [Hle|Hex]; [|inversion Hex].
  unfold unclaimed in Hperm. rewrite seqZ_nil, app_nil_r in Hperm by lia.
  exact Hperm.
Qed.

End CoverFacts.

Section LaunchFacts.
Context {St Exn : Type}.
Variable fn : Z → St → St * option Exn.

Abbreviation ppool := (ThreadPool task Exn (memory St)).

Lemma enqueue_all (ts : list task) (p : ppool) :
  let p' := foldl (λ p t, (enqueue t p).2) p ts in
  workers p' = workers p ∧ stop p' = stop p ∧ mem p' = mem p
  ∧ (tasks p').*2 = (tasks p).*2 ++ ts
  ∧ (consistent p → consistent p').
Proof.
  revert p. induction ts as [|t ts IH]; intros p; cbv zeta; cbn [foldl].
  - rewrite app_nil_r. auto.
  - destruct (IH (enqueue t p).2) as (Hw & Hs & Hm & Ht & Hc).
    rewrite Hw, Hs, Hm, Ht. cbn [enqueue snd workers stop mem tasks].
    rewrite fmap_app, <- app_assoc. cbn [fmap list_fmap snd app].
    split; [reflexivity|]. split; [reflexivity|]. split; [reflexivity|].
    split; [reflexivity|].
    intros Hp. apply Hc. apply consistent_enqueue. exact Hp.
Qed.

Lemma worker_count_pos (hw : Z) : 0 ≤ hw → 0 < worker_count hw 0.
Proof. intros H. unfold worker_count. cbn. destruct (Z.eqb_spec hw 0); lia. Qed.

(** [get_thread_pool().num_threads()] *)
Lemma num_threads_get_thread_pool (hw : Z) (m : memory St) :
  0 ≤ hw →
  num_threads (get_thread_pool (Task := task) (Exn := Exn) hw m) = worker_count hw 0.
Proof.
  intros H. pose proof (worker_count_pos hw H).
  unfold num_threads, get_thread_pool, new_ThreadPool. cbn [workers].
  rewrite length_replicate. lia.
Qed.

Lemma running_waiting (n : nat) : running (replicate n (@Waiting task)) = [].
Proof. induction n as [|n IH]; [reflexivity|exact IH]. Qed.

Lemma launch_live (hw start : Z) (u : St) (ts : list task) :
  (live (launch (Exn := Exn) hw start u ts)).*2 = ts
  ∧ mem (launch (Exn := Exn) hw start u ts) = initial_memory start u.
Proof.
  unfold launch.
  destruct (enqueue_all ts (get_thread_pool hw (initial_memory start u)))
    as (Hw & Hs & Hm & Ht & Hc).
  cbn zeta in *. split; [|exact Hm].
  unfold live. rewrite Hw. cbn [get_thread_pool new_ThreadPool workers].
  rewrite running_waiting, app_nil_r, Ht. reflexivity.
Qed.

Lemma launch_scheduled (limit chunk hw start : Z) (u : St) (ts : list task) :
  0 ≤ hw → Forall (claims_from limit chunk) ts →
  scheduled limit chunk (launch (Exn := Exn) hw start u ts).
Proof.
  intros Hhw Hts.
  destruct (enqueue_all ts (get_thread_pool (Exn := Exn) hw (initial_memory start u)))
    as (Hw & Hs & Hm & Ht & Hc).
  cbn zeta in *. split.
  - apply Hc. apply consistent_new.
  - unfold launch. rewrite Hs. reflexivity.
  - unfold launch. rewrite Hw. cbn [get_thread_pool new_ThreadPool workers].
    pose proof (worker_count_pos hw Hhw).
    destruct (Z.to_nat (worker_count hw 0)) eqn:E; [lia|discriminate].
  - rewrite (proj1 (launch_live hw start u ts)). exact Hts.
Qed.


End LaunchFacts.

Section ChunkLists.







End ChunkLists.

Section SequentialFacts.
Context {St Exn : Type}.
Variable fn : Z → St → St * option Exn.

Lemma for_each_nothrow (l : list Z) (m : memory St) :
  nothrow fn →
  for_each fn l m
  = (mkMemory (next_chunk m) (calls m ++ l) (replay fn (user m) l), None).
Proof.
  intros Hn. revert m. induction l as [|i l IH]; intros m; cbn [for_each].
  - rewrite app_nil_r. destruct m; reflexivity.
  - rewrite (invoke_nothrow fn Hn). rewrite IH. cbn [next_chunk calls user].
    rewrite <- app_assoc. reflexivity.
Qed.

Lemma replay_permutation (u : St) (l1 l2 : list Z) :
  disjoint_slots fn → l1 ≡ₚ l2 → NoDup l1 →
  replay fn u l1 = replay fn u l2.
Proof.
  intros Hd Hp. revert u. induction Hp as [|x l1 l2 Hp IH|x y l|l1 l2 l3 H12 IH12 H23 IH23];
    intros u Hnd.
  - reflexivity.
  - apply NoDup_cons in Hnd as [_ Hnd]. cbn. apply IH. exact Hnd.
  - apply NoDup_cons in Hnd as [Hy _]. cbn. f_equal.
    apply Hd. intros ->. apply Hy. left.
  - rewrite IH12 by exact Hnd. apply IH23. rewrite <- H12. exact Hnd.
Qed.

End SequentialFacts.

Section ParallelForFacts.
Context {St Exn : Type}.
Variable fn : Z → St → St * option Exn.

Hypothesis fn_nothrow : nothrow fn.







End ParallelForFacts.


Lemma write_slot_disjoint (g : Z → Z) : disjoint_slots (write_slot g).
Proof.
  intros i j s Hne. unfold write_slot. cbn [fst].
  apply insert_insert_ne. congruence.
Qed.


(** ** Shutdown of the pool *)

Section ShutdownFacts.
Context {Task Exn Mem : Type}.
Variable exec : Task → Mem → Mem * outcome Task Exn.
Variable tm : Task → nat.
Hypothesis tasks_end : ∀ k m m' k', exec k m = (m', Continue k') → (tm k' < tm k)%nat.

Abbreviation pool := (ThreadPool Task Exn Mem).
Abbreviation step := (worker_step exec).

Lemma draining_signal_stop (p : pool) :
  consistent p → stop p = false → workers p ≠ [] → draining (signal_stop p).
Proof.
  intros [Hnd Hpend Hexit] Hstop Hw. split; [reflexivity|]. split.
  - split; [exact Hnd|exact Hpend|]. cbn. discriminate.
  - right. cbn [signal_stop workers]. specialize (Hexit Hstop).
    destruct (workers p) as [|w l]; [done|].
    apply Forall_cons in Hexit as [Hne _]. left. exact Hne.
Qed.

Lemma draining_terminates (p : pool) :
  draining p → eventually step joined_workers p.
Proof.
  apply (eventually_by_measure step joined_workers draining (weight tm)).
  - intros a b Ha Hab. eapply draining_step; eauto.
  - intros a Ha. apply (draining_progress exec). exact Ha.
  - intros a b _ Hab.
    destruct (weight_step exec tm a b Hab) as [Hlt|(h & k & k' & _ & He & Hw)];
      [exact Hlt|].
    specialize (tasks_end _ _ _ _ He). lia.
Qed.

End ShutdownFacts.

(** ** What the tasks of a pool do *)

Section TaskRuns.
Context {Task Exn Mem : Type}.
Variable exec : Task → Mem → Mem * outcome Task Exn.

Abbreviation pool := (ThreadPool Task Exn Mem).
Abbreviation step := (worker_step exec).

(** The work of a pool apart from who holds it: the unfinished tasks by
    handle, each at the program point it has reached, the shared states
    of the futures, and the memory. *)
Definition work : Type := gmap nat Task * list (shared_state Exn) * Mem.

Definition work_of (p : pool) : work := (list_to_map (live p), futures p, mem p).

(** One step of the body of an unfinished task.  A task leaves the
    unfinished ones in no other way than by the step of its body that
    returns or throws, and that step sets its future. *)
Inductive task_step : work → work → Prop :=
  | task_continues js fs m h k m' k' :
      js !! h = Some k → exec k m = (m', Continue k') →
      task_step (js, fs, m) (<[h := k']> js, fs, m')
  | task_returns js fs m h k m' :
      js !! h = Some k → exec k m = (m', Return) →
      task_step (js, fs, m) (delete h js, <[h := Ready]> fs, m')
  | task_throws js fs m h k m' e :
      js !! h = Some k → exec k m = (m', Throw e) →
      task_step (js, fs, m) (delete h js, <[h := Failed e]> fs, m').

Lemma unfinished_middle (A B : list (nat * Task)) (h : nat) (k : Task) :
  NoDup (A ++ (h, k) :: B).*1 →
  (list_to_map (A ++ (h, k) :: B) : gmap nat Task) = <[h := k]> (list_to_map (A ++ B))
  ∧ (list_to_map (A ++ B) : gmap nat Task) !! h = None.
Proof.
  intros Hnd. split.
  - rewrite <- list_to_map_cons. apply list_to_map_proper; [exact Hnd|].
    symmetry. apply Permutation_middle.
  - apply not_elem_of_list_to_map.
    rewrite fmap_app, fmap_cons in Hnd. cbn [fst] in Hnd.
    apply NoDup_middle in Hnd as [Hnotin _]. rewrite fmap_app. exact Hnotin.
Qed.

Lemma unfinished_replace (A B : list (nat * Task)) (h : nat) (k k' : Task) :
  NoDup (A ++ (h, k) :: B).*1 →
  (list_to_map (A ++ (h, k') :: B) : gmap nat Task)
  = <[h := k']> (list_to_map (A ++ (h, k) :: B)).
Proof.
  intros Hnd.
  assert (Hnd' : NoDup (A ++ (h, k') :: B).*1).
  { rewrite fmap_app, fmap_cons in *. exact Hnd. }
  rewrite (proj1 (unfinished_middle A B h k Hnd)).
  rewrite (proj1 (unfinished_middle A B h k' Hnd')).
  rewrite insert_insert_eq. reflexivity.
Qed.

Lemma unfinished_remove (A B : list (nat * Task)) (h : nat) (k : Task) :
  NoDup (A ++ (h, k) :: B).*1 →
  (list_to_map (A ++ B) : gmap nat Task) = delete h (list_to_map (A ++ (h, k) :: B)).
Proof.
  intros Hnd. destruct (unfinished_middle A B h k Hnd) as [-> Hnone].
  rewrite delete_insert_id by exact Hnone. reflexivity.
Qed.

Lemma unfinished_lookup (A B : list (nat * Task)) (h : nat) (k : Task) :
  NoDup (A ++ (h, k) :: B).*1 →
  (list_to_map (A ++ (h, k) :: B) : gmap nat Task) !! h = Some k.
Proof.
  intros Hnd. rewrite (proj1 (unfinished_middle A B h k Hnd)). apply lookup_insert_eq.
Qed.

(** A step of a worker is a step of the body of a task, or it moves a
    task or a worker without running anything. *)
Lemma step_work (p p' : pool) :
  consistent p → step p p' →
  work_of p' = work_of p ∨ task_step (work_of p) (work_of p').
Proof.
  intros Hc Hs. pose proof (live_NoDup _ Hc) as Hnd. unfold work_of.
  destruct (step_live_change exec _ _ Hs) as [Hl Hf Hm|A B h k k' HA HB He Hf
                                             |A B h k HA HB He Hf|A B h k e HA HB He Hf].
  - left. rewrite Hf, Hm. f_equal. f_equal.
    symmetry. apply list_to_map_proper; [exact Hnd|]. symmetry. exact Hl.
  - right. rewrite HA in Hnd. rewrite HB, Hf, HA, (unfinished_replace A B h k k' Hnd).
    apply (task_continues _ _ _ h k); [apply unfinished_lookup; exact Hnd|exact He].
  - right. rewrite HA in Hnd. rewrite HB, Hf, HA, (unfinished_remove A B h k Hnd).
    apply (task_returns _ _ _ h k); [apply unfinished_lookup; exact Hnd|exact He].
  - right. rewrite HA in Hnd. rewrite HB, Hf, HA, (unfinished_remove A B h k Hnd).
    apply (task_throws _ _ _ h k); [apply unfinished_lookup; exact Hnd|exact He].
Qed.

Lemma rtc_work (p p' : pool) :
  consistent p → rtc step p p' → rtc task_step (work_of p) (work_of p').
Proof.
  intros Hc Hrtc. induction Hrtc as [|a b c Hab _ IH]; [apply rtc_refl|].
  specialize (IH (consistent_step exec _ _ Hab Hc)).
  destruct (step_work a b Hc Hab) as [E|Ht].
  - rewrite <- E. exact IH.
  - eapply rtc_l; eauto.
Qed.

(** With nothing queued or in flight, no task is unfinished. *)
Lemma work_done (p p' : pool) :
  consistent p → rtc step p p' → live p' = [] →
  rtc task_step (work_of p) (∅, futures p', mem p').
Proof.
  intros Hc Hrtc Hl. pose proof (rtc_work p p' Hc Hrtc) as H.
  unfold work_of at 2 in H. rewrite Hl in H. exact H.
Qed.

End TaskRuns.

Section CountdownRuns.

(** The steps the unfinished [countdown] tasks have still to take. *)
Definition steps_left (js : gmap nat nat) : nat :=
  sum_list_with snd (map_to_list js).

Lemma steps_left_insert (js : gmap nat nat) (h k : nat) :
  js !! h = None → steps_left (<[h := k]> js) = (k + steps_left js)%nat.
Proof.
  intros Hn. unfold steps_left. rewrite (map_to_list_insert js h k Hn). reflexivity.
Qed.

Lemma steps_left_delete (js : gmap nat nat) (h k : nat) :
  js !! h = Some k → steps_left js = (k + steps_left (delete h js))%nat.
Proof.
  intros Hs. unfold steps_left. rewrite <- (map_to_list_delete js h k Hs). reflexivity.
Qed.

(** Every step of a [countdown] task adds one entry to the memory. *)
Lemma countdown_step (w w' : work (Task := nat) (Exn := unit) (Mem := list nat)) :
  task_step countdown w w' →
  (length w'.2 + steps_left w'.1.1 = length w.2 + steps_left w.1.1)%nat.
Proof.
  intros [js fs m h k m' k' Hk He|js fs m h k m' Hk He|js fs m h k m' e Hk He];
    cbn [fst snd]; destruct k as [|k0]; cbn in He; try discriminate.
  - injection He as <- <-.
    rewrite (steps_left_delete js h (S k0) Hk).
    rewrite <- (insert_delete_eq js h k0), steps_left_insert by apply lookup_delete_eq.
    cbn [length]. lia.
  - injection He as <-. rewrite (steps_left_delete js h 0%nat Hk). lia.
Qed.

Lemma countdown_run (w w' : work (Task := nat) (Exn := unit) (Mem := list nat)) :
  rtc (task_step countdown) w w' →
  (length w'.2 + steps_left w'.1.1 = length w.2 + steps_left w.1.1)%nat.
Proof.
  induction 1 as [|a b c Hab _ IH]; [reflexivity|].
  rewrite IH. apply countdown_step. exact Hab.
Qed.

End CountdownRuns.

(** C7.  A worker leaves its loop only in a step taken with [stop] set
    and the queue empty.  When the tasks' bodies end, signalling [stop]
    on a consistent pool that has a worker leads, on every schedule, to
    all workers having left; whenever they have, the queue is empty and
    no future is pending, and what the pool did since the shutdown is a
    run of the bodies of the tasks that were queued or in flight then:
    step by step with [exec], each of them from the program point it was
    at to the step that returns or throws, which is the step that sets
    its future.  No task was dropped. *)
Theorem shutdown_drains_the_queue {Task Exn Mem : Type}
    (exec : Task → Mem → Mem * outcome Task Exn) (tm : Task → nat)
    (p : ThreadPool Task Exn Mem) :
  (∀ k m m' k', exec k m = (m', Continue k') → (tm k' < tm k)%nat) →
  consistent p → stop p = false → workers p ≠ [] →
  (∀ (a b : ThreadPool Task Exn Mem) (i : nat),
     worker_step exec a b →
     workers a !! i ≠ Some Exited → workers b !! i = Some Exited →
     stop a = true ∧ tasks a = [])
  ∧ eventually (worker_step exec) joined_workers (signal_stop p)
  ∧ ∀ p', rtc (worker_step exec) (signal_stop p) p' → joined_workers p' →
          tasks p' = [] ∧ all_ready p' ∧ length (futures p') = length (futures p)
          ∧ rtc (task_step exec) (work_of p) (∅, futures p', mem p').
Proof.
  intros Hend Hc Hstop Hw.
  pose proof (draining_signal_stop p Hc Hstop Hw) as Hd.
  split; [|split].
  - intros a b i. apply step_exit_only_when_drained.
  - apply (draining_terminates exec tm Hend). exact Hd.
  - intros p' Hrtc Hj.
    destruct (draining_joined p' (draining_rtc exec _ _ Hrtc Hd) Hj) as [Hq Hr].
    split; [exact Hq|]. split; [exact Hr|]. split.
    + apply (rtc_futures_length exec) in Hrtc. exact Hrtc.
    + assert (Hcs : consistent (signal_stop p)) by apply Hd.
      apply (work_done exec (signal_stop p) p' Hcs Hrtc).
      apply (consistent_all_ready p' (consistent_rtc exec _ _ Hrtc Hcs)). exact Hr.
Qed.

(** The two [countdown] tasks queued at shutdown take their five steps:
    whenever the workers have left, the memory holds five entries. *)
Lemma shutdown_drains_the_queue_witness :
  eventually (worker_step countdown) joined_workers
    (signal_stop (enqueue 3%nat (enqueue 2%nat (new_ThreadPool 2 0 [])).2).2)
  ∧ ∀ p', rtc (worker_step countdown)
              (signal_stop (enqueue 3%nat (enqueue 2%nat (new_ThreadPool 2 0 [])).2).2) p' →
          joined_workers p' → length (mem p') = 5%nat.
Proof.
  destruct (shutdown_drains_the_queue countdown (λ k, k)
              (enqueue 3%nat (enqueue 2%nat (new_ThreadPool 2 0 [])).2).2)
    as (_ & Hev & Hall).
  - intros k m m' k' H. destruct k; cbn in H; [discriminate|].
    injection H as _ <-. lia.
  - apply consistent_enqueue, consistent_enqueue, consistent_new.
  - reflexivity.
  - discriminate.
  - split; [exact Hev|]. intros p' Hrtc Hj.
    destruct (Hall p' Hrtc Hj) as (_ & _ & _ & Hrun).
    apply countdown_run in Hrun. unfold work_of in Hrun. cbn [fst snd] in Hrun.
    change (steps_left ∅) with 0%nat in Hrun.
    change (length (mem (enqueue 3%nat (enqueue 2%nat (new_ThreadPool 2 0 [])).2).2))
      with 0%nat in Hrun.
    change (steps_left (list_to_map (live (enqueue 3%nat
              (enqueue 2%nat (new_ThreadPool (Exn := unit) 2 0 ([] : list nat))).2).2)))
      with 5%nat in Hrun.
    lia.
Defined.

(** C2, at the failing input.  With [stop] set, [enqueue] of
    parallel_framework.h throws [runtime_error]; [enqueue] of
    diskann_parallel.h pushes the task and hands out a future all the
    same.  When the workers have already left, the pool has no step any
    more: the task stays queued and its future stays pending. *)
Theorem enqueue_after_stop_is_accepted {Task Exn Mem : Type}
    (exec : Task → Mem → Mem * outcome Task Exn) (f : Task)
    (p : ThreadPool Task Exn Mem) (q : ParallelFramework.ThreadPool Task) :
  stop p = true → joined_workers p → ParallelFramework.stop q = true →
  ParallelFramework.enqueue f q
    = ParallelFramework.runtime_error "enqueue on stopped ThreadPool"
  ∧ enqueue f p
    = (length (futures p),
       mkThreadPool (workers p) (tasks p ++ [(length (futures p), f)]) true
                    (futures p ++ [Pending]) (mem p))
  ∧ ∀ p', rtc (worker_step exec) (enqueue f p).2 p' →
          p' = (enqueue f p).2
          ∧ futures p' !! length (futures p) = Some Pending.
Proof.
  intros Hstop Hj Hq. split; [|split].
  - unfold ParallelFramework.enqueue. rewrite Hq. reflexivity.
  - unfold enqueue. rewrite Hstop. reflexivity.
  - intros p' Hrtc.
    assert (Hnone : ∀ a, ¬ worker_step exec (enqueue f p).2 a).
    { intros a Hs. unfold joined_workers in Hj. rewrite Forall_forall in Hj.
      assert (Hw : ∀ i w, workers (enqueue f p).2 !! i = Some w → w = Exited).
      { intros i w Hi. apply Hj. eapply list_elem_of_lookup_2. exact Hi. }
      inversion Hs as [i h g r Hi|i Hi|i h k m' k' Hi|i h k m' Hi|i h k m' e Hi];
        apply Hw in Hi; discriminate. }
    inversion Hrtc as [|a b c Hs _]; subst.
    + split; [reflexivity|]. cbn [enqueue snd futures].
      rewrite lookup_app_r by lia. rewrite Nat.sub_diag. reflexivity.
    + exfalso. eapply Hnone. exact Hs.
Qed.

Lemma enqueue_after_stop_is_accepted_witness :
  enqueue 5%nat (mkThreadPool [Exited; Exited] [] true [@Ready unit] ([] : list nat))
  = (1%nat, mkThreadPool [Exited; Exited] [(1%nat, 5%nat)] true [Ready; Pending] []).
Proof.
  refine (proj1 (proj2 (enqueue_after_stop_is_accepted countdown 5%nat
            (mkThreadPool [Exited; Exited] [] true [@Ready unit] ([] : list nat))
            (ParallelFramework.mkThreadPool [] true) _ _ _))).
  - reflexivity.
  - repeat constructor.
  - reflexivity.
Defined.

(** ** A chunk size of zero *)

Section ZeroChunk.
Context {St Exn : Type}.
Variable fn : Z → St → St * option Exn.
Variables start end_ : Z.
Hypothesis range_nonempty : start < end_.

Abbreviation ppool := (ThreadPool task Exn (memory St)).
Abbreviation pstep := (worker_step (exec fn)).

(** The workers of [parallel_for_dynamic] with [chunk_size = 0]: the
    cursor stays at [start] and every claim is empty. *)
Record spinning (p : ppool) : Prop := mkSpinning {
  spin_consistent : consistent p;
  spin_stop : stop p = false;
  spin_workers : workers p ≠ [];
  spin_cursor : next_chunk (mem p) = start;
  spin_calls : calls (mem p) = [];
  spin_live : live p ≠ [];
  spin_tasks :
    Forall (λ k, k = claim_loop end_ 0 ∨ k = claimed_loop end_ 0 start start) (live p).*2
}.

Lemma spinning_exec (k : task) (m : memory St) :
  k = claim_loop end_ 0 ∨ k = claimed_loop end_ 0 start start →
  next_chunk m = start → calls m = [] →
  ∃ m' k', exec fn k m = (m', Continue k')
           ∧ next_chunk m' = start ∧ calls m' = []
           ∧ (k' = claim_loop end_ 0 ∨ k' = claimed_loop end_ 0 start start).
Proof.
  intros [->| ->] Hcur Hcalls; cbn [exec].
  - rewrite Hcur. destruct (Z.geb_spec start end_); [lia|].
    eexists _, _. split; [reflexivity|]. cbn. split; [lia|]. split; [exact Hcalls|].
    right. f_equal. lia.
  - rewrite Z.ltb_irrefl. eexists _, _. split; [reflexivity|]. auto.
Qed.

Lemma spinning_step (p p' : ppool) : pstep p p' → spinning p → spinning p'.
Proof.
  intros Hs [Hc Hstop Hw Hcur Hcalls Hlive Ht].
  assert (Hc' : consistent p') by (eapply consistent_step; eauto).
  assert (Hstop' : stop p' = false) by (rewrite (step_stop _ _ _ Hs); exact Hstop).
  assert (Hw' : workers p' ≠ []).
  { intros E. apply (f_equal length) in E.
    rewrite (step_workers_length _ _ _ Hs) in E.
    destruct (workers p); [done|discriminate]. }
  assert (Hk : ∀ A B h k, live p = A ++ (h, k) :: B →
            k = claim_loop end_ 0 ∨ k = claimed_loop end_ 0 start start).
  { intros A B h k HA. rewrite HA, fmap_app, fmap_cons in Ht.
    apply Forall_app in Ht as [_ Ht]. apply Forall_cons in Ht as [Ht _]. exact Ht. }
  destruct (step_live_change _ _ _ Hs) as [Hl Hf Hm|A B h k k' HA HB He Hf
                                          |A B h k HA HB He Hf|A B h k e HA HB He Hf].
  - split; try assumption.
    + rewrite Hm. exact Hcur.
    + rewrite Hm. exact Hcalls.
    + intros E. rewrite E in Hl. symmetry in Hl. apply Permutation_nil_r in Hl. done.
    + rewrite Hl. exact Ht.
  - destruct (spinning_exec k (mem p) (Hk _ _ _ _ HA) Hcur Hcalls)
      as (m' & k'' & He' & Hcur' & Hcalls' & Hk').
    rewrite He in He'. injection He' as <- <-.
    split; try assumption.
    + rewrite HB. destruct A; discriminate.
    + rewrite HA in Ht. rewrite HB. rewrite fmap_app, fmap_cons in *.
      apply Forall_app in Ht as [H1 H2]. apply Forall_cons in H2 as [_ H3].
      apply Forall_app. split; [exact H1|]. apply Forall_cons. split; assumption.
  - destruct (spinning_exec k (mem p) (Hk _ _ _ _ HA) Hcur Hcalls)
      as (m' & k'' & He' & _).
    rewrite He in He'. discriminate.
  - destruct (spinning_exec k (mem p) (Hk _ _ _ _ HA) Hcur Hcalls)
      as (m' & k'' & He' & _).
    rewrite He in He'. discriminate.
Qed.

Lemma spinning_rtc (p p' : ppool) : rtc pstep p p' → spinning p → spinning p'.
Proof. induction 1; eauto using spinning_step. Qed.

Lemma spinning_not_ready (p : ppool) : spinning p → ¬ all_ready p.
Proof.
  intros Hsp Hr. apply (consistent_all_ready p (spin_consistent _ Hsp)) in Hr.
  exact (spin_live _ Hsp Hr).
Qed.

Lemma spinning_forever (p : ppool) : spinning p → ¬ eventually pstep all_ready p.
Proof.
  intros Hsp Hev. induction Hev as [a Ha|a _ _ IH].
  - exact (spinning_not_ready a Hsp Ha).
  - destruct (idle_or_step (exec fn) a (spin_consistent _ Hsp) (spin_stop _ Hsp)
                (spin_workers _ Hsp)) as [Hr|[b Hab]].
    + exact (spinning_not_ready a Hsp Hr).
    + exact (IH b Hab (spinning_step a b Hab Hsp)).
Qed.

Lemma spinning_launch (hw : Z) (u : St) :
  0 ≤ hw →
  spinning (launch hw start u
              (replicate (Z.to_nat (worker_count hw 0)) (claim_loop end_ 0))).
Proof.
  intros Hhw. pose proof (worker_count_pos hw Hhw) as Hn.
  destruct (launch_live (Exn := Exn) hw start u
              (replicate (Z.to_nat (worker_count hw 0)) (claim_loop end_ 0))) as [Hl Hm].
  destruct (launch_scheduled (Exn := Exn) end_ 0 hw start u
              (replicate (Z.to_nat (worker_count hw 0)) (claim_loop end_ 0)) Hhw)
    as [Hc Hstop Hw _].
  { apply Forall_replicate. cbn. auto. }
  split; try assumption.
  - rewrite Hm. reflexivity.
  - rewrite Hm. reflexivity.
  - intros E. rewrite E in Hl. apply (f_equal length) in Hl.
    rewrite length_replicate in Hl. cbn [fmap list_fmap length] in Hl. lia.
  - rewrite Hl. apply Forall_replicate. left. reflexivity.
Qed.

End ZeroChunk.

(** C6, at the failing input.  [parallel_for_dynamic] with
    [chunk_size = 0], a non-empty range and more than one worker forks
    the claiming tasks; in every state the pool can reach no index has
    been passed to [fn], a future is still pending and some worker has a
    step: the call neither returns nor makes progress. *)
Theorem parallel_for_dynamic_zero_chunk_spins {St Exn : Type}
    (fn : Z → St → St * option Exn) (hw start end_ : Z) (u : St) :
  0 ≤ hw → 1 < worker_count hw 0 → start < end_ →
  let n := worker_count hw 0 in
  parallel_for_dynamic n start end_ 0
    = fork (replicate (Z.to_nat n) (claim_loop end_ 0))
  ∧ ¬ terminates fn hw start u (parallel_for_dynamic n start end_ 0)
  ∧ (∀ c, ¬ complete fn hw start u (parallel_for_dynamic n start end_ 0) c)
  ∧ ∀ p, rtc (worker_step (exec fn))
             (launch hw start u (replicate (Z.to_nat n) (claim_loop end_ 0))) p →
         calls (mem p) = [] ∧ ¬ all_ready p ∧ ∃ p', worker_step (exec fn) p p'.
Proof.
  intros Hhw Hn Hr n.
  assert (Hd : parallel_for_dynamic n start end_ 0
               = fork (replicate (Z.to_nat n) (claim_loop end_ 0))).
  { unfold parallel_for_dynamic.
    destruct (Z.geb_spec start end_); [lia|].
    destruct (Z.gtb_spec (end_ - start) 0); [|lia].
    destruct (Z.gtb_spec n 1); [|lia]. reflexivity. }
  pose proof (spinning_launch (Exn := Exn) start end_ hw u Hhw) as Hsp.
  assert (Hall : ∀ p, rtc (worker_step (exec fn))
                   (launch hw start u (replicate (Z.to_nat n) (claim_loop end_ 0))) p →
                 spinning start end_ p).
  { intros p Hrtc. eapply spinning_rtc; eauto. }
  split; [exact Hd|]. rewrite Hd. split; [|split].
  - cbn [terminates]. apply (spinning_forever fn start end_ Hr). exact Hsp.
  - intros c Hc. inversion Hc as [| | |ts p Hrtc Hready]; subst.
    exact (spinning_not_ready start end_ p (Hall p Hrtc) Hready).
  - intros p Hrtc. specialize (Hall p Hrtc). split; [apply Hall|]. split.
    + apply (spinning_not_ready start end_ p Hall).
    + destruct (idle_or_step (exec fn) p (spin_consistent _ _ _ Hall)
                  (spin_stop _ _ _ Hall) (spin_workers _ _ _ Hall)) as [Hrdy|Hstep];
        [|exact Hstep].
      exfalso. exact (spinning_not_ready start end_ p Hall Hrdy).
Qed.

Lemma parallel_for_dynamic_zero_chunk_spins_witness :
  ¬ terminates (λ (i : Z) (s : unit), (s, @None unit)) 2 0 tt
      (parallel_for_dynamic (worker_count 2 0) 0 10 0).
Proof.
  refine (proj1 (proj2 (parallel_for_dynamic_zero_chunk_spins
            (λ (i : Z) (s : unit), (s, @None unit)) 2 0 10 tt _ _ _))).
  - lia.
  - reflexivity.
  - lia.
Defined.

(** ** A body that throws *)

Section SwallowedException.

Abbreviation ppool := (ThreadPool task string (memory unit)).
Abbreviation pstep := (worker_step (exec throws_at_0)).

(** The pool of [parallel_for(0, 2000, throws_at_0)] on two workers: the
    task of the first chunk stops at its first call, so index 1 is never
    reached, and its exception ends up in the shared state of future 0. *)
Record truncated (p : ppool) : Prop := mkTruncated {
  tr_consistent : consistent p;
  tr_tasks :
    Forall (λ t : nat * task,
              t = (0%nat, chunk_loop 0 1000)
              ∨ (t.1 ≠ 0%nat ∧ ∃ i ce, t.2 = chunk_loop i ce ∧ 1000 ≤ i)) (live p);
  tr_calls : 1 ∉ calls (mem p);
  tr_future :
    (0%nat, chunk_loop 0 1000) ∈ live p ∨ futures p !! 0%nat = Some (Failed "boom")
}.

Lemma truncated_exec_first (m : memory unit) :
  exec throws_at_0 (chunk_loop 0 1000) m
  = (mkMemory (next_chunk m) (calls m ++ [0]) tt, Throw "boom").
Proof. cbn. destruct (user m). reflexivity. Qed.

Lemma truncated_exec_other (i ce : Z) (m m' : memory unit) (o : outcome task string) :
  1000 ≤ i → exec throws_at_0 (chunk_loop i ce) m = (m', o) →
  (o = Continue (chunk_loop (i + 1) ce) ∧ calls m' = calls m ++ [i])
  ∨ (o = Return ∧ m' = m).
Proof.
  intros Hi He. cbn [exec] in He. destruct (i <? ce).
  - unfold invoke, throws_at_0 in He. destruct (Z.eqb_spec i 0); [lia|].
    injection He as <- <-. left. auto.
  - injection He as <- <-. right. auto.
Qed.

Lemma truncated_step (p p' : ppool) : pstep p p' → truncated p → truncated p'.
Proof.
  intros Hs [Hc Ht Hcalls Hf].
  assert (Hc' : consistent p') by (eapply consistent_step; eauto).
  destruct (step_live_change _ _ _ Hs) as [Hl Hfut Hm|A B h k k' HA HB He Hfut
                                          |A B h k HA HB He Hfut|A B h k e HA HB He Hfut].
  - split; [exact Hc'| | |].
    + rewrite Hl. exact Ht.
    + rewrite Hm. exact Hcalls.
    + rewrite Hl, Hfut. exact Hf.
  - rewrite HA in Ht, Hf. apply Forall_app in Ht as [H1 H2].
    apply Forall_cons in H2 as [H2 H3].
    destruct H2 as [E|(Hh & i & ce & Ek & Hi)].
    { injection E as -> ->. rewrite truncated_exec_first in He. discriminate. }
    cbn [fst snd] in Hh, Ek. subst k.
    destruct (truncated_exec_other i ce _ _ _ Hi He) as [[Ek Hcl]|[Ek _]];
      [|discriminate].
    injection Ek as ->.
    split; [exact Hc'| | |].
    + rewrite HB. apply Forall_app. split; [exact H1|]. apply Forall_cons.
      split; [|exact H3]. right. split; [exact Hh|]. exists (i + 1), ce.
      split; [reflexivity|lia].
    + rewrite Hcl. rewrite elem_of_app, list_elem_of_singleton. intros [?|?]; [auto|lia].
    + rewrite HB, Hfut. destruct Hf as [Hin|Hf]; [left|right; exact Hf].
      rewrite elem_of_app, elem_of_cons in Hin. rewrite elem_of_app, elem_of_cons.
      destruct Hin as [?|[E|?]]; auto. injection E as <- _. done.
  - rewrite HA in Ht, Hf. apply Forall_app in Ht as [H1 H2].
    apply Forall_cons in H2 as [H2 H3].
    destruct H2 as [E|(Hh & i & ce & Ek & Hi)].
    { injection E as -> ->. rewrite truncated_exec_first in He. discriminate. }
    cbn [fst snd] in Hh, Ek. subst k.
    destruct (truncated_exec_other i ce _ _ _ Hi He) as [[Ek _]|[_ Hm]];
      [discriminate|].
    split; [exact Hc'| | |].
    + rewrite HB. apply Forall_app. split; assumption.
    + rewrite Hm. exact Hcalls.
    + rewrite HB, Hfut. rewrite list_lookup_insert_ne by exact Hh.
      destruct Hf as [Hin|Hf]; [left|right; exact Hf].
      rewrite elem_of_app, elem_of_cons in Hin. rewrite elem_of_app.
      destruct Hin as [?|[E|?]]; auto. injection E as <- _. done.
  - rewrite HA in Ht, Hf. apply Forall_app in Ht as [H1 H2].
    apply Forall_cons in H2 as [H2 H3].
    destruct H2 as [E|(Hh & i & ce & Ek & Hi)].
    + injection E as -> ->. rewrite truncated_exec_first in He.
      injection He as Hm <-.
      split; [exact Hc'| | |].
      * rewrite HB. apply Forall_app. split; assumption.
      * rewrite <- Hm. cbn [calls].
        rewrite elem_of_app, list_elem_of_singleton. intros [?|?]; [auto|lia].
      * right. rewrite Hfut. apply list_lookup_insert_eq.
        apply lookup_lt_is_Some. exists Pending.
        apply (live_pending _ Hc). rewrite HA, fmap_app, fmap_cons.
        apply elem_of_app. right. left.
    + cbn [fst snd] in Hh, Ek. subst k.
      destruct (truncated_exec_other i ce _ _ _ Hi He) as [[Ek _]|[Ek _]]; discriminate.
Qed.

Lemma truncated_rtc (p p' : ppool) : rtc pstep p p' → truncated p → truncated p'.
Proof. induction 1; eauto using truncated_step. Qed.

Lemma truncated_launch :
  truncated (launch 2 0 tt [chunk_loop 0 1000; chunk_loop 1000 2000]).
Proof.
  split.
  - apply (launch_scheduled 0 1); [lia|]. repeat constructor.
  - cbn. apply Forall_cons. split; [left; reflexivity|].
    apply Forall_cons. split; [|constructor].
    right. split; [discriminate|].
    exists 1000, 2000. split; [reflexivity|lia].
  - cbn. inversion 1.
  - left. cbn. left.
Qed.

End SwallowedException.

(** C3, at the failing input.  [parallel_for(0, 2000, fn)] on two
    workers, [fn] throwing at index 0: the call ends on every schedule
    and returns normally although index 1 was never visited; the
    exception sits in the shared state of the first task's future, which
    [future.wait()] does not read.  The same body over [0, 10) runs
    inline and lets the exception reach the caller. *)
Theorem parallel_for_swallows_task_exception :
  parallel_for (worker_count 2 0) 0 2000
    = fork [chunk_loop 0 1000; chunk_loop 1000 2000]
  ∧ terminates throws_at_0 2 0 tt (parallel_for (worker_count 2 0) 0 2000)
  ∧ (∃ m, complete throws_at_0 2 0 tt (parallel_for (worker_count 2 0) 0 2000)
                   (returns m))
  ∧ (∀ c, complete throws_at_0 2 0 tt (parallel_for (worker_count 2 0) 0 2000) c →
          ∃ m, c = returns m ∧ 1 ∉ calls m)
  ∧ (∀ p, rtc (worker_step (exec throws_at_0))
              (launch 2 0 tt [chunk_loop 0 1000; chunk_loop 1000 2000]) p →
          all_ready p → futures p !! 0%nat = Some (Failed "boom"))
  ∧ complete throws_at_0 2 0 tt (parallel_for (worker_count 2 0) 0 10)
             (propagates "boom" (mkMemory 0 [0] tt)).
Proof.
  assert (Hd : parallel_for (worker_count 2 0) 0 2000
               = fork [chunk_loop 0 1000; chunk_loop 1000 2000]) by reflexivity.
  assert (Hterm : eventually (worker_step (exec throws_at_0)) all_ready
                    (launch 2 0 tt [chunk_loop 0 1000; chunk_loop 1000 2000])).
  { apply (scheduled_terminates throws_at_0 0 1); [lia|].
    apply (launch_scheduled 0 1); [lia|]. repeat constructor. }
  split; [exact Hd|]. rewrite Hd. split; [|split; [|split; [|split]]].
  - exact Hterm.
  - destruct (eventually_reaches _ _ _ Hterm) as (p & Hrtc & Hready).
    exists (mem p). apply complete_fork; assumption.
  - intros c Hc. inversion Hc as [| | |ts p Hrtc Hready]; subst.
    exists (mem p). split; [reflexivity|].
    apply (tr_calls p). eapply truncated_rtc; [exact Hrtc|apply truncated_launch].
  - intros p Hrtc Hready.
    pose proof (truncated_rtc _ _ Hrtc truncated_launch) as Htr.
    destruct (tr_future p Htr) as [Hin|Hf]; [|exact Hf].
    apply (consistent_all_ready p (tr_consistent p Htr)) in Hready.
    rewrite Hready in Hin. inversion Hin.
  - change (parallel_for (worker_count 2 0) 0 10) with (inline 0 10).
    apply complete_inline_throw. reflexivity.
Qed.

(** ** Reductions *)

(** C4, as amended.  [parallel_reduce] of parallel_utils.h and of
    diskann_parallel.h: on the parallel path the partitions are
    contiguous, ascending and cover the range, and the result is the
    fold with [reduce_op], in ascending partition order, of the
    partitions' own folds; for an associative [reduce_op] with
    [identity] as right unit it is the sequential fold, whatever the
    thread count.  [parallel_reduce] of parallel_framework.h: the result
    is the fold of the slot vector in ascending slot order, and the
    partial result of a partition sits in the slot given by its thread's
    id modulo the thread count. *)
Theorem parallel_reduce_combines_partials_in_order :
  (∀ (T : Type) (identity : T) (reduce_op : T → T → T) (transform_op : Z → T)
     (hw start end_ num_threads : Z),
     let n := if num_threads <=? 0 then ParallelUtils.get_num_threads hw else num_threads in
     let parts :=
       split_loop (Z.to_nat n) 0 start ((end_ - start) `quot` n) ((end_ - start) `rem` n) in
     (n ≤ end_ - start → n ≠ 1 →
        ranges parts = seqZ start (end_ - start)
        ∧ ParallelUtils.parallel_reduce hw start end_ identity reduce_op transform_op
                                        num_threads
          = in_order_fold identity reduce_op transform_op parts)
     ∧ ((∀ a b c, reduce_op (reduce_op a b) c = reduce_op a (reduce_op b c)) →
        (∀ a, reduce_op a identity = a) →
        ParallelUtils.parallel_reduce hw start end_ identity reduce_op transform_op
                                      num_threads
        = fold_range reduce_op transform_op identity start end_))
  ∧ (∀ (T : Type) (init : T) (op : T → T → T) (num_threads : Z) (data : list T),
       let chunks :=
         DiskannParallel.reduce_chunks (Z.to_nat num_threads) 0 num_threads
           (Z.to_nat (Z.of_nat (length data) `quot` num_threads)) data in
       (1000 < Z.of_nat (length data) → 1 < num_threads →
          concat chunks = data
          ∧ DiskannParallel.parallel_reduce num_threads data init op
            = foldl op init (map (foldl op init) chunks))
       ∧ ((∀ a b c, op (op a b) c = op a (op b c)) → (∀ a, op a init = a) →
          DiskannParallel.parallel_reduce num_threads data init op = foldl op init data))
  ∧ (∀ (T : Type) (identity : T) (reduce_op : T → T → T) (transform_op : Z → T)
       (global_num_threads caller_id : Z) (ids : list Z) (start end_ num_threads : Z),
       let n := if num_threads <=? 0 then global_num_threads else num_threads in
       let parts :=
         split_loop (Z.to_nat n) 0 start ((end_ - start) `quot` n) ((end_ - start) `rem` n) in
       0 < n → n * 2 ≤ end_ - start → n ≠ 1 →
       Forall (λ id, 0 ≤ id) ids → length ids = Z.to_nat n →
       NoDup (map (λ id, Z.to_nat (id `rem` n)) ids) →
       ∃ filled : list T,
         ParallelFramework.parallel_reduce global_num_threads caller_id ids start end_
           identity transform_op reduce_op num_threads
         = Some (foldl reduce_op identity filled)
         ∧ length filled = Z.to_nat n
         ∧ ∀ (t : nat) (id lo hi : Z),
             ids !! t = Some id → parts !! t = Some (lo, hi) →
             filled !! Z.to_nat (id `rem` n)
             = Some (fold_range reduce_op transform_op identity lo hi)).
Proof.
  split; [|split].
  - intros T identity reduce_op transform_op hw start end_ num_threads n parts. split.
    + apply utils_reduce_parallel.
    + intros Ha Hi. apply utils_reduce_monoid; assumption.
  - intros T init op num_threads data chunks. split.
    + apply diskann_reduce_parallel.
    + intros Ha Hi. apply diskann_reduce_monoid; assumption.
  - intros T identity reduce_op transform_op g c ids start end_ num_threads.
    apply framework_reduce_slots.
Qed.

(** C4, counterexample.  The calling thread has id 0; the threads of
    partitions 0 and 1 get the ids 1 and 2, hence the slots 1 and 0.
    With list concatenation, an associative operation, the result of
    parallel_framework.h's [parallel_reduce] over [0, 4) is
    [[2; 3; 0; 1]], not the in-order fold [[0; 1; 2; 3]]. *)
Lemma framework_parallel_reduce_follows_thread_ids :
  (ParallelFramework.first_calls [1%nat; 2%nat]
     (ParallelFramework.get_thread_num 0%nat (ParallelFramework.mkThreadIds 0 ∅)).2).1
  = [1; 2]
  ∧ split_loop 2 0 0 (4 `quot` 2) (4 `rem` 2) = [(0, 2); (2, 4)]
  ∧ ParallelFramework.parallel_reduce 2 0 [1; 2] 0 4 [] (λ i, [i]) app 2
    = Some [2; 3; 0; 1]
  ∧ in_order_fold [] app (λ i, [i]) [(0, 2); (2, 4)] = [0; 1; 2; 3]
  ∧ ParallelFramework.parallel_reduce 2 0 [1; 2] 0 4 [] (λ i, [i]) app 2
    ≠ Some (in_order_fold [] app (λ i, [i]) [(0, 2); (2, 4)]).
Proof.
  split; [vm_compute; reflexivity|].
  split; [reflexivity|].
  split; [reflexivity|].
  split; [reflexivity|].
  vm_compute. discriminate.
Qed.

Section ReduceSum.

Lemma utils_sum (hw N num_threads : Z) :
  0 ≤ N →
  ParallelUtils.parallel_reduce hw 0 N 0 Z.add (λ i, i) num_threads = N * (N - 1) / 2.
Proof.
  intros HN. rewrite utils_reduce_monoid; [apply sum_range; exact HN| |].
  - intros a b c. lia.
  - intros a. lia.
Qed.

End ReduceSum.

(** C5.  For [N] in {0, 1, 2, 1000, 1000000}, the sum of the identity
    transform over [0, N) with [+] from 0 is [N * (N - 1) / 2]: for
    [parallel_reduce] of parallel_utils.h with any thread count argument
    and hardware concurrency, and for [parallel_reduce] of
    parallel_framework.h with a positive thread count whose threads got
    consecutive ids.  For [N = 0] the result is the identity, for
    [N = 1] it is [reduce_op identity (transform_op 0)]. *)
Theorem parallel_reduce_sums_the_range (N : Z) :
  N ∈ [0; 1; 2; 1000; 1000000] →
  (∀ hw num_threads : Z,
     ParallelUtils.parallel_reduce hw 0 N 0 Z.add (λ i, i) num_threads = N * (N - 1) / 2)
  ∧ (∀ (global_num_threads caller_id first : Z) (ids : list Z) (num_threads : Z),
       let n := if num_threads <=? 0 then global_num_threads else num_threads in
       0 < n → 0 ≤ caller_id → 0 ≤ first → ids ≡ₚ seqZ first n →
       ParallelFramework.parallel_reduce global_num_threads caller_id ids 0 N 0
         (λ i, i) Z.add num_threads
       = Some (N * (N - 1) / 2))
  ∧ (∀ (T : Type) (identity : T) (reduce_op : T → T → T) (transform_op : Z → T)
       (hw num_threads : Z),
       ParallelUtils.parallel_reduce hw 0 0 identity reduce_op transform_op num_threads
       = identity
       ∧ ParallelUtils.parallel_reduce hw 0 1 identity reduce_op transform_op num_threads
         = reduce_op identity (transform_op 0)).
Proof.
  intros HN.
  assert (H0 : 0 ≤ N).
  { repeat (apply elem_of_cons in HN as [->|HN]; [lia|]). inversion HN. }
  split; [|split].
  - intros hw num_threads. apply utils_sum. exact H0.
  - intros g c first ids num_threads n Hn Hc Hf Hids.
    apply framework_sum; try assumption.
    + fold n. rewrite Hids. apply Forall_forall. intros x Hx.
      apply elem_of_seqZ in Hx. lia.
    + fold n. rewrite Hids. rewrite length_seqZ. reflexivity.
  - intros T identity reduce_op transform_op hw num_threads. split; [reflexivity|].
    pose proof (utils_threads_pos hw num_threads) as Hpos.
    rewrite utils_reduce_sequential; [reflexivity|]. cbv zeta. lia.
Qed.

Lemma parallel_reduce_sums_the_range_witness :
  ParallelUtils.parallel_reduce 8 0 1000 0 Z.add (λ i, i) (-1) = 499500
  ∧ ParallelFramework.parallel_reduce 4 0 [6; 4; 5; 7] 0 1000 0 (λ i, i) Z.add (-1)
    = Some 499500.
Proof.
  destruct (parallel_reduce_sums_the_range 1000) as (H1 & H2 & _).
  - repeat constructor.
  - split.
    + apply (H1 8 (-1)).
    + apply (H2 4 0 4 [6; 4; 5; 7] (-1)); [reflexivity|lia|lia|].
      change (seqZ 4 4) with [4; 5; 6; 7].
      apply (bool_decide_unpack _). vm_compute. exact I.
Defined.

(** * Further entry points and the pool in service *)

(** ** Threads of their own: std::thread and std::async *)

Section ThreadFacts.
Import Threads.
Context {St Exn : Type}.
Variable fn : Z → St → St * option Exn.

Abbreviation ppool := (ThreadPool task Exn (memory St)).
Abbreviation pstep := (worker_step (exec fn)).
Abbreviation tstep := (thread_step fn).

(** A run seen as a pool: the thread [h] is a worker inside the task
    with handle [h], the queue is empty and stays so. *)
Definition as_worker (h : nat) (t : thread Exn) : worker task :=
  match t with
  | Started k => Running h k
  | _ => Waiting
  end.

Definition as_future (t : thread Exn) : shared_state Exn :=
  match t with
  | Started _ => Pending
  | Finished => Ready
  | Raised e => Failed e
  end.

Definition as_pool (s : run St Exn) : ppool :=
  mkThreadPool (imap as_worker (threads s)) [] false (as_future <$> threads s) (shared s).

Lemma imap_insert {A B : Type} (f : nat → A → B) (l : list A) (i : nat) (x : A) :
  imap f (<[i := x]> l) = <[i := f i x]> (imap f l).
Proof.
  apply list_eq. intros j. rewrite list_lookup_imap.
  destruct (decide (j = i)) as [->|Hne].
  - destruct (decide (i < length l)%nat) as [Hlt|Hge].
    + rewrite !list_lookup_insert_eq by (rewrite ?length_imap; exact Hlt). reflexivity.
    + rewrite !list_insert_ge by (rewrite ?length_imap; lia).
      rewrite list_lookup_imap. reflexivity.
  - rewrite !list_lookup_insert_ne by congruence.
    rewrite list_lookup_imap. reflexivity.
Qed.

Lemma as_pool_worker (s : run St Exn) (i : nat) (k : task) :
  threads s !! i = Some (Started k) → workers (as_pool s) !! i = Some (Running i k).
Proof.
  intros H. cbn [as_pool workers]. rewrite list_lookup_imap, H. reflexivity.
Qed.

Lemma as_pool_running (s : run St Exn) (i h : nat) (k : task) :
  workers (as_pool s) !! i = Some (Running h k) →
  h = i ∧ threads s !! i = Some (Started k).
Proof.
  cbn [as_pool workers]. rewrite list_lookup_imap.
  destruct (threads s !! i) as [[k'| |e]|]; cbn; try discriminate.
  intros [= -> ->]. auto.
Qed.

Lemma as_pool_step (s s' : run St Exn) :
  tstep s s' → pstep (as_pool s) (as_pool s').
Proof.
  intros [i k m' k' Hi He|i k m' Hi He|i k m' e Hi He]; unfold as_pool at 2;
    cbn [threads shared]; rewrite imap_insert, list_fmap_insert; cbn [as_worker as_future].
  - replace (<[i := Pending]> (as_future <$> threads s)) with (as_future <$> threads s).
    + apply (step_continue (exec fn) (as_pool s) i i k m' k');
        [apply as_pool_worker; exact Hi|exact He].
    + symmetry. apply list_insert_id. rewrite list_lookup_fmap, Hi. reflexivity.
  - apply (step_return (exec fn) (as_pool s) i i k m');
      [apply as_pool_worker; exact Hi|exact He].
  - apply (step_throw (exec fn) (as_pool s) i i k m' e);
      [apply as_pool_worker; exact Hi|exact He].
Qed.

Lemma as_pool_rtc (s s' : run St Exn) :
  rtc tstep s s' → rtc pstep (as_pool s) (as_pool s').
Proof.
  induction 1 as [|s1 s2 s3 H12 _ IH]; [apply rtc_refl|].
  eapply rtc_l; [apply as_pool_step; exact H12|exact IH].
Qed.

(** Nothing but the threads moves in the pool of a run. *)
Lemma as_pool_step_inv (s : run St Exn) (p' : ppool) :
  pstep (as_pool s) p' → ∃ s', tstep s s' ∧ p' = as_pool s'.
Proof.
  intros Hp.
  assert (Hex : ∃ s', tstep s s').
  { inversion Hp as [i h f q Hi Hq|i Hi Hstop Hq|i h k m' k' Hi He|i h k m' Hi He
                    |i h k m' e Hi He]; subst.
    - discriminate Hq.
    - discriminate Hstop.
    - apply as_pool_running in Hi as [-> Hi]. eexists. eapply thread_continue; eauto.
    - apply as_pool_running in Hi as [-> Hi]. eexists. eapply thread_return; eauto.
    - apply as_pool_running in Hi as [-> Hi]. eexists. eapply thread_raise; eauto. }
  inversion Hp as [i h f q Hi Hq|i Hi Hstop Hq|i h k m' k' Hi He|i h k m' Hi He
                  |i h k m' e Hi He]; subst.
  - discriminate Hq.
  - discriminate Hstop.
  - apply as_pool_running in Hi as [-> Hi].
    exists (mkRun (<[i := Started k']> (threads s)) m').
    split; [eapply thread_continue; eauto|].
    unfold as_pool. cbn [threads shared workers tasks stop futures mem].
    rewrite imap_insert, list_fmap_insert. cbn [as_worker as_future]. f_equal.
    symmetry. apply list_insert_id. rewrite list_lookup_fmap, Hi. reflexivity.
  - apply as_pool_running in Hi as [-> Hi].
    exists (mkRun (<[i := Finished]> (threads s)) m').
    split; [eapply thread_return; eauto|].
    unfold as_pool. cbn [threads shared workers tasks stop futures mem].
    rewrite imap_insert, list_fmap_insert. reflexivity.
  - apply as_pool_running in Hi as [-> Hi].
    exists (mkRun (<[i := Raised e]> (threads s)) m').
    split; [eapply thread_raise; eauto|].
    unfold as_pool. cbn [threads shared workers tasks stop futures mem].
    rewrite imap_insert, list_fmap_insert. reflexivity.
Qed.

Lemma as_pool_waited (s : run St Exn) : all_ready (as_pool s) ↔ waited s.
Proof.
  unfold all_ready, waited. cbn [as_pool futures]. rewrite Forall_fmap.
  apply Forall_iff. intros [k| |e]; cbn; split; intros H; try congruence;
    try (intros ?; discriminate).
  exfalso. apply (H k). reflexivity.
Qed.

Lemma as_pool_eventually (s : run St Exn) :
  eventually pstep all_ready (as_pool s) → eventually tstep waited s.
Proof.
  intros H. remember (as_pool s) as p eqn:E. revert s E.
  induction H as [p Hp|p [b Hb] _ IH]; intros s ->.
  - apply ev_here. apply as_pool_waited. exact Hp.
  - apply ev_next.
    { destruct (as_pool_step_inv _ _ Hb) as (s' & Hs & _). exists s'. exact Hs. }
    intros s' Hs. apply (IH (as_pool s')); [apply as_pool_step; exact Hs|reflexivity].
Qed.

Lemma as_pool_eventually_inv (s : run St Exn) :
  eventually tstep waited s → eventually pstep all_ready (as_pool s).
Proof.
  induction 1 as [s Hs|s [s' Hs] _ IH].
  - apply ev_here. apply as_pool_waited. exact Hs.
  - apply ev_next; [exists (as_pool s'); apply as_pool_step; exact Hs|].
    intros p' Hp. destruct (as_pool_step_inv _ _ Hp) as (s'' & Hs'' & ->).
    apply IH. exact Hs''.
Qed.

(** The tasks in flight right after the threads were started. *)
Lemma running_started (n : nat) (ts : list task) :
  running (imap (λ i, as_worker (n + i)) (Started <$> ts))
  = zip (seq n (length ts)) ts.
Proof.
  revert n. induction ts as [|k ts IH]; intros n; [reflexivity|].
  rewrite fmap_cons, imap_cons. cbn [length seq zip zip_with as_worker].
  rewrite Nat.add_0_r. rewrite running_cons. cbn [app]. f_equal.
  rewrite <- IH. f_equal. apply imap_ext. intros i x _. cbn.
  f_equal. lia.
Qed.

Lemma start_threads_live (start : Z) (u : St) (ts : list task) :
  live (as_pool (start_threads (Exn := Exn) start u ts)) = zip (seq 0 (length ts)) ts.
Proof.
  unfold live. cbn [as_pool start_threads threads tasks workers app].
  exact (running_started 0 ts).
Qed.

Lemma start_threads_consistent (start : Z) (u : St) (ts : list task) :
  consistent (as_pool (start_threads (Exn := Exn) start u ts)).
Proof.
  split.
  - rewrite start_threads_live. rewrite fst_zip by (rewrite length_seq; lia).
    apply NoDup_seq.
  - intros h. rewrite start_threads_live. rewrite fst_zip by (rewrite length_seq; lia).
    cbn [as_pool start_threads threads futures].
    rewrite elem_of_seq, list_lookup_fmap, list_lookup_fmap.
    split.
    + intros [_ Hlt]. destruct (lookup_lt_is_Some_2 ts h) as [k Hk]; [lia|].
      rewrite Hk. reflexivity.
    + intros Hl. destruct (ts !! h) as [k|] eqn:Hk; [|discriminate].
      apply lookup_lt_Some in Hk. lia.
  - intros _. cbn [as_pool workers]. apply Forall_forall. intros w Hw.
    apply elem_of_lookup_imap_1 in Hw as (i & t & -> & _). destruct t; discriminate.
Qed.

Lemma start_threads_scheduled (limit chunk start : Z) (u : St) (ts : list task) :
  ts ≠ [] → Forall (claims_from limit chunk) ts →
  scheduled limit chunk (as_pool (start_threads (Exn := Exn) start u ts)).
Proof.
  intros Hne Hts. split.
  - apply start_threads_consistent.
  - reflexivity.
  - cbn [as_pool start_threads threads workers]. destruct ts; [done|discriminate].
  - rewrite start_threads_live. rewrite snd_zip by (rewrite length_seq; lia). exact Hts.
Qed.

Lemma start_threads_covering (limit chunk start : Z) (u : St) (ts : list task)
    (R : list Z) :
  ts ≠ [] → Forall (claims_from limit chunk) ts →
  pending ts ++ unclaimed limit start ≡ₚ R →
  limit ≤ start ∨ Exists is_claiming ts →
  covering fn limit chunk R u (as_pool (start_threads (Exn := Exn) start u ts)).
Proof.
  intros Hne Hts HR Hcur.
  assert (Hl : (live (as_pool (start_threads (Exn := Exn) start u ts))).*2 = ts).
  { rewrite start_threads_live. apply snd_zip. rewrite length_seq. lia. }
  split.
  - apply start_threads_scheduled; assumption.
  - rewrite Hl. exact HR.
  - rewrite Hl. exact Hcur.
  - reflexivity.
Qed.

Hypothesis fn_nothrow : nothrow fn.

(** No thread is left by an exception when the body throws none. *)
Definition unraised (s : run St Exn) : Prop :=
  Forall (λ t, ∀ e, t ≠ Raised e) (threads s).

Lemma exec_nothrow (k : task) (m m' : memory St) (e : Exn) :
  exec fn k m ≠ (m', Throw e).
Proof.
  destruct k as [i ce|en c|en c i ce]; cbn [exec].
  - destruct (i <? ce); [|congruence].
    rewrite (invoke_nothrow fn fn_nothrow). congruence.
  - destruct (next_chunk m >=? en); congruence.
  - destruct (i <? ce); [|congruence].
    rewrite (invoke_nothrow fn fn_nothrow). congruence.
Qed.

Lemma unraised_step (s s' : run St Exn) : tstep s s' → unraised s → unraised s'.
Proof.
  intros [i k m' k' Hi He|i k m' Hi He|i k m' e Hi He] Hu; unfold unraised in *;
    cbn [threads].
  - apply Forall_insert; [exact Hu|discriminate].
  - apply Forall_insert; [exact Hu|discriminate].
  - exfalso. exact (exec_nothrow _ _ _ _ He).
Qed.

Lemma unraised_rtc (s s' : run St Exn) : rtc tstep s s' → unraised s → unraised s'.
Proof. induction 1; eauto using unraised_step. Qed.

Lemma unraised_start (start : Z) (u : St) (ts : list task) :
  unraised (start_threads start u ts).
Proof.
  unfold unraised. cbn [start_threads threads]. rewrite Forall_fmap.
  apply Forall_forall. intros k _ e. discriminate.
Qed.

Lemma unraised_joined (s : run St Exn) : unraised s → (waited s ↔ joined s).
Proof.
  unfold unraised, waited, joined. intros Hu. split; intros H.
  - apply Forall_forall. intros t Ht.
    eapply Forall_forall in Hu; [|exact Ht]. eapply Forall_forall in H; [|exact Ht].
    destruct t as [k| |e]; [destruct (H k)|reflexivity|destruct (Hu e)]; reflexivity.
  - eapply Forall_impl; [exact H|]. intros t -> k. discriminate.
Qed.

Lemma eventually_joined (s : run St Exn) :
  unraised s → eventually tstep waited s → eventually tstep joined s.
Proof.
  intros Hu H. induction H as [s Hs|s Hex _ IH].
  - apply ev_here. apply unraised_joined; assumption.
  - apply ev_next; [exact Hex|]. intros b Hb. apply IH; [exact Hb|].
    eapply unraised_step; eauto.
Qed.

(** Threads whose closures cover [start, end) call [fn] once with every
    index, whether they are joined or waited for. *)
Lemma in_threads_visits (limit chunk start end_ : Z) (u : St) (ts : list task) :
  0 < chunk → ts ≠ [] → Forall (claims_from limit chunk) ts →
  pending ts ++ unclaimed limit start ≡ₚ seqZ start (end_ - start) →
  limit ≤ start ∨ Exists is_claiming ts →
  runs_each_once fn waited start end_ u (in_threads ts)
  ∧ runs_each_once fn joined start end_ u (in_threads ts).
Proof.
  intros Hc Hne Hts HR Hcur.
  pose proof (start_threads_covering limit chunk start u ts _ Hne Hts HR Hcur) as Hcov.
  assert (Hterm : eventually tstep waited (start_threads start u ts)).
  { apply as_pool_eventually. eapply scheduled_terminates; [exact Hc|]. apply Hcov. }
  assert (Hfin : ∀ s, rtc tstep (start_threads start u ts) s → waited s →
                  calls (shared s) ≡ₚ seqZ start (end_ - start)
                  ∧ (disjoint_slots fn → user (shared s) = loop_state fn start end_ u)).
  { intros s Hrtc Hw.
    pose proof (covering_rtc fn fn_nothrow limit chunk Hc _ _ _ _
                  (as_pool_rtc _ _ Hrtc) Hcov) as Hcov'.
    destruct (covering_all_ready fn limit chunk _ _ _ Hcov') as [Hperm Hu].
    { apply as_pool_waited. exact Hw. }
    cbn [as_pool mem] in Hperm, Hu.
    split; [exact Hperm|]. intros Hd. rewrite Hu. unfold loop_state.
    apply (replay_permutation fn u _ _ Hd Hperm).
    rewrite Hperm. apply NoDup_seqZ. }
  split.
  - split; [exact Hterm|]. split.
    + destruct (eventually_reaches _ _ _ Hterm) as (s & Hrtc & Hw).
      exists (returns (shared s)). apply finish_in_threads; assumption.
    + intros c Hf. inversion Hf as [| | |ts' s Hrtc Hw]; subst.
      exists (shared s). split; [reflexivity|]. apply Hfin; assumption.
  - assert (Hterm' : eventually tstep joined (start_threads start u ts)).
    { apply eventually_joined; [apply unraised_start|exact Hterm]. }
    split; [exact Hterm'|]. split.
    + destruct (eventually_reaches _ _ _ Hterm') as (s & Hrtc & Hj).
      exists (returns (shared s)). apply finish_in_threads; assumption.
    + intros c Hf. inversion Hf as [| | |ts' s Hrtc Hj]; subst.
      exists (shared s). split; [reflexivity|]. apply Hfin; [exact Hrtc|].
      apply unraised_joined; [|exact Hj].
      eapply unraised_rtc; [exact Hrtc|apply unraised_start].
Qed.

Lemma in_caller_visits (done : run St Exn → Prop) (start end_ : Z) (u : St) :
  runs_each_once fn done start end_ u (in_caller start end_).
Proof.
  split; [exact I|]. split.
  { eexists. apply finish_in_caller. unfold sequential_loop.
    apply (for_each_nothrow fn _ _ fn_nothrow). }
  intros c Hf.
  inversion Hf as [|a b m Hseq|a b m e Hseq|]; subst;
    unfold sequential_loop in Hseq; rewrite (for_each_nothrow fn _ _ fn_nothrow) in Hseq;
    [|discriminate].
  injection Hseq as <-. eexists. split; [reflexivity|]. cbn. split; reflexivity.
Qed.

Lemma skip_visits (done : run St Exn → Prop) (start end_ : Z) (u : St) :
  end_ ≤ start → runs_each_once fn done start end_ u skip.
Proof.
  intros Hle. split; [exact I|]. split; [eexists; apply finish_skip|].
  intros c Hf. inversion Hf; subst.
  eexists. split; [reflexivity|]. cbn. unfold loop_state.
  rewrite seqZ_nil by lia. split; reflexivity.
Qed.

Lemma partition_loops_pending (parts : list (Z * Z)) :
  pending (partition_loops parts) = ranges parts.
Proof.
  unfold pending, partition_loops, ranges.
  induction parts as [|p parts IH]; [reflexivity|].
  cbn [map concat]. rewrite bind_cons, IH. reflexivity.
Qed.

Lemma partition_loops_claims (limit chunk : Z) (parts : list (Z * Z)) :
  Forall (claims_from limit chunk) (partition_loops parts).
Proof. unfold partition_loops. rewrite Forall_map. apply Forall_forall. intros; exact I. Qed.

(** The static split of a non-empty range among [n] threads. *)
Lemma split_visits (start end_ n : Z) (u : St) :
  0 < n → n ≤ end_ - start →
  let ts := partition_loops
              (split_loop (Z.to_nat n) 0 start ((end_ - start) `quot` n)
                          ((end_ - start) `rem` n)) in
  runs_each_once fn waited start end_ u (in_threads ts)
  ∧ runs_each_once fn joined start end_ u (in_threads ts).
Proof.
  intros Hn Hle ts.
  apply (in_threads_visits start 1); [lia| |apply partition_loops_claims| |left; lia].
  - intros E. apply (f_equal length) in E. unfold ts, partition_loops in E.
    rewrite length_map, split_loop_length in E. cbn in E. lia.
  - unfold ts. rewrite partition_loops_pending, split_loop_covers by lia.
    unfold unclaimed. rewrite (seqZ_nil start (start - start)) by lia.
    rewrite app_nil_r. reflexivity.
Qed.


End ThreadFacts.

Section ThreadRuns.
Import Threads.
Context {St Exn : Type}.
Variable fn : Z → St → St * option Exn.

Abbreviation tstep := (thread_step fn).

Lemma eventually_weaken {A : Type} (R : relation A) (P Q : A → Prop) (a : A) :
  (∀ x, P x → Q x) → eventually R P a → eventually R Q a.
Proof.
  intros HPQ. induction 1 as [a Ha|a Hex _ IH].
  - apply ev_here. auto.
  - apply ev_next; [exact Hex|exact IH].
Qed.

Lemma joined_waited (s : run St Exn) : joined s → waited s.
Proof.
  unfold joined, waited. intros H. eapply Forall_impl; [exact H|].
  intros t -> k. discriminate.
Qed.

(** Claiming threads with a chunk size of zero never get anywhere. *)
Lemma claim_zero_spins (start end_ n : Z) (u : St) :
  start < end_ → 0 < n →
  let s0 := start_threads (Exn := Exn) start u
              (replicate (Z.to_nat n) (claim_loop end_ 0)) in
  ¬ eventually tstep waited s0
  ∧ ∀ s, rtc tstep s0 s → calls (shared s) = [] ∧ ¬ waited s ∧ ∃ s', tstep s s'.
Proof.
  intros Hr Hn s0.
  assert (Hne : replicate (Z.to_nat n) (claim_loop end_ 0) ≠ []).
  { intros E. apply (f_equal length) in E. rewrite length_replicate in E. cbn in E. lia. }
  assert (Hsp : spinning start end_ (as_pool s0)).
  { destruct (start_threads_scheduled (Exn := Exn) end_ 0 start u _ Hne)
      as [Hc Hstop Hw _].
    { apply Forall_replicate. cbn. auto. }
    assert (Hl : (live (as_pool s0)).*2 = replicate (Z.to_nat n) (claim_loop end_ 0)).
    { unfold s0. rewrite start_threads_live. apply snd_zip. rewrite length_seq. lia. }
    split; try assumption.
    - reflexivity.
    - reflexivity.
    - intros E. rewrite E in Hl. cbn in Hl. congruence.
    - rewrite Hl. apply Forall_replicate. left. reflexivity. }
  split.
  - intros Hev. apply (spinning_forever fn start end_ Hr (as_pool s0) Hsp).
    apply as_pool_eventually_inv. exact Hev.
  - intros s Hrtc.
    pose proof (spinning_rtc fn start end_ Hr _ _ (as_pool_rtc fn _ _ Hrtc) Hsp) as Hs.
    assert (Hnr : ¬ waited s).
    { intros Hw. apply (spinning_not_ready start end_ (as_pool s) Hs).
      apply as_pool_waited. exact Hw. }
    split; [exact (spin_calls _ _ _ Hs)|]. split; [exact Hnr|].
    destruct (idle_or_step (exec fn) (as_pool s) (spin_consistent _ _ _ Hs)
                (spin_stop _ _ _ Hs) (spin_workers _ _ _ Hs)) as [Hrdy|[p' Hp]].
    + exfalso. apply Hnr. apply as_pool_waited. exact Hrdy.
    + destruct (as_pool_step_inv fn _ _ Hp) as (s' & Hs' & _). exists s'. exact Hs'.
Qed.

(** No thread, no step. *)
Lemma no_threads_no_step (m : memory St) (s : run St Exn) :
  rtc tstep (mkRun [] m) s → s = mkRun [] m.
Proof.
  intros H. inversion H as [|a b c Hs _]; subst; [reflexivity|].
  inversion Hs as [i k m' k' Hi|i k m' Hi|i k m' e Hi]; discriminate Hi.
Qed.

End ThreadRuns.

(** ** parallel_for and parallel_for_dynamic of parallel_utils.h *)

Section UtilsLoopFacts.
Import Threads ParallelUtilsLoops.

Lemma thread_count_pos (hw num_threads : Z) :
  0 ≤ hw ≤ INT_MAX → 0 < thread_count hw num_threads.
Proof.
  intros Hhw. unfold thread_count, ParallelUtils.get_num_threads.
  destruct (Z.leb_spec num_threads 0); [|lia].
  destruct (Z.ltb_spec 0 hw).
  - rewrite wrap_int_small; [lia|]. unfold INT_MIN, INT_MAX in *. lia.
  - reflexivity.
Qed.

End UtilsLoopFacts.

(** X1.  [parallel_for] of parallel_utils.h, for a body that does not
    throw and a hardware concurrency that fits an [int]: whatever the
    thread count argument, the call ends on every schedule of its
    threads, all joins return, and [fn] has then been called exactly
    once with every index of [start, end); independent calls leave the
    state of the sequential loop.  With [end <= start] nothing is
    started and nothing is called. *)
Theorem utils_parallel_for_visits_each_index_once {St Exn : Type}
    (fn : Z → St → St * option Exn) (hw start end_ num_threads : Z) (u : St) :
  nothrow fn → 0 ≤ hw ≤ INT_MAX →
  Threads.runs_each_once fn Threads.joined start end_ u
    (ParallelUtilsLoops.parallel_for hw start end_ num_threads)
  ∧ (end_ ≤ start →
     ParallelUtilsLoops.parallel_for hw start end_ num_threads = Threads.skip).
Proof.
  intros Hn Hhw. pose proof (thread_count_pos hw num_threads Hhw) as Hpos.
  unfold ParallelUtilsLoops.parallel_for.
  set (n := ParallelUtilsLoops.thread_count hw num_threads) in *.
  destruct (Z.leb_spec (end_ - start) 0) as [He|He].
  { split; [apply skip_visits; lia|reflexivity]. }
  split; [|lia].
  destruct (Z.ltb_spec (end_ - start) n) as [Hlt|Hge]; [apply in_caller_visits; exact Hn|].
  destruct (Z.eqb_spec n 1) as [H1|H1]; [apply in_caller_visits; exact Hn|].
  cbn [orb]. apply (split_visits fn Hn start end_ n u); lia.
Qed.

Lemma utils_parallel_for_visits_each_index_once_witness :
  Threads.runs_each_once (write_slot (λ i, i * i)) Threads.joined 0 10 ∅
    (ParallelUtilsLoops.parallel_for 4 0 10 (-1)).
Proof.
  refine (proj1 (utils_parallel_for_visits_each_index_once
                   (write_slot (λ i, i * i)) 4 0 10 (-1) ∅ _ _)).
  - intros i s. reflexivity.
  - unfold INT_MAX. lia.
Defined.



(** X3.  A chunk size of zero in the claiming loops outside
    diskann_parallel.h: [parallel_for_dynamic] of parallel_utils.h and
    the dynamic branch of [parallel_for_executor::execute], once they
    start their threads, never get them back.  In every state the
    threads can reach, [fn] has not been called, some thread is still
    inside its closure and some thread has a step. *)
Theorem dynamic_loops_zero_chunk_spin {St Exn : Type}
    (fn : Z → St → St * option Exn) (start end_ n : Z) (u : St) :
  1 < n → n * 2 ≤ end_ - start →
  let ts := replicate (Z.to_nat n) (claim_loop end_ 0) in
  (∀ hw, ParallelUtilsLoops.parallel_for_dynamic hw start end_ 0 n = Threads.in_threads ts)
  ∧ (∀ global, ParallelFrameworkExecutor.parallel_for global start end_ n true 0
               = Some (Threads.in_threads ts))
  ∧ ¬ Threads.ends fn Threads.joined start u (Threads.in_threads ts)
  ∧ ¬ Threads.ends fn Threads.waited start u (Threads.in_threads ts)
  ∧ ∀ s, rtc (Threads.thread_step fn) (Threads.start_threads start u ts) s →
         calls (Threads.shared s) = [] ∧ ¬ Threads.waited s
         ∧ ∃ s', Threads.thread_step fn s s'.
Proof.
  intros Hn Hw ts.
  destruct (claim_zero_spins fn start end_ n u) as [Hnev Hall]; [lia|lia|].
  split; [|split; [|split; [|split]]].
  - intros hw. unfold ParallelUtilsLoops.parallel_for_dynamic, ParallelUtilsLoops.thread_count.
    destruct (Z.leb_spec n 0); [lia|].
    destruct (Z.leb_spec (end_ - start) 0); [lia|].
    destruct (Z.ltb_spec (end_ - start) n); [lia|].
    destruct (Z.eqb_spec n 1); [lia|]. reflexivity.
  - intros global.
    unfold ParallelFrameworkExecutor.parallel_for, ParallelFrameworkExecutor.execute,
      ParallelFrameworkExecutor.new_executor.
    cbn [ParallelFrameworkExecutor.start_ ParallelFrameworkExecutor.end_
         ParallelFrameworkExecutor.num_threads_ ParallelFrameworkExecutor.dynamic_schedule_
         ParallelFrameworkExecutor.chunk_size_].
    destruct (Z.ltb_spec 0 n); [|lia].
    destruct (Z.leb_spec end_ start); [lia|].
    destruct (Z.ltb_spec (end_ - start) (n * 2)); [lia|].
    destruct (Z.eqb_spec n 1); [lia|]. reflexivity.
  - cbn [Threads.ends]. intros Hev. apply Hnev.
    eapply eventually_weaken; [|exact Hev]. apply joined_waited.
  - exact Hnev.
  - exact Hall.
Qed.

Lemma dynamic_loops_zero_chunk_spin_witness :
  ¬ Threads.ends (λ (i : Z) (s : unit), (s, @None unit)) Threads.joined 0 tt
      (Threads.in_threads (replicate (Z.to_nat 2) (claim_loop 10 0))).
Proof.
  refine (proj1 (proj2 (proj2 (dynamic_loops_zero_chunk_spin
            (λ (i : Z) (s : unit), (s, @None unit)) 0 10 2 tt _ _)))).
  - lia.
  - lia.
Defined.



(** X5.  [diskann::parallel_for] of parallel_framework.h when the thread
    count in effect is not positive ([num_threads <= 0] and
    [get_global_num_threads()] at most 0, as after
    [hardware_concurrency()] returned 0) and the range is not empty:
    with a count of 0 static scheduling divides by zero; dynamic
    scheduling starts no thread at all and returns at once, [fn] never
    called. *)
Theorem framework_parallel_for_without_threads {St Exn : Type}
    (fn : Z → St → St * option Exn) (global start end_ num_threads chunk_size : Z)
    (u : St) :
  num_threads ≤ 0 → global ≤ 0 → start < end_ →
  (global = 0 →
   ParallelFrameworkExecutor.parallel_for global start end_ num_threads false chunk_size
   = None)
  ∧ ParallelFrameworkExecutor.parallel_for global start end_ num_threads true chunk_size
    = Some (Threads.in_threads [])
  ∧ Threads.ends fn Threads.waited start u (Threads.in_threads [])
  ∧ ∀ c, Threads.finish fn Threads.waited start u (Threads.in_threads []) c →
         c = returns (initial_memory start u).
Proof.
  intros Hnt Hg Hr.
  unfold ParallelFrameworkExecutor.parallel_for, ParallelFrameworkExecutor.execute,
    ParallelFrameworkExecutor.new_executor.
  cbn [ParallelFrameworkExecutor.start_ ParallelFrameworkExecutor.end_
       ParallelFrameworkExecutor.num_threads_ ParallelFrameworkExecutor.dynamic_schedule_
       ParallelFrameworkExecutor.chunk_size_].
  destruct (Z.ltb_spec 0 num_threads); [lia|].
  destruct (Z.leb_spec end_ start); [lia|].
  destruct (Z.ltb_spec (end_ - start) (global * 2)); [lia|].
  destruct (Z.eqb_spec global 1); [lia|]. cbn [orb].
  split; [|split; [|split]].
  - intros ->. reflexivity.
  - destruct (Z.to_nat global) eqn:E; [reflexivity|lia].
  - cbn. apply ev_here. constructor.
  - intros c Hc. inversion Hc as [| | |ts s Hrtc Hw]; subst.
    apply no_threads_no_step in Hrtc. subst s. reflexivity.
Qed.

Lemma framework_parallel_for_without_threads_witness :
  ParallelFrameworkExecutor.parallel_for 0 0 10 (-1) false 1 = None
  ∧ ParallelFrameworkExecutor.parallel_for 0 0 10 (-1) true 1
    = Some (Threads.in_threads []).
Proof.
  destruct (framework_parallel_for_without_threads
              (λ (i : Z) (s : unit), (s, @None unit)) 0 0 10 (-1) 1 tt) as (H1 & H2 & _).
  - lia.
  - lia.
  - lia.
  - split; [apply H1; reflexivity|exact H2].
Defined.

(** ** An exception inside a std::thread *)

Section ThreadExceptions.
Import Threads.
Context {St Exn : Type}.
Variable fn : Z → St → St * option Exn.
Variables (start : Z) (e : Exn).
Hypothesis throws_at_start : ∀ s, (fn start s).2 = Some e.

Abbreviation tstep := (thread_step fn).

(** The first thread has the partition that begins at [start]: it is
    about to call [fn] with [start], or that call has thrown. *)
Definition first_thread_fails (chunk_end : Z) (s : run St Exn) : Prop :=
  threads s !! 0%nat = Some (Started (chunk_loop start chunk_end))
  ∨ threads s !! 0%nat = Some (Raised e).

Lemma exec_throws_at_start (chunk_end : Z) (m : memory St) :
  start < chunk_end →
  ∃ m', exec fn (chunk_loop start chunk_end) m = (m', Throw e).
Proof.
  intros Hlt. cbn [exec]. destruct (Z.ltb_spec start chunk_end); [|lia].
  unfold invoke. pose proof (throws_at_start (user m)) as Ht.
  destruct (fn start (user m)) as [u' r]. cbn in Ht. subst r. eexists. reflexivity.
Qed.

Lemma first_thread_fails_step (chunk_end : Z) (s s' : run St Exn) :
  start < chunk_end → tstep s s' →
  first_thread_fails chunk_end s → first_thread_fails chunk_end s'.
Proof.
  intros Hlt Hs Hf.
  assert (Hother : ∀ i t k, threads s !! i = Some (Started k) → i ≠ 0%nat →
                    first_thread_fails chunk_end (mkRun (<[i := t]> (threads s)) (shared s'))).
  { intros i t k Hi Hne. unfold first_thread_fails. cbn [threads].
    rewrite list_lookup_insert_ne by exact Hne. exact Hf. }
  assert (Hfirst : ∀ k m' o, threads s !! 0%nat = Some (Started k) →
                    exec fn k (shared s) = (m', o) → o = Throw e).
  { intros k m' o Hk He. destruct Hf as [Hf|Hf]; [|congruence].
    rewrite Hk in Hf. injection Hf as ->.
    destruct (exec_throws_at_start chunk_end (shared s) Hlt) as (m'' & He').
    congruence. }
  destruct Hs as [i k m' k' Hi He|i k m' Hi He|i k m' e' Hi He].
  - destruct (decide (i = 0%nat)) as [->|Hne]; [|eapply (Hother i); eauto].
    specialize (Hfirst _ _ _ Hi He). discriminate.
  - destruct (decide (i = 0%nat)) as [->|Hne]; [|eapply (Hother i); eauto].
    specialize (Hfirst _ _ _ Hi He). discriminate.
  - destruct (decide (i = 0%nat)) as [->|Hne]; [|eapply (Hother i); eauto].
    specialize (Hfirst _ _ _ Hi He). injection Hfirst as ->.
    right. cbn [threads]. apply list_lookup_insert_eq. eapply lookup_lt_Some. exact Hi.
Qed.

Lemma first_thread_fails_rtc (chunk_end : Z) (s s' : run St Exn) :
  start < chunk_end → rtc tstep s s' →
  first_thread_fails chunk_end s → first_thread_fails chunk_end s'.
Proof. intros Hlt. induction 1; eauto using first_thread_fails_step. Qed.

Lemma first_thread_fails_not_joined (chunk_end : Z) (s : run St Exn) :
  first_thread_fails chunk_end s → ¬ joined s.
Proof.
  intros Hf Hj. unfold joined in Hj. rewrite Forall_lookup in Hj.
  destruct Hf as [Hf|Hf]; specialize (Hj _ _ Hf); discriminate.
Qed.

Lemma first_thread_fails_forever (chunk_end : Z) (s : run St Exn) :
  start < chunk_end → first_thread_fails chunk_end s → ¬ eventually tstep joined s.
Proof.
  intros Hlt Hf Hev. induction Hev as [a Ha|a [b Hab] _ IH].
  - exact (first_thread_fails_not_joined chunk_end a Hf Ha).
  - exact (IH b Hab (first_thread_fails_step chunk_end a b Hlt Hab Hf)).
Qed.

End ThreadExceptions.

(** X6.  An exception in [parallel_for] of parallel_utils.h.  When
    [fn] throws at the first index and the call splits the range among
    more than one [std::thread], the exception leaves the closure of the
    first thread: on no schedule do all joins return, the call never
    comes back to its caller.  The same call with one thread runs the
    loop in the caller, and the exception reaches the caller after the
    single call of [fn]. *)
Theorem utils_parallel_for_exception_in_thread_never_returns {St Exn : Type}
    (fn : Z → St → St * option Exn) (hw start end_ num_threads : Z) (e : Exn) (u : St) :
  (∀ s, (fn start s).2 = Some e) →
  1 < num_threads → num_threads ≤ end_ - start →
  (∃ ts, ParallelUtilsLoops.parallel_for hw start end_ num_threads = Threads.in_threads ts)
  ∧ ¬ Threads.ends fn Threads.joined start u
        (ParallelUtilsLoops.parallel_for hw start end_ num_threads)
  ∧ (∀ c, ¬ Threads.finish fn Threads.joined start u
              (ParallelUtilsLoops.parallel_for hw start end_ num_threads) c)
  ∧ ∀ c, Threads.finish fn Threads.joined start u
           (ParallelUtilsLoops.parallel_for hw start end_ 1) c ↔
         c = propagates e (mkMemory start [start] (fn start u).1).
Proof.
  intros Ht Hn Hw.
  pose proof (Z.quot_rem' (end_ - start) num_threads) as Hqr.
  pose proof (Z.rem_bound_pos (end_ - start) num_threads ltac:(lia) ltac:(lia)) as Hrem.
  pose proof (Z.quot_pos (end_ - start) num_threads ltac:(lia) ltac:(lia)) as Hq.
  assert (Hc : 1 ≤ (end_ - start) `quot` num_threads) by nia.
  set (c := (end_ - start) `quot` num_threads) in *.
  set (ce := if 0 <? (end_ - start) `rem` num_threads then start + c + 1 else start + c).
  assert (Hce : start < ce) by (unfold ce; destruct (0 <? _); lia).
  assert (Hplan : ∃ rest, ParallelUtilsLoops.parallel_for hw start end_ num_threads
                          = Threads.in_threads (chunk_loop start ce :: rest)).
  { unfold ParallelUtilsLoops.parallel_for, ParallelUtilsLoops.thread_count.
    destruct (Z.leb_spec num_threads 0); [lia|].
    destruct (Z.leb_spec (end_ - start) 0); [lia|].
    destruct (Z.ltb_spec (end_ - start) num_threads); [lia|].
    destruct (Z.eqb_spec num_threads 1); [lia|]. cbn [orb].
    destruct (Z.to_nat num_threads) as [|todo] eqn:E; [lia|].
    cbn [split_loop Threads.partition_loops map fst snd]. fold c. fold ce.
    eexists. reflexivity. }
  destruct Hplan as (rest & Hplan). rewrite Hplan.
  assert (H0 : first_thread_fails start e ce
                 (Threads.start_threads (Exn := Exn) start u (chunk_loop start ce :: rest))).
  { left. reflexivity. }
  split; [eexists; reflexivity|]. split; [|split].
  - cbn [Threads.ends]. apply (first_thread_fails_forever fn start e Ht ce); assumption.
  - intros c' Hf. inversion Hf as [| | |ts s Hrtc Hj]; subst.
    apply (first_thread_fails_not_joined start e ce s); [|exact Hj].
    eapply (first_thread_fails_rtc fn start e Ht ce); eauto.
  - assert (Hone : ParallelUtilsLoops.parallel_for hw start end_ 1
                   = Threads.in_caller start end_).
    { unfold ParallelUtilsLoops.parallel_for, ParallelUtilsLoops.thread_count. cbn.
      destruct (Z.leb_spec (end_ - start) 0); [lia|].
      destruct (Z.ltb_spec (end_ - start) 1); reflexivity. }
    rewrite Hone.
    assert (Hrun : sequential_loop fn start end_ (initial_memory start u)
                   = (mkMemory start [start] (fn start u).1, Some e)).
    { unfold sequential_loop. rewrite (seqZ_cons start) by lia. cbn [for_each].
      unfold invoke. cbn [initial_memory user calls next_chunk].
      pose proof (Ht u) as Hu. destruct (fn start u) as [u' r]. cbn in Hu. subst r.
      reflexivity. }
    intros c'. split.
    + intros Hf. inversion Hf as [|a b m Hseq|a b m e' Hseq|]; subst;
        rewrite Hrun in Hseq; [discriminate|].
      injection Hseq as <- <-. reflexivity.
    + intros ->. apply Threads.finish_in_caller_throw. exact Hrun.
Qed.

Lemma utils_parallel_for_exception_in_thread_never_returns_witness :
  ¬ Threads.ends throws_at_0 Threads.joined 0 tt (ParallelUtilsLoops.parallel_for 4 0 10 2).
Proof.
  refine (proj1 (proj2 (utils_parallel_for_exception_in_thread_never_returns
            throws_at_0 4 0 10 2 "boom"%string tt _ _ _))).
  - intros s. reflexivity.
  - lia.
  - lia.
Defined.

(** ** parallel_transform_reduce and the initial value *)

Section TransformReduce.
Import DiskannTransformReduce.
Context {A T : Type} (init : T) (reduce_op : T → T → T) (transform_op : A → T).

Lemma transform_reduce_parallel (num_threads : Z) (data : list A) :
  let chunks :=
    reduce_chunks (Z.to_nat num_threads) 0 num_threads
      (Z.to_nat (Z.of_nat (length data) `quot` num_threads)) data in
  1000 < Z.of_nat (length data) → 1 < num_threads →
  concat chunks = data
  ∧ parallel_transform_reduce num_threads data init reduce_op transform_op
    = foldl reduce_op init
        (map (foldl (λ result x, reduce_op result (transform_op x)) init) chunks).
Proof.
  intros chunks Hd Hn. split.
  - apply reduce_chunks_concat; lia.
  - unfold parallel_transform_reduce.
    destruct (Z.gtb_spec (Z.of_nat (length data)) 1000); [|lia].
    destruct (Z.gtb_spec num_threads 1); [|lia]. reflexivity.
Qed.

Lemma transform_reduce_sequential (num_threads : Z) (data : list A) :
  Z.of_nat (length data) ≤ 1000 ∨ num_threads ≤ 1 →
  parallel_transform_reduce num_threads data init reduce_op transform_op
  = foldl (λ result x, reduce_op result (transform_op x)) init data.
Proof.
  intros H. unfold parallel_transform_reduce.
  destruct (Z.gtb_spec (Z.of_nat (length data)) 1000); [|reflexivity].
  destruct (Z.gtb_spec num_threads 1); [lia|reflexivity].
Qed.

End TransformReduce.

Lemma reduce_chunks_length {A : Type} (todo : nat) (t n : Z) (cs : nat) (it : list A) :
  length (reduce_chunks todo t n cs it) = todo.
Proof.
  revert t it. induction todo as [|todo IH]; intros t it; [reflexivity|].
  cbn [reduce_chunks]. destruct (t =? n - 1); cbn [length]; rewrite IH; reflexivity.
Qed.

Lemma foldl_add_map_shift {A : Type} (f : A → Z) (a : Z) (l : list A) :
  foldl (λ r x, r + f x) a l = a + foldl (λ r x, r + f x) 0 l.
Proof.
  revert a. induction l as [|x l IH]; intros a; cbn [foldl]; [lia|].
  rewrite (IH (a + _)), (IH (0 + _)). lia.
Qed.

(** The sum of the chunks' sums, each started from [init]. *)
Lemma sum_of_chunk_sums {A : Type} (f : A → Z) (init acc : Z) (chunks : list (list A)) :
  foldl Z.add acc (map (foldl (λ r x, r + f x) init) chunks)
  = acc + Z.of_nat (length chunks) * init + foldl (λ r x, r + f x) 0 (concat chunks).
Proof.
  revert acc. induction chunks as [|c chunks IH]; intros acc.
  - cbn. lia.
  - cbn [map foldl concat length]. rewrite IH, foldl_app.
    rewrite (foldl_add_map_shift f init c).
    rewrite (foldl_add_map_shift f (foldl _ 0 c) (concat chunks)). lia.
Qed.

Lemma sum_of_chunk_sums_plain (init acc : Z) (chunks : list (list Z)) :
  foldl Z.add acc (map (foldl Z.add init) chunks)
  = acc + Z.of_nat (length chunks) * init + foldl Z.add 0 (concat chunks).
Proof. exact (sum_of_chunk_sums (λ x : Z, x) init acc chunks). Qed.

(** X7.  [parallel_transform_reduce] of diskann_parallel.h.  On the
    parallel path (more than 1000 elements, more than one worker) the
    chunks are contiguous, cover the range in order, and the result
    combines, in chunk order, the chunks' own folds of the transformed
    elements; for an associative [reduce_op] with [init] as right unit
    the result is the sequential transform-and-fold of the whole range,
    whatever the number of workers. *)
Theorem parallel_transform_reduce_is_sequential_fold {A T : Type}
    (init : T) (reduce_op : T → T → T) (transform_op : A → T)
    (num_threads : Z) (data : list A) :
  (∀ a b c, reduce_op (reduce_op a b) c = reduce_op a (reduce_op b c)) →
  (∀ a, reduce_op a init = a) →
  DiskannTransformReduce.parallel_transform_reduce num_threads data init reduce_op
    transform_op
  = foldl (λ result x, reduce_op result (transform_op x)) init data.
Proof.
  intros Ha Hi.
  destruct (Z_lt_le_dec 1000 (Z.of_nat (length data))) as [Hd|Hd];
    [|apply transform_reduce_sequential; left; exact Hd].
  destruct (Z_lt_le_dec 1 num_threads) as [Hn|Hn];
    [|apply transform_reduce_sequential; right; exact Hn].
  destruct (transform_reduce_parallel init reduce_op transform_op num_threads data Hd Hn)
    as [Hcat ->].
  rewrite (foldl_partials reduce_op init Ha Hi transform_op), Hcat. reflexivity.
Qed.

Lemma parallel_transform_reduce_is_sequential_fold_witness :
  DiskannTransformReduce.parallel_transform_reduce 4 (seqZ 0 2000) 0 Z.add (λ x, x * x)
  = foldl (λ result x, result + x * x) 0 (seqZ 0 2000).
Proof.
  apply (parallel_transform_reduce_is_sequential_fold 0 Z.add (λ x, x * x) 4 (seqZ 0 2000)).
  - intros a b c. lia.
  - intros a. lia.
Defined.

(** X8.  The initial value is not only the start of the final fold: on
    the parallel path of [parallel_reduce] and
    [parallel_transform_reduce] of diskann_parallel.h every chunk's fold
    starts from [init] too.  With [+] the result is the sum of the
    (transformed) elements plus [init] once for each of the
    [num_threads] chunks and once more, whereas the sequential fallback
    adds [init] once; the two agree only for [init = 0]. *)
Theorem parallel_reduce_adds_init_once_per_chunk {A : Type}
    (num_threads init : Z) (data : list Z) (items : list A) (transform_op : A → Z) :
  1 < num_threads →
  (1000 < Z.of_nat (length data) →
   parallel_reduce num_threads data init Z.add
   = foldl Z.add 0 data + (num_threads + 1) * init)
  ∧ (1000 < Z.of_nat (length items) →
     DiskannTransformReduce.parallel_transform_reduce num_threads items init Z.add
       transform_op
     = foldl (λ r x, r + transform_op x) 0 items + (num_threads + 1) * init)
  ∧ (Z.of_nat (length data) ≤ 1000 →
     parallel_reduce num_threads data init Z.add = foldl Z.add 0 data + init)
  ∧ (1000 < Z.of_nat (length data) → init ≠ 0 →
     parallel_reduce num_threads data init Z.add ≠ foldl Z.add init data).
Proof.
  intros Hn.
  assert (Hpar : 1000 < Z.of_nat (length data) →
                 parallel_reduce num_threads data init Z.add
                 = foldl Z.add 0 data + (num_threads + 1) * init).
  { intros Hd.
    destruct (diskann_reduce_parallel init Z.add num_threads data Hd Hn) as [Hcat ->].
    rewrite sum_of_chunk_sums_plain, reduce_chunks_length, Hcat, Z2Nat.id by lia. lia. }
  split; [exact Hpar|]. split; [|split].
  - intros Hd.
    destruct (transform_reduce_parallel init Z.add transform_op num_threads items Hd Hn)
      as [Hcat ->].
    rewrite sum_of_chunk_sums, reduce_chunks_length, Hcat, Z2Nat.id by lia. lia.
  - intros Hd. unfold parallel_reduce.
    destruct (Z.gtb_spec (Z.of_nat (length data)) 1000); [lia|].
    cbn [andb]. rewrite (foldl_add_shift init). lia.
  - intros Hd Hi. rewrite (Hpar Hd), (foldl_add_shift init). nia.
Qed.

Lemma parallel_reduce_adds_init_once_per_chunk_witness :
  parallel_reduce 4 (seqZ 0 2000) 5 Z.add = foldl Z.add 0 (seqZ 0 2000) + (4 + 1) * 5.
Proof.
  refine (proj1 (parallel_reduce_adds_init_once_per_chunk 4 5 (seqZ 0 2000)
                   (@nil Z) (λ x, x) _) _).
  - lia.
  - rewrite length_seqZ. lia.
Defined.

(** ** The pool at work *)

Section PoolAtWork.
Context {Task Exn Mem : Type}.
Variable exec : Task → Mem → Mem * outcome Task Exn.

Abbreviation pool := (ThreadPool Task Exn Mem).
Abbreviation step := (worker_step exec).

(** A pool in service: consistent, not stopped, with a worker. *)
Definition serving (p : pool) : Prop :=
  consistent p ∧ stop p = false ∧ workers p ≠ [].

Lemma serving_step (p p' : pool) : step p p' → serving p → serving p'.
Proof.
  intros Hs (Hc & Hstop & Hw). split; [|split].
  - eapply consistent_step; eauto.
  - rewrite (step_stop _ _ _ Hs). exact Hstop.
  - intros E. apply (f_equal length) in E.
    rewrite (step_workers_length _ _ _ Hs) in E.
    destruct (workers p); [done|discriminate].
Qed.

Lemma serving_enqueue (f : Task) (p : pool) : serving p → serving (enqueue f p).2.
Proof.
  intros (Hc & Hstop & Hw). split; [|split].
  - apply consistent_enqueue. exact Hc.
  - exact Hstop.
  - exact Hw.
Qed.

Lemma serving_terminates (tm : Task → nat) (p : pool) :
  (∀ k m m' k', exec k m = (m', Continue k') → (tm k' < tm k)%nat) →
  serving p → eventually step all_ready p.
Proof.
  intros Hend.
  apply (eventually_by_measure step all_ready serving (weight tm)).
  - intros a b Ha Hab. eapply serving_step; eauto.
  - intros a (Hc & Hstop & Hw). apply idle_or_step; assumption.
  - intros a b _ Hab.
    destruct (weight_step exec tm a b Hab) as [Hlt|(h & k & k' & _ & He & Hw)];
      [exact Hlt|].
    specialize (Hend _ _ _ _ He). lia.
Qed.

(** A step leaves every future alone that is not pending. *)
Lemma step_keeps_results (p p' : pool) (h : nat) (r : shared_state Exn) :
  consistent p → step p p' →
  futures p !! h = Some r → r ≠ Pending → futures p' !! h = Some r.
Proof.
  intros Hc Hs Hh Hr.
  assert (Hlive : ∀ i h' k, workers p !! i = Some (Running h' k) → h' ≠ h).
  { intros i h' k Hi ->.
    assert (Hin : h ∈ (live p).*1).
    { unfold live. rewrite fmap_app. apply elem_of_app. right.
      destruct (workers_split _ i _ Waiting Hi) as (l1 & l2 & E1 & _).
      rewrite E1, running_app, running_cons, !fmap_app. cbn [fmap list_fmap app fst].
      apply elem_of_app. right. left. }
    apply (live_pending _ Hc) in Hin. congruence. }
  destruct Hs as [i h' f q Hi Hq|i Hi Hstop Hq|i h' k m' k' Hi He
                 |i h' k m' Hi He|i h' k m' e Hi He]; cbn [futures]; try exact Hh.
  - rewrite list_lookup_insert_ne; [exact Hh|]. eapply Hlive; eauto.
  - rewrite list_lookup_insert_ne; [exact Hh|]. eapply Hlive; eauto.
Qed.

End PoolAtWork.

(** X9.  The thread pool of diskann_parallel.h in service (not stopped,
    at least one worker): when the bodies of the tasks end, every
    schedule of the workers leads to a state in which no future is
    pending, and in every such state the queue is empty, no worker
    holds a task, and what the pool did is a run of the bodies of the
    tasks that were queued or in flight at the start: step by step with
    [exec], each from its program point to the step that returns or
    throws and sets its future.  Every task that was enqueued is run,
    without any call of the destructor. *)
Theorem pool_runs_every_enqueued_task {Task Exn Mem : Type}
    (exec : Task → Mem → Mem * outcome Task Exn) (tm : Task → nat)
    (p : ThreadPool Task Exn Mem) :
  (∀ k m m' k', exec k m = (m', Continue k') → (tm k' < tm k)%nat) →
  consistent p → stop p = false → workers p ≠ [] →
  eventually (worker_step exec) all_ready p
  ∧ ∀ p', rtc (worker_step exec) p p' → all_ready p' →
          tasks p' = [] ∧ running (workers p') = []
          ∧ length (futures p') = length (futures p)
          ∧ rtc (task_step exec) (work_of p) (∅, futures p', mem p').
Proof.
  intros Hend Hc Hstop Hw. split.
  - apply (serving_terminates exec tm); [exact Hend|]. split; [|split]; assumption.
  - intros p' Hrtc Hready.
    pose proof (consistent_rtc exec _ _ Hrtc Hc) as Hc'.
    apply (consistent_all_ready p' Hc') in Hready.
    pose proof (work_done exec p p' Hc Hrtc Hready) as Hrun.
    unfold live in Hready. apply app_eq_nil in Hready as [Hq Hr].
    split; [exact Hq|]. split; [exact Hr|]. split; [|exact Hrun].
    apply (rtc_futures_length exec). exact Hrtc.
Qed.

(** The two [countdown] tasks take their five steps: whenever no future
    is pending, the memory holds five entries. *)
Lemma pool_runs_every_enqueued_task_witness :
  eventually (worker_step countdown) all_ready
    (enqueue 3%nat (enqueue 2%nat (new_ThreadPool 2 0 [])).2).2
  ∧ ∀ p', rtc (worker_step countdown)
              (enqueue 3%nat (enqueue 2%nat (new_ThreadPool 2 0 [])).2).2 p' →
          all_ready p' → length (mem p') = 5%nat.
Proof.
  destruct (pool_runs_every_enqueued_task countdown (λ k, k)
              (enqueue 3%nat (enqueue 2%nat (new_ThreadPool 2 0 [])).2).2)
    as (Hev & Hall).
  - intros k m m' k' H. destruct k; cbn in H; [discriminate|].
    injection H as _ <-. lia.
  - apply consistent_enqueue, consistent_enqueue, consistent_new.
  - reflexivity.
  - discriminate.
  - split; [exact Hev|]. intros p' Hrtc Hr.
    destruct (Hall p' Hrtc Hr) as (_ & _ & _ & Hrun).
    apply countdown_run in Hrun. unfold work_of in Hrun. cbn [fst snd] in Hrun.
    change (steps_left ∅) with 0%nat in Hrun.
    change (length (mem (enqueue 3%nat (enqueue 2%nat (new_ThreadPool 2 0 [])).2).2))
      with 0%nat in Hrun.
    change (steps_left (list_to_map (live (enqueue 3%nat
              (enqueue 2%nat (new_ThreadPool (Exn := unit) 2 0 ([] : list nat))).2).2)))
      with 5%nat in Hrun.
    lia.
Defined.

(** X10.  A future of the pool is set once.  In a consistent pool, a
    shared state that holds a result or an exception is not touched by
    any later step of the workers nor by a later [enqueue]: what
    [future.get()] would read never changes. *)
Theorem future_is_set_once {Task Exn Mem : Type}
    (exec : Task → Mem → Mem * outcome Task Exn)
    (p p' : ThreadPool Task Exn Mem) (h : nat) (r : shared_state Exn) :
  consistent p → futures p !! h = Some r → r ≠ Pending →
  rtc (worker_step exec) p p' →
  futures p' !! h = Some r
  ∧ ∀ f, futures (enqueue f p').2 !! h = Some r.
Proof.
  intros Hc Hh Hr Hrtc.
  assert (Hkeep : futures p' !! h = Some r).
  { induction Hrtc as [|a b c Hab _ IH]; [exact Hh|].
    apply IH; [eapply consistent_step; eauto|].
    eapply step_keeps_results; eauto. }
  split; [exact Hkeep|].
  intros f. cbn [enqueue snd futures]. rewrite lookup_app_l; [exact Hkeep|].
  eapply lookup_lt_Some. exact Hkeep.
Qed.

Lemma future_is_set_once_witness :
  futures (enqueue 5%nat (mkThreadPool [Waiting; Waiting] [] false [@Ready unit]
                            ([] : list nat))).2 !! 0%nat
  = Some Ready.
Proof.
  refine (proj2 (future_is_set_once countdown
            (mkThreadPool [Waiting; Waiting] [] false [@Ready unit] ([] : list nat))
            (mkThreadPool [Waiting; Waiting] [] false [@Ready unit] ([] : list nat))
            0%nat Ready _ _ _ _) 5%nat).
  - split.
    + constructor.
    + intros h. cbn. split; [inversion 1|]. destruct h; discriminate.
    + intros _. repeat constructor; discriminate.
  - reflexivity.
  - discriminate.
  - apply rtc_refl.
Defined.

(** ** The queue is first in, first out *)

Section Fifo.
Context {Task Exn Mem : Type}.
Variable exec : Task → Mem → Mem * outcome Task Exn.

Abbreviation pool := (ThreadPool Task Exn Mem).

(** What happens to a pool in service: a client enqueues a task or a
    worker takes a step. *)
Inductive pool_event (p : pool) : pool → Prop :=
  | event_enqueue f : pool_event p (enqueue f p).2
  | event_step p' : worker_step exec p p' → pool_event p p'.

(** The queue holds the handles that were given out last, in the order
    in which they were given out. *)
Definition queue_in_order (p : pool) : Prop :=
  ∃ first : nat,
    (first ≤ length (futures p))%nat
    ∧ (tasks p).*1 = seq first (length (futures p) - first).

Lemma queue_in_order_event (p p' : pool) :
  pool_event p p' → queue_in_order p → queue_in_order p'.
Proof.
  intros He (a & Ha & Hq). unfold queue_in_order. destruct He as [f|p' Hs].
  - exists a. cbn [enqueue snd tasks futures]. rewrite length_app. cbn [length].
    split; [lia|]. rewrite fmap_app, Hq. cbn [fmap list_fmap fst].
    replace (length (futures p) + 1 - a)%nat with (S (length (futures p) - a)) by lia.
    rewrite seq_S. f_equal. f_equal. lia.
  - destruct Hs as [i h f q Hi Hqe|i Hi Hstop Hqe|i h k m' k' Hi He
                   |i h k m' Hi He|i h k m' e Hi He]; cbn [tasks futures];
      rewrite ?length_insert.
    + rewrite Hqe in Hq. cbn [fmap list_fmap fst] in Hq.
      destruct (length (futures p) - a)%nat as [|d] eqn:E; [discriminate|].
      cbn [seq] in Hq. injection Hq as _ Hq.
      exists (S a). split; [lia|]. rewrite Hq. f_equal. lia.
    + exists a. auto.
    + exists a. auto.
    + exists a. auto.
    + exists a. auto.
Qed.

Lemma queue_in_order_rtc (p p' : pool) :
  rtc pool_event p p' → queue_in_order p → queue_in_order p'.
Proof. induction 1; eauto using queue_in_order_event. Qed.

End Fifo.

(** X11.  The queue of the pool is first in, first out.  Starting from
    a pool with an empty queue, through any sequence of [enqueue] calls
    and worker steps, the queue holds exactly the handles given out
    last, in the order of their [enqueue]: a task that is still queued
    was enqueued after every task that has left the queue, and the
    worker that pops takes the oldest one. *)
Theorem pool_queue_is_first_in_first_out {Task Exn Mem : Type}
    (exec : Task → Mem → Mem * outcome Task Exn)
    (p p' : ThreadPool Task Exn Mem) :
  tasks p = [] → rtc (pool_event exec) p p' →
  ∃ first : nat,
    (first ≤ length (futures p'))%nat
    ∧ (tasks p').*1 = seq first (length (futures p') - first)
    ∧ ∀ h1 h2 : nat,
        (h1 < h2)%nat → h1 ∈ (tasks p').*1 → (h2 < length (futures p'))%nat →
        h2 ∈ (tasks p').*1.
Proof.
  intros Hq Hrtc.
  assert (H0 : queue_in_order p).
  { exists (length (futures p)). split; [lia|]. rewrite Hq, Nat.sub_diag. reflexivity. }
  destruct (queue_in_order_rtc exec p p' Hrtc H0) as (a & Ha & Hqa).
  exists a. split; [exact Ha|]. split; [exact Hqa|].
  intros h1 h2 Hlt Hin Hh2. rewrite Hqa in *. rewrite elem_of_seq in *. lia.
Qed.

Lemma pool_queue_is_first_in_first_out_witness :
  ∃ first : nat,
    (first ≤ 2)%nat
    ∧ [0%nat; 1%nat] = seq first (2 - first)
    ∧ ∀ h1 h2 : nat,
        (h1 < h2)%nat → h1 ∈ [0%nat; 1%nat] → (h2 < 2)%nat → h2 ∈ [0%nat; 1%nat].
Proof.
  refine (pool_queue_is_first_in_first_out countdown
            (new_ThreadPool (Exn := unit) 2 0 ([] : list nat))
            (enqueue 3%nat (enqueue 2%nat (new_ThreadPool 2 0 [])).2).2 _ _).
  - reflexivity.
  - eapply rtc_l; [apply (event_enqueue countdown _ 2%nat)|].
    eapply rtc_l; [apply (event_enqueue countdown _ 3%nat)|]. apply rtc_refl.
Defined.

(** ** Thread ids *)

Section ThreadIdFacts.
Import ParallelFramework.

(** The ids given out so far are the numbers below the counter, one per
    thread, and the counter has not wrapped. *)
Record numbered (s : thread_ids) : Prop := mkNumbered {
  counter_range : 0 ≤ next_id s ≤ INT_MAX;
  ids_below : ∀ th id, thread_id s !! th = Some id → 0 ≤ id < next_id s;
  ids_distinct :
    ∀ th1 th2 id, thread_id s !! th1 = Some id → thread_id s !! th2 = Some id → th1 = th2
}.

Lemma numbered_initial : numbered (mkThreadIds 0 ∅).
Proof.
  split; cbn.
  - unfold INT_MAX. lia.
  - intros th id H. rewrite lookup_empty in H. discriminate.
  - intros th1 th2 id H. rewrite lookup_empty in H. discriminate.
Qed.

Lemma get_thread_num_known (th : nat) (s : thread_ids) (id : Z) :
  thread_id s !! th = Some id → get_thread_num th s = (id, s).
Proof. intros H. unfold get_thread_num. rewrite H. reflexivity. Qed.

Lemma get_thread_num_recorded (th : nat) (s : thread_ids) :
  thread_id (get_thread_num th s).2 !! th = Some (get_thread_num th s).1.
Proof.
  unfold get_thread_num. destruct (thread_id s !! th) as [id|] eqn:E; cbn.
  - exact E.
  - apply lookup_insert_eq.
Qed.

Lemma get_thread_num_keeps (th th' : nat) (s : thread_ids) (id : Z) :
  thread_id s !! th' = Some id → thread_id (get_thread_num th s).2 !! th' = Some id.
Proof.
  intros H. unfold get_thread_num. destruct (thread_id s !! th) as [id'|] eqn:E; cbn.
  - exact H.
  - rewrite lookup_insert_ne; [exact H|]. intros ->. congruence.
Qed.

Lemma get_thread_num_fresh (th : nat) (s : thread_ids) :
  thread_id s !! th = None →
  get_thread_num th s
  = (next_id s, mkThreadIds (wrap_int (next_id s + 1)) (<[th := next_id s]> (thread_id s))).
Proof. intros H. unfold get_thread_num. rewrite H. reflexivity. Qed.

Lemma numbered_get_thread_num (th : nat) (s : thread_ids) :
  numbered s → next_id s < INT_MAX → numbered (get_thread_num th s).2.
Proof.
  intros [Hr Hb Hd] Hlt. unfold get_thread_num.
  destruct (thread_id s !! th) as [id|] eqn:E; cbn [snd]; [split; assumption|].
  assert (Hw : wrap_int (next_id s + 1) = next_id s + 1).
  { apply wrap_int_small. unfold INT_MIN, INT_MAX in *. lia. }
  split; cbn [next_id thread_id]; rewrite ?Hw.
  - lia.
  - intros th' id. destruct (decide (th' = th)) as [->|Hne].
    + rewrite lookup_insert_eq. intros [= <-]. lia.
    + rewrite lookup_insert_ne by congruence. intros H. specialize (Hb _ _ H). lia.
  - intros th1 th2 id.
    destruct (decide (th1 = th)) as [->|H1]; destruct (decide (th2 = th)) as [->|H2];
      rewrite ?lookup_insert_eq, ?lookup_insert_ne by congruence.
    + reflexivity.
    + intros [= <-] H. specialize (Hb _ _ H). lia.
    + intros H [= <-]. specialize (Hb _ _ H). lia.
    + apply Hd.
Qed.

Lemma first_calls_fresh (ths : list nat) (s : thread_ids) :
  numbered s → NoDup ths → (∀ th, th ∈ ths → thread_id s !! th = None) →
  next_id s + Z.of_nat (length ths) ≤ INT_MAX →
  (first_calls ths s).1 = seqZ (next_id s) (Z.of_nat (length ths))
  ∧ numbered (first_calls ths s).2
  ∧ next_id (first_calls ths s).2 = next_id s + Z.of_nat (length ths).
Proof.
  revert s. induction ths as [|th ths IH]; intros s Hs Hnd Hnew Hroom.
  - cbn. split; [reflexivity|]. split; [exact Hs|lia].
  - apply NoDup_cons in Hnd as [Hnotin Hnd]. cbn [length] in Hroom.
    cbn [first_calls]. rewrite (get_thread_num_fresh th s) by (apply Hnew; left).
    set (s1 := mkThreadIds (wrap_int (next_id s + 1)) (<[th := next_id s]> (thread_id s))).
    assert (Hs1 : numbered s1).
    { pose proof (numbered_get_thread_num th s Hs ltac:(lia)) as H.
      rewrite (get_thread_num_fresh th s) in H by (apply Hnew; left). exact H. }
    assert (Hn1 : next_id s1 = next_id s + 1).
    { cbn. apply wrap_int_small. pose proof (counter_range s Hs).
      unfold INT_MIN, INT_MAX in *. lia. }
    destruct (IH s1 Hs1 Hnd) as (Hids & Hnum & Hnext).
    { intros th' Hin. cbn. rewrite lookup_insert_ne; [apply Hnew; right; exact Hin|].
      intros ->. contradiction. }
    { rewrite Hn1. lia. }
    destruct (first_calls ths s1) as [ids s2]. cbn [fst snd] in *.
    cbn [length]. split; [|split; [exact Hnum|lia]].
    rewrite Hids, Hn1. rewrite (seqZ_cons (next_id s)) by lia. f_equal. f_equal; lia.
Qed.

End ThreadIdFacts.

(** X12.  [get_thread_num] of parallel_framework.h (the same body is
    [get_thread_id] of diskann_parallel.h and of parallel_utils.h):
    while the counter has not reached [INT_MAX], a call leaves the ids
    given out so far as they are; the id a thread got is what every later
    call by that thread returns, with no further change of the state;
    and two different threads never hold the same id. *)
Theorem thread_ids_are_stable_and_distinct (s : ParallelFramework.thread_ids)
    (th1 th2 : nat) :
  numbered s → ParallelFramework.next_id s + 1 < INT_MAX →
  let r1 := ParallelFramework.get_thread_num th1 s in
  let r2 := ParallelFramework.get_thread_num th2 r1.2 in
  ParallelFramework.get_thread_num th1 r2.2 = (r1.1, r2.2)
  ∧ ParallelFramework.get_thread_num th2 r2.2 = (r2.1, r2.2)
  ∧ (th1 ≠ th2 → r1.1 ≠ r2.1)
  ∧ numbered r2.2.
Proof.
  intros Hs Hroom r1 r2.
  assert (Hs1 : numbered r1.2) by (apply numbered_get_thread_num; [exact Hs|lia]).
  assert (Hn1 : ParallelFramework.next_id r1.2 ≤ ParallelFramework.next_id s + 1).
  { unfold r1, ParallelFramework.get_thread_num.
    destruct (ParallelFramework.thread_id s !! th1); cbn; [lia|].
    rewrite wrap_int_small; [lia|]. pose proof (counter_range s Hs).
    unfold INT_MIN, INT_MAX in *. lia. }
  assert (Hs2 : numbered r2.2) by (apply numbered_get_thread_num; [exact Hs1|lia]).
  pose proof (get_thread_num_recorded th1 s) as H1. fold r1 in H1.
  pose proof (get_thread_num_recorded th2 r1.2) as H2. fold r2 in H2.
  pose proof (get_thread_num_keeps th2 th1 r1.2 _ H1) as H1'. fold r2 in H1'.
  split; [|split; [|split]].
  - apply get_thread_num_known. exact H1'.
  - apply get_thread_num_known. exact H2.
  - intros Hne E. apply Hne. rewrite E in H1'.
    exact (ids_distinct _ Hs2 _ _ _ H1' H2).
  - exact Hs2.
Qed.

Lemma thread_ids_are_stable_and_distinct_witness :
  (ParallelFramework.get_thread_num 7%nat (ParallelFramework.mkThreadIds 0 ∅)).1
  ≠ (ParallelFramework.get_thread_num 9%nat
       (ParallelFramework.get_thread_num 7%nat (ParallelFramework.mkThreadIds 0 ∅)).2).1.
Proof.
  refine (proj1 (proj2 (proj2 (thread_ids_are_stable_and_distinct
            (ParallelFramework.mkThreadIds 0 ∅) 7%nat 9%nat _ _))) _).
  - exact numbered_initial.
  - cbn. unfold INT_MAX. lia.
  - lia.
Defined.

(** X13.  Threads that call [get_thread_num] for the first time one
    after the other get consecutive ids, starting at the current value
    of the counter: from the initial state, [n] threads get
    [0, 1, ..., n - 1] in the order of their first calls. *)
Theorem first_calls_give_consecutive_ids (ths : list nat) (s : ParallelFramework.thread_ids) :
  numbered s → NoDup ths →
  (∀ th, th ∈ ths → ParallelFramework.thread_id s !! th = None) →
  ParallelFramework.next_id s + Z.of_nat (length ths) ≤ INT_MAX →
  (ParallelFramework.first_calls ths s).1
  = seqZ (ParallelFramework.next_id s) (Z.of_nat (length ths))
  ∧ ParallelFramework.next_id (ParallelFramework.first_calls ths s).2
    = ParallelFramework.next_id s + Z.of_nat (length ths).
Proof.
  intros Hs Hnd Hnew Hroom.
  destruct (first_calls_fresh ths s Hs Hnd Hnew Hroom) as (H1 & _ & H2). auto.
Qed.

Lemma first_calls_give_consecutive_ids_witness :
  (ParallelFramework.first_calls [4%nat; 2%nat; 8%nat] (ParallelFramework.mkThreadIds 0 ∅)).1
  = seqZ 0 3.
Proof.
  refine (proj1 (first_calls_give_consecutive_ids [4%nat; 2%nat; 8%nat]
                   (ParallelFramework.mkThreadIds 0 ∅) _ _ _ _)).
  - exact numbered_initial.
  - apply (bool_decide_unpack _). vm_compute. exact I.
  - intros th _. apply lookup_empty.
  - cbn. unfold INT_MAX. lia.
Defined.

(** ** The barrier macro *)

(** X14.  [DISKANN_BARRIER] declares a barrier of its own for
    [get_global_num_threads()] participants and waits on it at once.
    The thread that runs it is the first to arrive at that barrier: it
    gets through exactly when the global thread count is 1.  For every
    other count it sleeps on generation 0 of a barrier whose generation
    is still 0. *)
Theorem barrier_macro_passes_only_for_one_thread (global_num_threads : Z) :
  INT_MIN ≤ global_num_threads ≤ INT_MAX →
  ((ParallelFrameworkMacros.DISKANN_BARRIER global_num_threads).2 = ParallelFramework.passes
   ↔ global_num_threads = 1)
  ∧ (global_num_threads ≠ 1 →
     (ParallelFrameworkMacros.DISKANN_BARRIER global_num_threads).2
     = ParallelFramework.sleeps 0
     ∧ ParallelFramework.generation
         (ParallelFrameworkMacros.DISKANN_BARRIER global_num_threads).1 = 0
     ∧ ParallelFramework.wakes
         (ParallelFrameworkMacros.DISKANN_BARRIER global_num_threads).1 0 = false).
Proof.
  intros Hr. unfold ParallelFrameworkMacros.DISKANN_BARRIER, ParallelFramework.wait,
    ParallelFramework.new_barrier. cbn [ParallelFramework.count ParallelFramework.generation
                                        ParallelFramework.total].
  assert (Hw : wrap_int (global_num_threads - 1) = 0 ↔ global_num_threads = 1).
  { unfold INT_MIN, INT_MAX in Hr.
    destruct (Z.eq_dec global_num_threads (- 2 ^ 31)) as [->|Hne]; [split; [vm_compute|]; lia|].
    rewrite wrap_int_small by (unfold INT_MIN, INT_MAX; lia). lia. }
  destruct (Z.eqb_spec (wrap_int (global_num_threads - 1)) 0) as [E|E]; cbn [snd fst].
  - split; [tauto|]. intros Hne. tauto.
  - split; [split; [discriminate|tauto]|]. intros _. auto.
Qed.

Lemma barrier_macro_passes_only_for_one_thread_witness :
  (ParallelFrameworkMacros.DISKANN_BARRIER 4).2 = ParallelFramework.sleeps 0.
Proof.
  refine (proj1 (proj2 (barrier_macro_passes_only_for_one_thread 4 _) _)).
  - unfold INT_MIN, INT_MAX. lia.
  - lia.
Defined.

(** ** Chunk sizes of parallel_for_static *)

Section StaticChunkFacts.

Lemma static_chunks_backwards (fuel : nat) (i end_ c : Z) :
  c ≤ 0 → i < end_ → static_chunks fuel i end_ c = None.
Proof.
  intros Hc. revert i. induction fuel as [|fuel IH]; intros i Hi; cbn [static_chunks].
  - destruct (Z.ltb_spec i end_); [reflexivity|lia].
  - destruct (Z.ltb_spec i end_); [|lia]. rewrite IH by lia. reflexivity.
Qed.

Lemma wrap_uint_times_4 (a : Z) : wrap_uint (a * 4) = 0 ↔ a `mod` 2 ^ 30 = 0.
Proof.
  unfold wrap_uint. change (2 ^ 32) with (2 ^ 30 * 4).
  rewrite Z.mul_mod_distr_r by lia. lia.
Qed.

End StaticChunkFacts.

(** X15.  [parallel_for_static] with a negative chunk size, a non-empty
    range and more than one worker: the loop
    [for (i = start; i < end; i += chunk_size)] that makes the tasks
    moves away from [end]; no number of iterations ends it, and the call
    never gets to wait for anything. *)
Theorem parallel_for_static_negative_chunk_is_endless
    (num_threads active_threads start end_ chunk_size : Z) :
  chunk_size < 0 → start < end_ → 1 < num_threads →
  (∀ fuel : nat, static_chunks fuel start end_ chunk_size = None)
  ∧ parallel_for_static num_threads active_threads start end_ chunk_size = endless.
Proof.
  intros Hc Hr Hn. split.
  - intros fuel. apply static_chunks_backwards; lia.
  - unfold parallel_for_static.
    destruct (Z.geb_spec start end_); [lia|].
    destruct (Z.eqb_spec chunk_size 0); [lia|]. cbn [andb].
    destruct (Z.gtb_spec (end_ - start) chunk_size); [|lia].
    destruct (Z.gtb_spec num_threads 1); [|lia]. cbn [andb].
    rewrite static_chunks_backwards by lia. reflexivity.
Qed.

Lemma parallel_for_static_negative_chunk_is_endless_witness :
  parallel_for_static 4 4 0 100 (-1) = endless.
Proof.
  refine (proj2 (parallel_for_static_negative_chunk_is_endless 4 4 0 100 (-1) _ _ _)); lia.
Defined.

(** X16.  The default chunk size of [parallel_for_static] divides by
    [get_active_threads() * 4], an [unsigned int] product.  For a
    non-empty range the call divides by zero exactly when the thread
    count set with [set_num_threads] is a multiple of 2^30, zero
    included; for every other count the chunk size chosen is at least
    1. *)
Theorem parallel_for_static_default_chunk_division
    (num_threads active_threads start end_ : Z) :
  start < end_ →
  (parallel_for_static num_threads active_threads start end_ 0 = division_by_zero
   ↔ active_threads `mod` 2 ^ 30 = 0)
  ∧ (active_threads `mod` 2 ^ 30 ≠ 0 →
     1 ≤ Z.max 1 ((end_ - start) `quot` wrap_uint (active_threads * 4))
     ∧ parallel_for_static num_threads active_threads start end_ 0
       = parallel_for_static num_threads active_threads start end_
           (Z.max 1 ((end_ - start) `quot` wrap_uint (active_threads * 4)))).
Proof.
  intros Hr. pose proof (wrap_uint_times_4 active_threads) as Hw.
  unfold parallel_for_static.
  destruct (Z.geb_spec start end_); [lia|]. cbn [Z.eqb andb].
  set (c := Z.max 1 ((end_ - start) `quot` wrap_uint (active_threads * 4))).
  assert (Hc : 1 ≤ c) by (unfold c; lia).
  destruct (Z.eqb_spec (wrap_uint (active_threads * 4)) 0) as [E|E].
  - split; [tauto|]. intros Hne. tauto.
  - split.
    + split; [|tauto]. intros Hdz. exfalso.
      destruct ((end_ - start >? c) && (num_threads >? 1)); [|discriminate].
      destruct (static_chunks _ _ _ _); discriminate.
    + intros _. split; [exact Hc|].
      destruct (Z.eqb_spec c 0); [lia|]. reflexivity.
Qed.

Lemma parallel_for_static_default_chunk_division_witness :
  parallel_for_static 4 0 0 100 0 = division_by_zero.
Proof.
  refine (proj2 (proj1 (parallel_for_static_default_chunk_division 4 0 0 100 _)) _).
  - lia.
  - reflexivity.
Defined.

(** ** The sequential fallback and exceptions *)

Section InlineFacts.
Context {St Exn : Type}.
Variable fn : Z → St → St * option Exn.

Lemma for_each_until (l1 l2 : list Z) (j : Z) (e : Exn) (m : memory St) :
  (∀ i s, i ∈ l1 → (fn i s).2 = None) → (∀ s, (fn j s).2 = Some e) →
  for_each fn (l1 ++ j :: l2) m
  = (mkMemory (next_chunk m) (calls m ++ l1 ++ [j])
              (replay fn (user m) (l1 ++ [j])), Some e).
Proof.
  intros Hok Hj. revert m. induction l1 as [|i l1 IH]; intros m.
  - cbn [app for_each]. unfold invoke. specialize (Hj (user m)).
    destruct (fn j (user m)) as [u r] eqn:E. cbn in Hj. subst r.
    cbn. rewrite E. reflexivity.
  - cbn [app for_each]. unfold invoke.
    pose proof (Hok i (user m) ltac:(left)) as Hi.
    destruct (fn i (user m)) as [u r] eqn:E. cbn in Hi. subst r.
    rewrite IH by (intros; apply Hok; right; assumption).
    cbn [next_chunk calls user]. rewrite <- app_assoc. cbn [app replay foldl].
    unfold replay. cbn [foldl]. rewrite E. reflexivity.
Qed.

End InlineFacts.

(** X17.  The sequential fallback of the scheduling entry points of
    diskann_parallel.h ([parallel_for] for a range of at most 1000
    indices, [parallel_for_dynamic] and [parallel_for_static] for a
    range of at most [chunk_size] indices, all three for a pool of one
    worker) runs in the calling thread in ascending order: when [fn]
    throws for the first time at index [j], the indices from [start] to
    [j] have been passed to [fn], in that order, no later one has, and
    the exception reaches the caller; the call cannot end in any other
    way. *)
Theorem sequential_fallback_propagates_first_exception {St Exn : Type}
    (fn : Z → St → St * option Exn) (hw num_threads start end_ j : Z) (e : Exn) (u : St) :
  start ≤ j < end_ →
  (∀ i s, start ≤ i < j → (fn i s).2 = None) → (∀ s, (fn j s).2 = Some e) →
  let m := mkMemory start (seqZ start (j - start + 1))
                    (replay fn u (seqZ start (j - start + 1))) in
  let only_propagates d :=
    complete fn hw start u d (propagates e m)
    ∧ ∀ c, complete fn hw start u d c → c = propagates e m in
  (end_ - start ≤ 1000 ∨ num_threads ≤ 1 →
   only_propagates (parallel_for num_threads start end_))
  ∧ (∀ chunk_size, end_ - start ≤ chunk_size ∨ num_threads ≤ 1 →
       only_propagates (parallel_for_dynamic num_threads start end_ chunk_size))
  ∧ (∀ active_threads chunk_size,
       chunk_size ≠ 0 → end_ - start ≤ chunk_size ∨ num_threads ≤ 1 →
       only_propagates
         (parallel_for_static num_threads active_threads start end_ chunk_size)).
Proof.
  intros Hj Hok He m only_propagates.
  assert (Hsplit : seqZ start (end_ - start)
                   = seqZ start (j - start) ++ j :: seqZ (j + 1) (end_ - (j + 1))).
  { replace (end_ - start) with ((j - start) + (end_ - j)) by lia.
    rewrite seqZ_app by lia. f_equal.
    replace (start + (j - start)) with j by lia.
    rewrite (seqZ_cons j) by lia. f_equal. f_equal; lia. }
  assert (Hcalls : seqZ start (j - start + 1) = seqZ start (j - start) ++ [j]).
  { rewrite seqZ_app by lia. f_equal.
    replace (start + (j - start)) with j by lia. reflexivity. }
  assert (Hrun : sequential_loop fn start end_ (initial_memory start u) = (m, Some e)).
  { unfold sequential_loop. rewrite Hsplit.
    rewrite (for_each_until fn _ _ j e);
      [|intros i s Hi; apply Hok; apply elem_of_seqZ in Hi; lia|exact He].
    cbn [initial_memory next_chunk calls user app]. unfold m. rewrite Hcalls. reflexivity. }
  assert (Hin : only_propagates (inline start end_)).
  { split.
    - apply complete_inline_throw. exact Hrun.
    - intros c Hc. inversion Hc as [|a b m' Hseq|a b m' e' Hseq|]; subst;
        rewrite Hrun in Hseq; [discriminate|].
      injection Hseq as <- <-. reflexivity. }
  split; [|split].
  - intros Hsmall. unfold parallel_for.
    destruct (Z.geb_spec start end_); [lia|].
    destruct (Z.gtb_spec (end_ - start) 1000); [|exact Hin].
    destruct (Z.gtb_spec num_threads 1); [lia|exact Hin].
  - intros chunk_size Hsmall. unfold parallel_for_dynamic.
    destruct (Z.geb_spec start end_); [lia|].
    destruct (Z.gtb_spec (end_ - start) chunk_size); [|exact Hin].
    destruct (Z.gtb_spec num_threads 1); [lia|exact Hin].
  - intros active_threads chunk_size Hnz Hsmall. unfold parallel_for_static.
    destruct (Z.geb_spec start end_); [lia|].
    destruct (Z.eqb_spec chunk_size 0); [lia|]. cbn [andb].
    destruct (Z.gtb_spec (end_ - start) chunk_size); [|exact Hin].
    destruct (Z.gtb_spec num_threads 1); [lia|exact Hin].
Qed.

Lemma sequential_fallback_propagates_first_exception_witness :
  complete throws_at_0 2 0 tt (parallel_for 2 0 10)
    (propagates "boom"%string (mkMemory 0 [0] tt)).
Proof.
  refine (proj1 (proj1 (sequential_fallback_propagates_first_exception throws_at_0 2 2
            0 10 0 "boom"%string tt _ _ _) _)).
  - lia.
  - intros i s Hi. lia.
  - intros s. reflexivity.
  - left. lia.
Defined.

(** ** parallel_for of parallel_utils.h over size_t *)

Section SizeTFacts.
Import Threads.

Lemma to_size_t_small (x : Z) : 0 ≤ x < 2 ^ 64 → to_size_t x = x.
Proof. intros H. unfold to_size_t. apply Z.mod_small. exact H. Qed.

(** Without wrap-around the loop over [size_t] is the loop over the
    integers. *)
Lemma split_loop_size_t (todo : nat) (t cs c r : Z) :
  0 ≤ cs → 0 ≤ c → cs + Z.of_nat todo * (c + 1) < 2 ^ 64 →
  ParallelUtilsSizeT.split_loop todo t cs c r = split_loop todo t cs c r.
Proof.
  revert t cs. induction todo as [|todo IH]; intros t cs Hcs Hc Hroom; [reflexivity|].
  cbn [ParallelUtilsSizeT.split_loop split_loop].
  rewrite Nat2Z.inj_succ in Hroom. unfold Z.succ in Hroom.
  assert (H1 : to_size_t (cs + c) = cs + c) by (apply to_size_t_small; nia).
  rewrite H1.
  assert (H2 : to_size_t (cs + c + 1) = cs + c + 1) by (apply to_size_t_small; nia).
  rewrite H2. f_equal. destruct (t <? r); apply IH; nia.
Qed.

End SizeTFacts.

(** X18.  [parallel_for] of parallel_utils.h instantiated with
    [IndexType = size_t].  For [start <= end] below 2^63 the call
    decides as over the integers.  For [end < start] it is not the
    no-op of the other entry points: [end - start] wraps around to a
    positive amount of work, the guard [total_work <= 0] lets it
    through, and the first thread is given the non-empty partition that
    begins at [start]; its first action is the call of [fn] with
    [start], an index outside the empty range. *)
Theorem utils_parallel_for_size_t_inverted_range {St Exn : Type}
    (fn : Z → St → St * option Exn) (hw start end_ num_threads : Z) (u : St) :
  1 < num_threads < 2 ^ 31 →
  (0 ≤ start ≤ end_ → end_ < 2 ^ 63 →
   ParallelUtilsSizeT.parallel_for hw start end_ num_threads
   = ParallelUtilsLoops.parallel_for hw start end_ num_threads)
  ∧ (0 ≤ end_ < start → start < 2 ^ 62 →
     ∃ current_end rest,
       ParallelUtilsSizeT.parallel_for hw start end_ num_threads
       = Threads.in_threads (chunk_loop start current_end :: rest)
       ∧ start < current_end
       ∧ seqZ start (end_ - start) = []
       ∧ ∃ s, Threads.thread_step fn
                (Threads.start_threads start u (chunk_loop start current_end :: rest)) s
              ∧ calls (Threads.shared s) = [start]).
Proof.
  intros Hn. split.
  - intros Hr He.
    unfold ParallelUtilsSizeT.parallel_for, ParallelUtilsLoops.parallel_for,
      ParallelUtilsLoops.thread_count.
    destruct (Z.leb_spec num_threads 0); [lia|].
    rewrite (to_size_t_small (end_ - start)) by lia.
    rewrite (to_size_t_small num_threads) by lia.
    destruct (Z.leb_spec (end_ - start) 0); [reflexivity|].
    destruct (Z.ltb_spec (end_ - start) num_threads); [reflexivity|].
    destruct (Z.eqb_spec num_threads 1); [lia|]. cbn [orb].
    pose proof (Z.quot_rem' (end_ - start) num_threads) as Hqr.
    pose proof (Z.rem_bound_pos (end_ - start) num_threads ltac:(lia) ltac:(lia)) as Hrem.
    pose proof (Z.quot_pos (end_ - start) num_threads ltac:(lia) ltac:(lia)) as Hq.
    rewrite split_loop_size_t; [reflexivity|lia|lia|].
    rewrite Z2Nat.id by lia. nia.
  - intros Hr Hs.
    unfold ParallelUtilsSizeT.parallel_for, ParallelUtilsLoops.thread_count.
    destruct (Z.leb_spec num_threads 0); [lia|].
    rewrite (to_size_t_small num_threads) by lia.
    assert (Ht : to_size_t (end_ - start) = 2 ^ 64 - (start - end_)).
    { unfold to_size_t. symmetry. apply (Z.mod_unique_pos _ _ (-1)); lia. }
    rewrite Ht. set (total := 2 ^ 64 - (start - end_)).
    assert (Htot : 2 ^ 63 < total < 2 ^ 64) by (unfold total; lia).
    destruct (Z.leb_spec total 0); [lia|].
    destruct (Z.ltb_spec total num_threads); [lia|].
    destruct (Z.eqb_spec num_threads 1); [lia|]. cbn [orb].
    pose proof (Z.quot_rem' total num_threads) as Hqr.
    pose proof (Z.rem_bound_pos total num_threads ltac:(lia) ltac:(lia)) as Hrem.
    pose proof (Z.quot_pos total num_threads ltac:(lia) ltac:(lia)) as Hq.
    set (c := total `quot` num_threads) in *.
    assert (Hc : 2 ^ 31 < c ≤ 2 ^ 63) by nia.
    destruct (Z.to_nat num_threads) as [|todo] eqn:E; [lia|].
    cbn [ParallelUtilsSizeT.split_loop Threads.partition_loops map fst snd].
    assert (Hw1 : to_size_t (start + c) = start + c) by (apply to_size_t_small; lia).
    rewrite Hw1.
    assert (Hw2 : to_size_t (start + c + 1) = start + c + 1) by (apply to_size_t_small; lia).
    rewrite Hw2.
    set (ce := if 0 <? total `rem` num_threads then start + c + 1 else start + c).
    assert (Hce : start < ce) by (unfold ce; destruct (0 <? _); lia).
    eexists ce, _. split; [reflexivity|]. split; [exact Hce|].
    split; [apply seqZ_nil; lia|].
    destruct (exec fn (chunk_loop start ce) (initial_memory start u)) as [m' o] eqn:Hex.
    assert (Hcalls : calls m' = [start]).
    { cbn [exec] in Hex. destruct (Z.ltb_spec start ce); [|lia].
      unfold invoke in Hex. cbn [initial_memory user calls next_chunk] in Hex.
      destruct (fn start u) as [u' r]. injection Hex as <- _. reflexivity. }
    destruct o as [k'| |e].
    + eexists. split;
        [apply (Threads.thread_continue fn (Threads.start_threads start u _) 0%nat
                  (chunk_loop start ce) m' k'); [reflexivity|exact Hex]|exact Hcalls].
    + eexists. split;
        [apply (Threads.thread_return fn (Threads.start_threads start u _) 0%nat
                  (chunk_loop start ce) m'); [reflexivity|exact Hex]|exact Hcalls].
    + eexists. split;
        [apply (Threads.thread_raise fn (Threads.start_threads start u _) 0%nat
                  (chunk_loop start ce) m' e); [reflexivity|exact Hex]|exact Hcalls].
Qed.

Lemma utils_parallel_for_size_t_inverted_range_witness :
  ∃ current_end rest,
    ParallelUtilsSizeT.parallel_for 4 5 3 2
    = Threads.in_threads (chunk_loop 5 current_end :: rest)
    ∧ 5 < current_end
    ∧ seqZ 5 (3 - 5) = []
    ∧ ∃ s, Threads.thread_step (λ (i : Z) (s : unit), (s, @None unit))
             (Threads.start_threads 5 tt (chunk_loop 5 current_end :: rest)) s
           ∧ calls (Threads.shared s) = [5].
Proof.
  refine (proj2 (utils_parallel_for_size_t_inverted_range
                   (λ (i : Z) (s : unit), (s, @None unit)) 4 5 3 2 tt _) _ _); lia.
Defined.

(** ** wait_all of parallel_framework.h *)

(** X19.  [wait_all] of parallel_framework.h reads [active_threads] and
    the queue one after the other, and the queue without the lock.  A
    worker that takes the last task between the two reads makes both
    come out quiet: from a pool with one queued task, an idle worker and
    [active_threads = 0] there is a schedule on which [wait_all] has
    returned while that worker is inside the task, with
    [active_threads = 1]. *)
Theorem wait_all_can_return_while_a_task_runs {Task : Type}
    (ws : list (ParallelFrameworkPool.worker Task)) (i : nat) (f : Task) (stop : bool) :
  ws !! i = Some ParallelFrameworkPool.Idle →
  ∃ p',
    rtc ParallelFrameworkPool.pool_step
        (ParallelFrameworkPool.mkThreadPool ws [f] stop 0
           ParallelFrameworkPool.AtActiveThreads) p'
    ∧ ParallelFrameworkPool.in_wait_all p' = ParallelFrameworkPool.Returned
    ∧ ParallelFrameworkPool.workers p' !! i = Some (ParallelFrameworkPool.Busy f)
    ∧ ParallelFrameworkPool.active_threads p' = 1.
Proof.
  intros Hi.
  exists (ParallelFrameworkPool.mkThreadPool
            (<[i := ParallelFrameworkPool.Busy f]> ws) [] stop 1
            ParallelFrameworkPool.Returned).
  split; [|split; [reflexivity|split; [|reflexivity]]].
  - eapply rtc_l.
    { apply ParallelFrameworkPool.wait_idle; [reflexivity|cbn; lia]. }
    eapply rtc_l.
    { apply (ParallelFrameworkPool.pool_pop _ i f []); [exact Hi|reflexivity]. }
    eapply rtc_l.
    { apply ParallelFrameworkPool.wait_empty; reflexivity. }
    apply rtc_refl.
  - cbn. apply list_lookup_insert_eq. eapply lookup_lt_Some. exact Hi.
Qed.

Lemma wait_all_can_return_while_a_task_runs_witness :
  ∃ p',
    rtc ParallelFrameworkPool.pool_step
        (ParallelFrameworkPool.mkThreadPool
           [ParallelFrameworkPool.Idle; ParallelFrameworkPool.Idle] [5%nat] false 0
           ParallelFrameworkPool.AtActiveThreads) p'
    ∧ ParallelFrameworkPool.in_wait_all p' = ParallelFrameworkPool.Returned
    ∧ ParallelFrameworkPool.workers p' !! 1%nat = Some (ParallelFrameworkPool.Busy 5%nat)
    ∧ ParallelFrameworkPool.active_threads p' = 1.
Proof.
  refine (wait_all_can_return_while_a_task_runs
            [ParallelFrameworkPool.Idle; ParallelFrameworkPool.Idle] 1%nat 5%nat false _).
  reflexivity.
Defined.

Section FrameworkPoolFacts.
Import ParallelFrameworkPool.
Context {Task : Type}.

(** The number of workers inside [task()] or between [task()] and the
    decrement. *)
Definition occupied (w : worker Task) : Z :=
  match w with
  | Busy _ | Leaving => 1
  | _ => 0
  end.

Definition inside (ws : list (worker Task)) : Z := foldr (λ w n, occupied w + n) 0 ws.

Lemma inside_app (l1 l2 : list (worker Task)) : inside (l1 ++ l2) = inside l1 + inside l2.
Proof.
  unfold inside. induction l1 as [|w l1 IH]; cbn [app foldr]; [reflexivity|].
  rewrite IH. lia.
Qed.

Lemma inside_bounds (ws : list (worker Task)) : 0 ≤ inside ws ≤ Z.of_nat (length ws).
Proof.
  induction ws as [|w ws IH]; cbn [inside foldr length]; [lia|].
  unfold inside in IH. destruct w; cbn [occupied]; lia.
Qed.

Lemma inside_insert (ws : list (worker Task)) (i : nat) (w w' : worker Task) :
  ws !! i = Some w → inside (<[i := w']> ws) = inside ws - occupied w + occupied w'.
Proof.
  intros Hi.
  rewrite insert_take_drop by (eapply lookup_lt_Some; exact Hi).
  rewrite <- (take_drop_middle ws i w Hi) at 3.
  rewrite !inside_app. cbn [inside foldr]. lia.
Qed.

Lemma active_threads_step (p p' : ThreadPool Task) :
  pool_step p p' →
  Z.of_nat (length (workers p)) ≤ INT_MAX → active_threads p = inside (workers p) →
  length (workers p') = length (workers p) ∧ active_threads p' = inside (workers p').
Proof.
  intros Hs Hlen Hact.
  destruct Hs as [f Hstop|i f q Hi Hq|i Hi Hstop Hq|i f Hi|i Hi|Hw Ha|Hw Ha|Hw Hq|Hw Hq];
    cbn [workers active_threads]; rewrite ?length_insert; (split; [reflexivity|]);
    try exact Hact.
  - pose proof (inside_bounds (<[i := Busy f]> (workers p))) as Hb.
    rewrite length_insert in Hb.
    rewrite (inside_insert _ i Idle) in * by exact Hi. cbn [occupied] in *.
    rewrite wrap_int_small; [lia|]. unfold INT_MIN, INT_MAX in *. lia.
  - rewrite (inside_insert _ i Idle) by exact Hi. cbn [occupied]. lia.
  - rewrite (inside_insert _ i (Busy f)) by exact Hi. cbn [occupied]. lia.
  - pose proof (inside_bounds (<[i := Idle]> (workers p))) as Hb.
    rewrite length_insert in Hb.
    rewrite (inside_insert _ i Leaving) in * by exact Hi. cbn [occupied] in *.
    rewrite wrap_int_small; [lia|]. unfold INT_MIN, INT_MAX in *. lia.
Qed.

End FrameworkPoolFacts.

(** X20.  The counter [active_threads] of the pool of
    parallel_framework.h is exact: in a pool of at most [INT_MAX]
    workers that starts with the counter at the number of workers inside
    [task()] (zero for a new pool), every state the pool reaches has
    [active_threads] equal to the number of workers that have taken a
    task and not yet decremented; it is never negative and never
    exceeds the number of workers. *)
Theorem active_threads_counts_the_busy_workers {Task : Type}
    (p p' : ParallelFrameworkPool.ThreadPool Task) :
  Z.of_nat (length (ParallelFrameworkPool.workers p)) ≤ INT_MAX →
  ParallelFrameworkPool.active_threads p = inside (ParallelFrameworkPool.workers p) →
  rtc ParallelFrameworkPool.pool_step p p' →
  ParallelFrameworkPool.active_threads p' = inside (ParallelFrameworkPool.workers p')
  ∧ 0 ≤ ParallelFrameworkPool.active_threads p'
      ≤ Z.of_nat (length (ParallelFrameworkPool.workers p)).
Proof.
  intros Hlen Hact Hrtc.
  assert (H : length (ParallelFrameworkPool.workers p')
              = length (ParallelFrameworkPool.workers p)
              ∧ ParallelFrameworkPool.active_threads p'
                = inside (ParallelFrameworkPool.workers p')).
  { induction Hrtc as [|a b c Hab _ IH]; [auto|].
    destruct (active_threads_step a b Hab Hlen Hact) as [Hl Ha].
    destruct IH as [Hl' Ha']; [rewrite Hl; exact Hlen|exact Ha|].
    split; [congruence|exact Ha']. }
  destruct H as [Hl Ha]. split; [exact Ha|].
  rewrite Ha, <- Hl. apply inside_bounds.
Qed.

Lemma active_threads_counts_the_busy_workers_witness :
  ParallelFrameworkPool.active_threads
    (ParallelFrameworkPool.mkThreadPool
       [ParallelFrameworkPool.Busy 5%nat; ParallelFrameworkPool.Idle] [] false 1
       ParallelFrameworkPool.AtActiveThreads)
  = inside [ParallelFrameworkPool.Busy 5%nat; ParallelFrameworkPool.Idle].
Proof.
  refine (proj1 (active_threads_counts_the_busy_workers
            (ParallelFrameworkPool.mkThreadPool
               [ParallelFrameworkPool.Idle; ParallelFrameworkPool.Idle] [5%nat] false 0
               ParallelFrameworkPool.AtActiveThreads)
            (ParallelFrameworkPool.mkThreadPool
               [ParallelFrameworkPool.Busy 5%nat; ParallelFrameworkPool.Idle] [] false 1
               ParallelFrameworkPool.AtActiveThreads) _ _ _)).
  - cbn. unfold INT_MAX. lia.
  - reflexivity.
  - eapply rtc_l; [|apply rtc_refl].
    apply (ParallelFrameworkPool.pool_pop
             (ParallelFrameworkPool.mkThreadPool
                [ParallelFrameworkPool.Idle; ParallelFrameworkPool.Idle] [5%nat] false 0
                ParallelFrameworkPool.AtActiveThreads) 0%nat 5%nat []); reflexivity.
Defined.

(** ** parallel_sections *)

Section SectionFacts.
Import ParallelSections.
Context {Task Exn Mem : Type}.
Variable exec : Task → Mem → Mem * outcome Task Exn.
Variable tm : Task → nat.
Hypothesis sections_end : ∀ k m m' k', exec k m = (m', Continue k') → (tm k' < tm k)%nat.

Abbreviation sstep := (section_step exec).

Definition actions_left (f : section_future Task Exn) : nat :=
  match f with
  | Unfinished k => S (tm k)
  | _ => 0
  end.

Lemma unfinished_or_waited (l : list (section_future Task Exn)) :
  Forall (λ f, ∀ k, f ≠ Unfinished k) l ∨ ∃ i k, l !! i = Some (Unfinished k).
Proof.
  induction l as [|f l IH]; [left; constructor|].
  destruct f as [k| |e]; [right; exists 0%nat, k; reflexivity| |].
  - destruct IH as [IH|(i & k & Hi)].
    + left. constructor; [discriminate|exact IH].
    + right. exists (S i), k. exact Hi.
  - destruct IH as [IH|(i & k & Hi)].
    + left. constructor; [discriminate|exact IH].
    + right. exists (S i), k. exact Hi.
Qed.

Lemma section_progress (x : execution Task Exn Mem) :
  all_waited x ∨ ∃ x', sstep x x'.
Proof.
  destruct (unfinished_or_waited (futures x)) as [Hall|(i & k & Hi)].
  - left. exact Hall.
  - right. eexists. apply (section_acts exec x i k). exact Hi.
Qed.

Lemma waited_no_step (x x' : execution Task Exn Mem) : all_waited x → ¬ sstep x x'.
Proof.
  intros Hw [i k Hi]. unfold all_waited in Hw. rewrite Forall_lookup in Hw.
  exact (Hw _ _ Hi k eq_refl).
Qed.

Lemma after_decreases (k : Task) (m : Mem) :
  (actions_left (after (exec k m).2) < actions_left (Unfinished k))%nat.
Proof.
  destruct (exec k m) as [m' [k'| |e]] eqn:E; cbn; [|lia|lia].
  specialize (sections_end _ _ _ _ E). lia.
Qed.

Lemma section_step_decreases (x x' : execution Task Exn Mem) :
  sstep x x' →
  (sum_list_with actions_left (futures x') < sum_list_with actions_left (futures x))%nat.
Proof.
  intros [i k Hi]. cbn [futures].
  rewrite insert_take_drop by (eapply lookup_lt_Some; exact Hi).
  rewrite <- (take_drop_middle (futures x) i _ Hi) at 3.
  rewrite !sum_list_with_app. cbn [sum_list_with].
  pose proof (after_decreases k (state x)). lia.
Qed.

Lemma sections_terminate (x : execution Task Exn Mem) : eventually sstep all_waited x.
Proof.
  apply (eventually_by_measure sstep all_waited (λ _, True)
           (λ x, sum_list_with actions_left (futures x))); [auto| | |exact I].
  - intros a _. apply section_progress.
  - intros a b _ Hab. apply section_step_decreases. exact Hab.
Qed.

(** *** Independent sections *)

Hypothesis sections_independent : independent exec.

Lemma section_diamond (x a b : execution Task Exn Mem) :
  sstep x a → sstep x b → a = b ∨ ∃ c, sstep a c ∧ sstep b c.
Proof.
  intros [i k Hi] [j k' Hj].
  destruct (decide (i = j)) as [->|Hne].
  - left. rewrite Hi in Hj. injection Hj as ->. reflexivity.
  - right.
    destruct (sections_independent k k' (state x)) as [Hm Ho].
    destruct (sections_independent k' k (state x)) as [_ Ho'].
    exists (mkExecution
              (<[j := after (exec k' (state x)).2]>
                 (<[i := after (exec k (state x)).2]> (futures x)))
              (exec k' (exec k (state x)).1).1).
    split.
    + pose proof (section_acts exec
                    (mkExecution (<[i := after (exec k (state x)).2]> (futures x))
                                 (exec k (state x)).1) j k') as H.
      cbn [futures state] in H. rewrite Ho' in H. apply H.
      rewrite list_lookup_insert_ne by exact Hne. exact Hj.
    + pose proof (section_acts exec
                    (mkExecution (<[j := after (exec k' (state x)).2]> (futures x))
                                 (exec k' (state x)).1) i k) as H.
      cbn [futures state] in H. rewrite Ho, <- Hm in H.
      rewrite list_insert_insert_ne in H by exact Hne. apply H.
      rewrite list_lookup_insert_ne by congruence. exact Hi.
Qed.

(** Every schedule ends in the same execution. *)
Lemma sections_confluent (x t1 t2 : execution Task Exn Mem) :
  rtc sstep x t1 → all_waited t1 → rtc sstep x t2 → all_waited t2 → t1 = t2.
Proof.
  pose proof (sections_terminate x) as Hev. revert t1 t2.
  induction Hev as [x Hx|x _ Hall IH]; intros t1 t2 H1 Hw1 H2 Hw2.
  - inversion H1 as [|? a ? Ha _]; subst; [|destruct (waited_no_step _ _ Hx Ha)].
    inversion H2 as [|? b ? Hb _]; subst; [|destruct (waited_no_step _ _ Hx Hb)].
    reflexivity.
  - inversion H1 as [|? a ? Ha Hat]; subst.
    { inversion H2 as [|? b ? Hb _]; subst; [reflexivity|].
      destruct (waited_no_step _ _ Hw1 Hb). }
    inversion H2 as [|? b ? Hb Hbt]; subst.
    { destruct (waited_no_step _ _ Hw2 Ha). }
    destruct (section_diamond x a b Ha Hb) as [->|(c & Hac & Hbc)].
    + apply (IH b Hb); assumption.
    + destruct (eventually_reaches _ _ _ (sections_terminate c)) as (t & Hct & Hwt).
      transitivity t.
      * apply (IH a Ha); [exact Hat|exact Hw1|eapply rtc_l; eauto|exact Hwt].
      * symmetry. apply (IH b Hb); [exact Hbt|exact Hw2|eapply rtc_l; eauto|exact Hwt].
Qed.

End SectionFacts.

Section SequentialSections.
Import ParallelSections.
Context {Task Exn Mem : Type}.
Variable exec : Task → Mem → Mem * outcome Task Exn.
Variable tm : Task → nat.
Hypothesis sections_end : ∀ k m m' k', exec k m = (m', Continue k') → (tm k' < tm k)%nat.

Abbreviation sstep := (section_step exec).

(** The thread of one section takes all its actions in a row. *)
Lemma run_section_path (fuel : nat) (i : nat) (k : Task) (x : execution Task Exn Mem) :
  futures x !! i = Some (Unfinished k) →
  rtc sstep x
    (mkExecution (<[i := (run_section exec fuel k (state x)).1]> (futures x))
                 (run_section exec fuel k (state x)).2).
Proof.
  revert k x. induction fuel as [|fuel IH]; intros k x Hi.
  - cbn [run_section fst snd]. rewrite list_insert_id by exact Hi.
    destruct x. apply rtc_refl.
  - cbn [run_section]. pose proof (section_acts exec x i k Hi) as Hs.
    destruct (exec k (state x)) as [m' [k'| |e]] eqn:E; cbn [fst snd after] in *.
    + eapply rtc_l; [exact Hs|].
      specialize (IH k' (mkExecution (<[i := Unfinished k']> (futures x)) m')).
      cbn [futures state] in IH. rewrite list_insert_insert_eq in IH. apply IH.
      apply list_lookup_insert_eq. eapply lookup_lt_Some. exact Hi.
    + eapply rtc_l; [exact Hs|apply rtc_refl].
    + eapply rtc_l; [exact Hs|apply rtc_refl].
Qed.

Lemma run_section_ends (fuel : nat) (k : Task) (m : Mem) :
  (tm k < fuel)%nat → ∀ k', (run_section exec fuel k m).1 ≠ Unfinished k'.
Proof.
  revert k m. induction fuel as [|fuel IH]; intros k m Hlt k'; [lia|].
  cbn [run_section]. destruct (exec k m) as [m' [k''| |e]] eqn:E; cbn; try discriminate.
  apply IH. specialize (sections_end _ _ _ _ E). lia.
Qed.

(** Running the sections one after the other is one of the schedules. *)
Lemma one_after_the_other_path (done : list (section_future Task Exn))
    (sections : list Task) (m : Mem) :
  rtc sstep (mkExecution (done ++ map Unfinished sections) m)
            (mkExecution (done ++ (one_after_the_other exec tm sections m).1)
                         (one_after_the_other exec tm sections m).2)
  ∧ Forall (λ f, ∀ k, f ≠ Unfinished k) (one_after_the_other exec tm sections m).1.
Proof.
  revert done m. induction sections as [|k rest IH]; intros done m.
  - cbn. split; [apply rtc_refl|constructor].
  - cbn [map one_after_the_other].
    pose proof (run_section_path (S (tm k)) (length done) k
                  (mkExecution (done ++ Unfinished k :: map Unfinished rest) m)) as Hp.
    cbn [futures state] in Hp.
    rewrite list_lookup_middle in Hp by reflexivity. specialize (Hp eq_refl).
    rewrite insert_app_r_alt, Nat.sub_diag in Hp by lia. cbn [insert list_insert] in Hp.
    pose proof (run_section_ends (S (tm k)) k m ltac:(lia)) as Hend.
    destruct (run_section exec (S (tm k)) k m) as [f m1]. cbn [fst snd] in *.
    destruct (IH (done ++ [f]) m1) as [Hrest Hfin].
    destruct (one_after_the_other exec tm rest m1) as [fs m2]. cbn [fst snd] in *.
    rewrite <- !app_assoc in Hrest. cbn [app] in Hrest.
    split; [etransitivity; eauto|].
    constructor; assumption.
Qed.

End SequentialSections.

Section SectionLength.
Import ParallelSections.
Context {Task Exn Mem : Type}.
Variable exec : Task → Mem → Mem * outcome Task Exn.

Lemma section_rtc_length (x x' : execution Task Exn Mem) :
  rtc (section_step exec) x x' → length (futures x') = length (futures x).
Proof.
  induction 1 as [|a b c [i k Hi] _ IH]; [reflexivity|].
  rewrite IH. cbn [futures]. apply length_insert.
Qed.

End SectionLength.

(** X21.  [parallel_sections::execute] starts one [std::async] thread per
    section and waits for every future.  When the sections end,
    [execute] returns on every schedule of their interleaved actions,
    whether or not a section throws: [wait] does not read the shared
    state, and in the end every future holds a return or an exception.
    When the actions of the sections are independent, every schedule
    gives the futures and the memory of the sections run one after the
    other in the order in which they were added. *)
Theorem parallel_sections_run_each_section_once {Task Exn Mem : Type}
    (exec : Task → Mem → Mem * outcome Task Exn) (tm : Task → nat)
    (sections : list Task) (u : Mem) :
  (∀ k m m' k', exec k m = (m', Continue k') → (tm k' < tm k)%nat) →
  eventually (ParallelSections.section_step exec) ParallelSections.all_waited
    (ParallelSections.start_sections sections u)
  ∧ (∀ x, rtc (ParallelSections.section_step exec)
              (ParallelSections.start_sections sections u) x →
          ParallelSections.all_waited x →
          ∀ i, (i < length sections)%nat →
               ParallelSections.futures x !! i = Some ParallelSections.Returned
               ∨ ∃ e, ParallelSections.futures x !! i
                      = Some (ParallelSections.Thrown e))
  ∧ (ParallelSections.independent exec →
     ∀ x, rtc (ParallelSections.section_step exec)
              (ParallelSections.start_sections sections u) x →
          ParallelSections.all_waited x →
          ParallelSections.futures x
          = (ParallelSections.one_after_the_other exec tm sections u).1
          ∧ ParallelSections.state x
            = (ParallelSections.one_after_the_other exec tm sections u).2).
Proof.
  intros Hend. split; [|split].
  - apply (sections_terminate exec tm Hend).
  - intros x Hrtc Hw i Hi.
    apply section_rtc_length in Hrtc as Hlen.
    cbn [ParallelSections.start_sections ParallelSections.futures] in Hlen.
    rewrite length_map in Hlen.
    destruct (lookup_lt_is_Some_2 (ParallelSections.futures x) i) as [f Hf]; [lia|].
    unfold ParallelSections.all_waited in Hw. rewrite Forall_lookup in Hw.
    specialize (Hw _ _ Hf). destruct f as [k| |e].
    + destruct (Hw k eq_refl).
    + left. exact Hf.
    + right. exists e. exact Hf.
  - intros Hind x Hrtc Hw.
    destruct (one_after_the_other_path exec tm Hend [] sections u) as [Hseq Hfin].
    cbn [app] in Hseq.
    pose proof (sections_confluent exec tm Hend Hind _ _ _ Hrtc Hw Hseq Hfin) as E.
    rewrite E. split; reflexivity.
Qed.

(** A section that throws and one that returns: [execute] comes back on
    every schedule, the exception is in the first future, and both
    sections have added their numbers. *)
Lemma parallel_sections_run_each_section_once_witness :
  eventually (ParallelSections.section_step ParallelSections.add_down)
    ParallelSections.all_waited
    (ParallelSections.start_sections [(3%nat, true); (2%nat, false)] 0)
  ∧ ∀ x, rtc (ParallelSections.section_step ParallelSections.add_down)
             (ParallelSections.start_sections [(3%nat, true); (2%nat, false)] 0) x →
         ParallelSections.all_waited x →
         ParallelSections.futures x
         = [ParallelSections.Thrown "boom"%string; ParallelSections.Returned]
         ∧ ParallelSections.state x = 9.
Proof.
  destruct (parallel_sections_run_each_section_once
              ParallelSections.add_down fst [(3%nat, true); (2%nat, false)] 0)
    as (Hev & _ & Hseq).
  - intros [k b] m m' k' H. destruct k; cbn in H; [destruct b; discriminate|].
    injection H as _ <-. cbn. lia.
  - split; [exact Hev|]. apply Hseq.
    intros [k1 b1] [k2 b2] m.
    destruct k1, k2, b1, b2; cbn; split; try reflexivity; lia.
Defined.

(** ** reduction_variable::reduce *)

Section ReduceFacts.
Import ParallelFramework.

Lemma sum_replicate (n : nat) (a x : Z) :
  foldl Z.add a (replicate n x) = a + Z.of_nat n * x.
Proof.
  revert a. induction n as [|n IH]; intros a; [cbn; lia|].
  cbn [replicate foldl]. rewrite IH. lia.
Qed.

Lemma foldl_replicate_fixed {T : Type} (op : T → T → T) (e : T) (n : nat) :
  op e e = e → foldl op e (replicate n e) = e.
Proof.
  intros He. induction n as [|n IH]; [reflexivity|].
  cbn [replicate foldl]. rewrite He. exact IH.
Qed.

End ReduceFacts.

(** X22.  [reduction_variable]: the value given to the constructor is
    both the initial content of every slot and the start of the fold in
    [reduce()].  With [+], [reduce()] returns the sum of the slots plus
    that value, so a variable nobody has written to reduces to
    [(slots + 1) * init_value]; whenever [op init_value init_value] is
    [init_value], as for a neutral element, an untouched variable reduces
    to [init_value]. *)
Theorem reduction_variable_reduce_counts_init_value
    (global_num_threads init_value : Z) :
  0 ≤ global_num_threads ≤ INT_MAX →
  (∀ slots : list Z,
     ParallelFramework.reduce (ParallelFramework.mkReductionVariable slots Z.add init_value)
     = init_value + foldl Z.add 0 slots)
  ∧ ParallelFramework.reduce
      (ParallelFramework.new_reduction_variable global_num_threads init_value Z.add)
    = (global_num_threads + 1) * init_value
  ∧ ∀ (T : Type) (op : T → T → T) (init : T),
      op init init = init →
      ParallelFramework.reduce
        (ParallelFramework.new_reduction_variable global_num_threads init op)
      = init.
Proof.
  intros Hg.
  assert (Hs : to_size_t global_num_threads = global_num_threads).
  { apply to_size_t_small. unfold INT_MAX in Hg. lia. }
  split; [|split].
  - intros slots. unfold ParallelFramework.reduce. cbn. apply foldl_add_shift.
  - unfold ParallelFramework.reduce, ParallelFramework.new_reduction_variable. cbn.
    rewrite Hs, sum_replicate, Z2Nat.id by lia. lia.
  - intros T op init Hop.
    unfold ParallelFramework.reduce, ParallelFramework.new_reduction_variable. cbn.
    apply foldl_replicate_fixed. exact Hop.
Qed.

Lemma reduction_variable_reduce_counts_init_value_witness :
  ParallelFramework.reduce (ParallelFramework.new_reduction_variable 4 5 Z.add) = (4 + 1) * 5.
Proof.
  refine (proj1 (proj2 (reduction_variable_reduce_counts_init_value 4 5 _))).
  unfold INT_MAX. lia.
Defined.

(** ** The global thread count *)

(** X23.  [set_num_threads] and [get_num_threads] of
    parallel_framework.h pass the count through a [std::atomic<int>]:
    what [get_num_threads] returns is what was set, for every
    [uint32_t], but the [int] the loops read is positive only for counts
    from 1 to [INT_MAX]; for 0 and for counts from 2^31 on
    [parallel_for] finds no positive thread count in effect. *)
Theorem global_thread_count_round_trip (num_threads : Z) :
  0 ≤ num_threads < 2 ^ 32 →
  ParallelFrameworkGlobals.get_num_threads
    (ParallelFrameworkGlobals.set_num_threads num_threads) = num_threads
  ∧ (0 < ParallelFrameworkGlobals.set_num_threads num_threads
     ↔ 1 ≤ num_threads ≤ INT_MAX)
  ∧ (1 ≤ num_threads ≤ INT_MAX →
     ParallelFrameworkGlobals.set_num_threads num_threads = num_threads).
Proof.
  intros Hr. unfold ParallelFrameworkGlobals.get_num_threads,
    ParallelFrameworkGlobals.set_num_threads, wrap_uint, wrap_int, INT_MAX.
  destruct (Z_lt_le_dec num_threads (2 ^ 31)) as [Hlt|Hge].
  - rewrite (Z.mod_small (num_threads + 2 ^ 31)) by lia.
    replace (num_threads + 2 ^ 31 - 2 ^ 31) with num_threads by lia.
    rewrite Z.mod_small by lia. lia.
  - assert (E : (num_threads + 2 ^ 31) `mod` 2 ^ 32 = num_threads - 2 ^ 31).
    { symmetry. apply (Z.mod_unique_pos _ _ 1); lia. }
    rewrite E.
    assert (E2 : (num_threads - 2 ^ 31 - 2 ^ 31) `mod` 2 ^ 32 = num_threads).
    { symmetry. apply (Z.mod_unique_pos _ _ (-1)); lia. }
    rewrite E2. lia.
Qed.

Lemma global_thread_count_round_trip_witness :
  ParallelFrameworkGlobals.get_num_threads
    (ParallelFrameworkGlobals.set_num_threads 4000000000) = 4000000000.
Proof.
  refine (proj1 (global_thread_count_round_trip 4000000000 _)). lia.
Defined.
